(** * zookeeper-operator: membership model and reconciliation engine

    A shallow embedding of [pkg/util/zookeeperutil] (member sets and the
    ensemble client), of the pod builder of [pkg/util/k8sutil] and of the
    reconcile pass of [pkg/cluster], followed by the properties the
    specification states about them and by further properties of the code:
    names and IDs, the algebra of member sets, the parsing of the ensemble
    configuration, the steps of the engine, and the labels, annotations and
    defaults of [k8sutil] and [v1alpha1]. *)

From Stdlib Require Import ZArith Ascii String DecimalString DecimalPos.
From stdpp Require Import gmap strings list fin_maps sorting.

#[local] Set Warnings "-clear-no-such-hyp".

Local Open Scope string_scope.
Local Open Scope Z_scope.
Local Open Scope list_scope.

(** ** Go strings

    The pieces of [strings], [strconv] and [fmt] the operator calls.  A Go
    string is a byte sequence; [string] with [ascii] bytes models it. *)

Module GoString.

(** [occurs c s]: the byte [c] appears in [s]. *)
Fixpoint occurs (c : ascii) (s : string) : bool :=
  match s with
  | EmptyString => false
  | String a s' => if Ascii.eqb a c then true else occurs c s'
  end.

(** [strings.Split(s, sep)] for a one-byte separator, which is what every
    call site of the operator passes.  The result is never empty: the
    split of the empty string is the list holding the empty string. *)
Fixpoint Split (s : string) (sep : ascii) : list string :=
  match s with
  | EmptyString => [EmptyString]
  | String a s' =>
      if Ascii.eqb a sep then EmptyString :: Split s' sep
      else match Split s' sep with
           | [] => [String a EmptyString]
           | p :: ps => String a p :: ps
           end
  end.

(** [strings.Join(elems, sep)]. *)
Fixpoint Join (elems : list string) (sep : string) : string :=
  match elems with
  | [] => EmptyString
  | [e] => e
  | e :: es => e +:+ sep +:+ Join es sep
  end.

(** [strings.LastIndex(s, sep)] for a one-byte separator: the index of the
    last occurrence, or -1. *)
Fixpoint LastIndex (s : string) (sep : ascii) : Z :=
  match s with
  | EmptyString => -1
  | String a s' =>
      let i := LastIndex s' sep in
      if 0 <=? i then i + 1
      else if Ascii.eqb a sep then 0 else -1
  end.

(** The slice [s[:i]]. *)
Definition slice_to (s : string) (i : Z) : string :=
  substring 0 (Z.to_nat i) s.

(** The value of a decimal digit. *)
Definition digit_val (a : ascii) : option Z :=
  let n := Z.of_N (N_of_ascii a) in
  if (48 <=? n) && (n <=? 57) then Some (n - 48) else None.

(** The number a string of decimal digits stands for, after the digits
    worth [acc]; [None] when a character is no digit. *)
Fixpoint digits_val (acc : Z) (s : string) : option Z :=
  match s with
  | EmptyString => Some acc
  | String a s' =>
      match digit_val a with
      | Some d => digits_val (10 * acc + d) s'
      | None => None
      end
  end.

Definition MaxInt : Z := 2 ^ 63 - 1.
Definition MinInt : Z := - 2 ^ 63.

(** Go's [int] is 64 bits wide on the platforms the operator runs on. *)
Definition wrap (n : Z) : Z := (n + 2 ^ 63) mod 2 ^ 64 - 2 ^ 63.

Definition MaxUint64 : Z := 2 ^ 64 - 1.

(** What [strconv.ParseUint] makes of a string, in base 10 and at 64 bits. *)
Inductive parsed :=
| Number (n : Z)
| ErrRange                            (* the digits read overflow *)
| ErrSyntax.                          (* a character that is no digit *)

(** [strconv.ParseUint] reads the digits from the left, [n] being the value
    of those read so far.  It stops at the first character that is no digit,
    with a syntax error, or at the first digit with which the value
    overflows, with a range error, whichever comes first. *)
Fixpoint ParseUint (n : Z) (s : string) : parsed :=
  match s with
  | EmptyString => Number n
  | String c s' =>
      match digit_val c with
      | None => ErrSyntax
      | Some d =>
          if MaxUint64 / 10 + 1 <=? n then ErrRange
          else if MaxUint64 <? 10 * n + d then ErrRange
          else ParseUint (10 * n + d) s'
      end
  end.

(** [strconv.Atoi]: an optional sign and decimal digits.  The pair is the
    value and whether the error is nil.  A syntax error yields 0, a value
    out of range yields the nearest bound (both with an error). *)
Definition Atoi (s : string) : Z * bool :=
  match s with
  | EmptyString => (0, false)
  | String a s' =>
      let neg := Ascii.eqb a "-" in
      let body := if neg || Ascii.eqb a "+" then s' else s in
      match body with
      | EmptyString => (0, false)
      | _ =>
          match ParseUint 0 body with
          | ErrSyntax => (0, false)
          | ErrRange => (if neg then MinInt else MaxInt, false)
          | Number un =>
              let v := if neg then - un else un in
              if v <? MinInt then (MinInt, false)
              else if MaxInt <? v then (MaxInt, false)
              else (v, true)
          end
      end
  end.

(** The verb [%d] of [fmt.Sprintf], and [strconv.Itoa]. *)
Definition Itoa (n : Z) : string := NilZero.string_of_int (Z.to_int n).

End GoString.

Import GoString.

(** ** Outcomes

    A Go call either returns or panics.  The panics the modelled code can
    raise are listed; an [error] result is an ordinary return value. *)

Inductive panic :=
| PanicEmpty                          (* panic("empty") of PickOne *)
| PanicMemberName (mn : string)       (* "unexpected member name: ..." *)
| PanicIndex                          (* index out of range *)
| PanicNil                            (* nil pointer dereference *)
| PanicClose.                         (* conn.Close() on the nil connection *)

Inductive result (A : Type) :=
| Val (a : A)
| Panic (p : panic).
Arguments Val {A} a.
Arguments Panic {A} p.

Global Instance result_ret : MRet result := @Val.
Global Instance result_bind : MBind result := fun A B f r =>
  match r with
  | Val a => f a
  | Panic p => Panic p
  end.
Global Instance result_fmap : FMap result := fun A B f r =>
  match r with
  | Val a => Val (f a)
  | Panic p => Panic p
  end.

(** [mapR f l] applies [f] from left to right and stops at the first panic. *)
Fixpoint mapR {A B} (f : A → result B) (l : list A) : result (list B) :=
  match l with
  | [] => Val []
  | x :: l' => y ← f x; ys ← mapR f l'; Val (y :: ys)
  end.

(** ** Members and member sets (zookeeperutil) *)

Record Member := mkMember {
  Name : string;        (* of the format "clusterName-ID" *)
  Namespace : string
}.

Global Instance Member_eq_dec : EqDecision Member.
Proof. solve_decision. Defined.

(** [type MemberSet map[string]*Member]. *)
Abbreviation MemberSet := (gmap string Member).

(** The order in which [range] visits a Go map is unspecified and differs
    from one loop to the next.  A [traversal] is one such order; it is
    [fair] for a set when it visits each entry exactly once. *)
Definition traversal := MemberSet → list (string * Member).

Definition fair (ρ : traversal) (ms : MemberSet) : Prop :=
  ρ ms ≡ₚ map_to_list ms.

(** The order stdpp happens to list a map in: one fair traversal. *)
Definition listed : traversal := map_to_list.

Definition clusterNameFromMemberName (mn : string) : result string :=
  let i := LastIndex mn "-" in
  if i =? -1 then Panic (PanicMemberName mn)
  else Val (slice_to mn i).

Definition Addr (m : Member) : result string :=
  cn ← clusterNameFromMemberName (Name m);
  Val (Name m +:+ "." +:+ cn +:+ "." +:+ Namespace m +:+ ".svc").

Definition ID (m : Member) : Z :=
  let sSplit := Split (Name m) "-" in
  fst (Atoi (List.last sSplit EmptyString)).

Definition NewMemberSet (ms : list Member) : MemberSet :=
  foldl (fun res m => <[Name m := m]> res) ∅ ms.

(** The members of [ms] that are not members of [other], by key. *)
Definition Diff (ms other : MemberSet) : MemberSet :=
  filter (fun nm => other !! nm.1 = None) ms.

Definition Size (ms : MemberSet) : Z := Z.of_nat (size ms).

Definition IsEqual (ms other : MemberSet) : bool :=
  if bool_decide (Size ms ≠ Size other) then false
  else forallb (fun nm => bool_decide (is_Some (other !! nm.1)))
         (map_to_list ms).

(** [PickOne] returns the first member the traversal yields. *)
Definition PickOne (ρ : traversal) (ms : MemberSet) : result Member :=
  match ρ ms with
  | nm :: _ => Val nm.2
  | [] => Panic PanicEmpty
  end.

Definition Add (ms : MemberSet) (m : Member) : MemberSet := <[Name m := m]> ms.

Definition Remove (ms : MemberSet) (name : string) : MemberSet := delete name ms.

Definition MaxMemberID (ms : MemberSet) : Z :=
  map_fold (fun _ m maxID => if maxID <? ID m then ID m else maxID) 0 ms.

Definition client_host (m : Member) : result string :=
  a ← Addr m; Val (a +:+ ":2181").

Definition ClientHostList (ρ : traversal) (ms : MemberSet) : result (list string) :=
  mapR (fun nm => client_host nm.2) (ρ ms).

(** The line [ClusterConfig] formats with
    ["server.%d=%s:2888:3888:participant;%s:2181"]. *)
Definition server_line (role : string) (m : Member) : result string :=
  a ← Addr m;
  Val ("server." +:+ Itoa (ID m) +:+ "=" +:+ a +:+ ":2888:3888:" +:+ role
       +:+ ";" +:+ a +:+ ":2181").

(** [sort.Strings]: increasing byte-wise order. *)
Definition sort_Strings (l : list string) : list string :=
  merge_sort String.le l.

Definition ClusterConfig (ρ : traversal) (ms : MemberSet) : result (list string) :=
  clusterConfig ← mapR (fun nm => server_line "participant" nm.2) (ρ ms);
  Val (sort_Strings clusterConfig).

(** ** Pods and the pod builder (k8sutil)

    Of [v1.Pod] the model keeps what the operator reads back or what the
    ensemble member is started with: the name, the namespace, the
    annotations and the container environment.  The pod policy of the
    spec is nil. *)

Record Pod := mkPod {
  pod_Name : string;
  pod_Namespace : string;
  Annotations : gmap string string;
  ContainerEnv : list (string * string)
}.

Module api.

Record ClusterSpec := mkClusterSpec {
  Size : Z;
  Repository : string;
  Version : string;
  Paused : bool
}.

(** Modelled from the spec: the status type and its methods are declared
    in [pkg/apis/zookeeper/v1alpha1], in a file that is not part of the
    sources.  The conditions are independent flags; setting Ready clears
    Scaling and Upgrading. *)
Inductive ClusterConditionType :=
| ClusterConditionReady
| ClusterConditionScaling
| ClusterConditionUpgrading.

Record ClusterStatus := mkClusterStatus {
  status_Size : Z;
  CurrentVersion : string;
  TargetVersion : string;
  Ready : bool;
  Scaling : option (Z * Z);
  Upgrading : option (string * string)
}.

(** [status.Size = n]. *)
Definition with_Size (st : ClusterStatus) (n : Z) : ClusterStatus :=
  mkClusterStatus n (CurrentVersion st) (TargetVersion st) (Ready st)
    (Scaling st) (Upgrading st).

(** Modelled from the spec: [ClearCondition] clears the flag of the condition. *)
Definition ClearCondition (st : ClusterStatus) (t : ClusterConditionType) : ClusterStatus :=
  match t with
  | ClusterConditionReady =>
      mkClusterStatus (status_Size st) (CurrentVersion st) (TargetVersion st)
        false (Scaling st) (Upgrading st)
  | ClusterConditionScaling =>
      mkClusterStatus (status_Size st) (CurrentVersion st) (TargetVersion st)
        (Ready st) None (Upgrading st)
  | ClusterConditionUpgrading =>
      mkClusterStatus (status_Size st) (CurrentVersion st) (TargetVersion st)
        (Ready st) (Scaling st) None
  end.

(** Modelled from the spec: [SetScalingUpCondition] sets Scaling with the
    sizes it scales between. *)
Definition SetScalingUpCondition (st : ClusterStatus) (from to : Z) : ClusterStatus :=
  mkClusterStatus (status_Size st) (CurrentVersion st) (TargetVersion st)
    (Ready st) (Some (from, to)) (Upgrading st).

(** Modelled from the spec: [SetScalingDownCondition] sets Scaling with the
    sizes it scales between. *)
Definition SetScalingDownCondition (st : ClusterStatus) (from to : Z) : ClusterStatus :=
  mkClusterStatus (status_Size st) (CurrentVersion st) (TargetVersion st)
    (Ready st) (Some (from, to)) (Upgrading st).

(** Modelled from the spec: [UpgradeVersionTo] records the target version and
    sets Upgrading from the current version to it. *)
Definition UpgradeVersionTo (st : ClusterStatus) (v : string) : ClusterStatus :=
  mkClusterStatus (status_Size st) (CurrentVersion st) v
    (Ready st) (Scaling st) (Some (CurrentVersion st, v)).

(** Modelled from the spec: [SetVersion] records the current version. *)
Definition SetVersion (st : ClusterStatus) (v : string) : ClusterStatus :=
  mkClusterStatus (status_Size st) v (TargetVersion st)
    (Ready st) (Scaling st) (Upgrading st).

(** Modelled from the spec: [SetReadyCondition] sets Ready and clears Scaling
    and Upgrading. *)
Definition SetReadyCondition (st : ClusterStatus) : ClusterStatus :=
  mkClusterStatus (status_Size st) (CurrentVersion st) (TargetVersion st)
    true None None.

End api.

Definition zookeeperVersionAnnotationKey : string := "zookeeper.version".

(** Reading a missing key of a Go map yields the zero value. *)
Definition GetZookeeperVersion (pod : Pod) : string :=
  default EmptyString (Annotations pod !! zookeeperVersionAnnotationKey).

Definition SetZookeeperVersion (pod : Pod) (version : string) : Pod :=
  mkPod (pod_Name pod) (pod_Namespace pod)
    (<[zookeeperVersionAnnotationKey := version]> (Annotations pod))
    (ContainerEnv pod).

(** The last entry of [zooServers] is the line of the joining member; its
    role depends on [state]. *)
Definition NewZookeeperPod (m : Member) (existingCluster : list string)
    (clusterName state : string) (cs : api.ClusterSpec) : result Pod :=
  joining ←
    (if bool_decide (state = "seed") || bool_decide (state = "replacement")
     then server_line "participant" m
     else server_line "observer" m);
  let zooServers := existingCluster ++ [joining] in
  let pod :=
    mkPod (Name m) EmptyString ∅
      [("ZOO_MY_ID", Itoa (ID m));
       ("ZOO_SERVERS", Join zooServers " ");
       ("ZOO_MAX_CLIENT_CNXNS", "0")] in
  Val (SetZookeeperVersion pod (api.Version cs)).


(** ** Upgrade predicates (pkg/cluster/reconcile.go) *)

Fixpoint pickOneOldMember (pods : list Pod) (newVersion : string) : option Member :=
  match pods with
  | [] => None
  | pod :: pods' =>
      if bool_decide (GetZookeeperVersion pod = newVersion)
      then pickOneOldMember pods' newVersion
      else Some (mkMember (pod_Name pod) (pod_Namespace pod))
  end.

Definition needUpgrade (pods : list Pod) (cs : api.ClusterSpec) : bool :=
  bool_decide (Z.of_nat (length pods) = api.Size cs)
  && bool_decide (pickOneOldMember pods (api.Version cs) ≠ None).

(** ** The outside world

    Every call that leaves the operator is recorded, in order.  What the
    Kubernetes API server and the ensemble answer is not decided by the
    operator: an [Env] fixes the answer to each call given the calls made
    so far, and the order of each [range] over a member set. *)

Inductive call :=
| PodsDelete (name : string) (wait : bool)
| PodsCreate (pod : Pod)
| EventsCreate (reason member : string)
| ZkConnect (hosts : list string)
| ZkGet (path : string)
| ZkReconfig (newMembers : string).

Inductive reply :=
| Data (payload : string)
| Fail (msg : string).

Class Env := mkEnv {
  pods_delete : list call → string → bool → option string;
  pods_create : list call → Pod → option string;
  events_create : list call → string → string → option string;
  zk_connect : list call → list string → option string;
  zk_get : list call → string → reply;
  zk_reconfig : list call → string → reply;
  range : nat → traversal;
  range_fair : ∀ n ms, fair (range n) ms
}.

Inductive error :=
| ErrLostQuorum
| ErrorString (msg : string).

Definition Error_ (e : error) : string :=
  match e with
  | ErrLostQuorum => "lost quorum"
  | ErrorString msg => msg
  end.

Record Cluster := mkCluster {
  cluster_Name : string;
  cluster_Namespace : string;
  Spec : api.ClusterSpec;
  members : MemberSet;
  status : api.ClusterStatus
}.

Record State := mkState {
  this : Cluster;
  calls : list call;
  ranges : nat
}.

(** A computation reads and updates the state and returns or panics. *)
Definition M (A : Type) : Type := State → result A * State.

Global Instance M_ret : MRet M := fun A a s => (Val a, s).
Global Instance M_bind : MBind M := fun A B f m s =>
  match m s with
  | (Val a, s') => f a s'
  | (Panic p, s') => (Panic p, s')
  end.

Definition liftR {A} (r : result A) : M A := fun s => (r, s).

Definition get : M Cluster := fun s => (Val (this s), s).

Definition set_members (ms : MemberSet) : M unit := fun s =>
  let c := this s in
  (Val (), mkState (mkCluster (cluster_Name c) (cluster_Namespace c) (Spec c) ms (status c))
             (calls s) (ranges s)).

Definition set_status (st : api.ClusterStatus) : M unit := fun s =>
  let c := this s in
  (Val (), mkState (mkCluster (cluster_Name c) (cluster_Namespace c) (Spec c) (members c) st)
             (calls s) (ranges s)).

(** [defer]: [d] runs when [body] is left, by return or by panic. *)
Definition defer {A} (d : M unit) (body : M A) : M A := fun s =>
  let (r, s') := body s in (r, (d s').2).

Section Engine.
Context `{Env}.

Definition invoke {A} (c : call) (answer : list call → A) : M A := fun s =>
  (Val (answer (calls s)), mkState (this s) (calls s ++ [c]) (ranges s)).

(** The order of the next [range] loop. *)
Definition next_range : M traversal := fun s =>
  (Val (range (ranges s)), mkState (this s) (calls s) (S (ranges s))).

(** *** The ensemble client (zookeeperutil) *)

(** The payload holds the servers first; its last line is the version. *)
Definition config_lines (dataStr : string) : list string :=
  let configDataArr := Split dataStr "010" in
  let clusterConfig := removelast configDataArr in
  sort_Strings clusterConfig.

(** [conn.Close()] is deferred before the error of [zk.Connect] is
    looked at.  When the connect fails there is no connection: the function
    goes on to return the error, and the deferred call on the nil
    connection panics in its place. *)
Definition GetClusterConfig (hosts : list string) : M (list string + error) :=
  err ← invoke (ZkConnect hosts) (fun h => zk_connect h hosts);
  match err with
  | Some msg => liftR (Panic PanicClose)
  | None =>
      r ← invoke (ZkGet "/zookeeper/config") (fun h => zk_get h "/zookeeper/config");
      match r with
      | Fail msg => mret (inr (ErrorString msg))
      | Data dataStr => mret (inl (config_lines dataStr))
      end
  end.

Definition ReconfigureCluster (hosts desiredConfig : list string) : M (list string + error) :=
  err ← invoke (ZkConnect hosts) (fun h => zk_connect h hosts);
  match err with
  | Some msg => liftR (Panic PanicClose)
  | None =>
      let newMembers := Join desiredConfig "," in
      r ← invoke (ZkReconfig newMembers) (fun h => zk_reconfig h newMembers);
      match r with
      | Fail msg => mret (inr (ErrorString msg))
      | Data dataStr => mret (inl (config_lines dataStr))
      end
  end.

(** *** Pods of the cluster (pkg/cluster/cluster.go, not among the sources) *)

(** Modelled from the spec: [removePod] is missing; it deletes the pod of
    that name through the API server and returns its error. *)
Definition removePod (name : string) (wait : bool) : M (option error) :=
  r ← invoke (PodsDelete name wait) (fun h => pods_delete h name wait);
  mret (ErrorString <$> r).

(** Modelled from the spec: [createPod] is missing; it builds the pod of
    the member with [NewZookeeperPod] from the member, the existing ensemble
    configuration and the join state, creates it and returns the error of
    the creation. *)
Definition createPod (existingCluster : list string) (m : Member) (state : string)
    : M (option error) :=
  c ← get;
  pod ← liftR (NewZookeeperPod m existingCluster (cluster_Name c) state (Spec c));
  r ← invoke (PodsCreate pod) (fun h => pods_create h pod);
  mret (ErrorString <$> r).

(** Modelled from the spec: the event constructors of [k8sutil] are
    missing; an event is its reason and the member it names. *)
Definition eventsCli_Create (reason member : string) : M (option error) :=
  r ← invoke (EventsCreate reason member) (fun h => events_create h reason member);
  mret (ErrorString <$> r).

(** *** Members of the cluster (pkg/cluster/member.go) *)

Definition at_ {A} (l : list A) (i : nat) : result A :=
  match l !! i with
  | Some x => Val x
  | None => Panic PanicIndex
  end.

Definition member_of_config (ns serverConfig : string) : result Member :=
  let leaderClientSplit := Split serverConfig ";" in
  s1 ← at_ leaderClientSplit 1;
  clientHostname ← at_ (Split s1 ":") 0;
  clientName ← at_ (Split clientHostname ".") 0;
  Val (mkMember clientName ns).

Fixpoint members_of_config (ns : string) (resp : list string) (acc : MemberSet)
    : result MemberSet :=
  match resp with
  | [] => Val acc
  | serverConfig :: resp' =>
      m ← member_of_config ns serverConfig;
      members_of_config ns resp' (<[Name m := m]> acc)
  end.

Definition updateMembers (known : MemberSet) : M (option error) :=
  ρ ← next_range;
  hosts ← liftR (ClientHostList ρ known);
  r ← GetClusterConfig hosts;
  match r with
  | inr err => mret (Some err)
  | inl resp =>
      c ← get;
      ms ← liftR (members_of_config (cluster_Namespace c) resp ∅);
      _ ← set_members ms;
      mret None
  end.

Definition newMember : M Member :=
  c ← get;
  let name := cluster_Name c +:+ "-" +:+ Itoa (wrap (MaxMemberID (members c) + 1)) in
  mret (mkMember name (cluster_Namespace c)).

Definition podsToMemberSet (pods : list Pod) : MemberSet :=
  foldl (fun ms pod => Add ms (mkMember (pod_Name pod) (pod_Namespace pod))) ∅ pods.

(** *** The reconcile pass (pkg/cluster/reconcile.go) *)

Definition addMember (toAdd : Member) (state : string) : M (option error) :=
  c ← get;
  ρ ← next_range;
  existingCluster ← liftR (ClusterConfig ρ (members c));
  _ ← set_members (Add (members c) toAdd);
  err ← createPod existingCluster toAdd state;
  match err with
  | Some e =>
      mret (Some (ErrorString ("fail to create member's pod (" +:+ Name toAdd
                               +:+ "): " +:+ Error_ e)))
  | None =>
      _ ← eventsCli_Create "New Member Added" (Name toAdd);
      mret None
  end.

Definition addOneMember : M (option error) :=
  c ← get;
  _ ← set_status (api.SetScalingUpCondition (status c) (Size (members c)) (api.Size (Spec c)));
  newMember ← newMember;
  addMember newMember "new".

Definition removeMember (toRemove : Member) (isScalingEvent : bool) : M (option error) :=
  c ← get;
  _ ← set_members (Remove (members c) (Name toRemove));
  _ ← (if isScalingEvent then
         c ← get;
         ρ1 ← next_range;
         hosts ← liftR (ClientHostList ρ1 (members c));
         ρ2 ← next_range;
         config ← liftR (ClusterConfig ρ2 (members c));
         _ ← ReconfigureCluster hosts config;
         mret ()
       else mret ());
  _ ← eventsCli_Create "Member Removed" (Name toRemove);
  err ← removePod (Name toRemove) isScalingEvent;
  match err with
  | Some e =>
      mret (Some (ErrorString ("remove member (" +:+ Name toRemove
                               +:+ ") failed: " +:+ Error_ e)))
  | None => mret None
  end.

Definition removeOneMember : M (option error) :=
  c ← get;
  _ ← set_status (api.SetScalingDownCondition (status c) (Size (members c)) (api.Size (Spec c)));
  ρ ← next_range;
  m ← liftR (PickOne ρ (members c));
  removeMember m true.

Definition replaceDeadMember (toReplace : Member) : M (option error) :=
  _ ← eventsCli_Create "Replacing Dead Member" (Name toReplace);
  err ← removeMember toReplace false;
  match err with
  | Some e => mret (Some e)
  | None => addMember toReplace "replacement"
  end.

Definition resize : M (option error) :=
  c ← get;
  if Size (members c) =? api.Size (Spec c) then mret None
  else if Size (members c) <? api.Size (Spec c) then addOneMember
  else removeOneMember.

(** The loop over [unknownMembers]: it stops at the first failed removal. *)
Fixpoint remove_unexpected (unknown : list (string * Member)) : M (option error) :=
  match unknown with
  | [] => mret None
  | nm :: rest =>
      err ← removePod (Name nm.2) true;
      match err with
      | Some e => mret (Some e)
      | None => remove_unexpected rest
      end
  end.

Definition reconcileMembers (running : MemberSet) : M (option error) :=
  c ← get;
  let unknownMembers := Diff running (members c) in
  err ← (if 0 <? Size unknownMembers
         then ρ ← next_range; remove_unexpected (ρ unknownMembers)
         else mret None);
  match err with
  | Some e => mret (Some e)
  | None =>
      let L := Diff running unknownMembers in
      if Size L =? Size (members c) then resize
      else if Size L <? Size (members c) ÷ 2 + 1 then mret (Some ErrLostQuorum)
      else
        ρ ← next_range;
        toReplace ← liftR (PickOne ρ (Diff (members c) L));
        replaceDeadMember toReplace
  end.

(** Modelled from the spec: [upgradeOneMember] is missing; the upgrade
    step removes the candidate, with reconfigure, and at once re-adds a
    replacement member of the same name. *)
Definition upgradeOneMember (name : string) : M (option error) :=
  c ← get;
  let m := mkMember name (cluster_Namespace c) in
  err ← removeMember m true;
  match err with
  | Some e => mret (Some e)
  | None => addMember m "replacement"
  end.

(** The first block of [reconcile]: the ensemble is reconfigured when the
    running pods are the members but the ensemble reports another
    configuration.  [Some r] stands for [return r], [None] for falling
    through to the rest of [reconcile]. *)
Definition reconfigure_check (running : MemberSet) : M (option (option error)) :=
  c ← get;
  if IsEqual running (members c) then
    ρ1 ← next_range;
    clientHosts ← liftR (ClientHostList ρ1 (members c));
    r ← GetClusterConfig clientHosts;
    match r with
    | inr err => mret (Some (Some err))
    | inl zkClusterConfig =>
        ρ2 ← next_range;
        memberClusterConfig ← liftR (ClusterConfig ρ2 (members c));
        if bool_decide (Z.of_nat (length zkClusterConfig) ≠ Size (members c))
           || bool_decide (zkClusterConfig ≠ memberClusterConfig)
        then
          r ← ReconfigureCluster clientHosts memberClusterConfig;
          match r with
          | inr err => mret (Some (Some err))
          | inl config => mret (Some None)
          end
        else mret None
    end
  else mret None.

Definition refresh_size : M unit :=
  c ← get;
  set_status (api.with_Size (status c) (Size (members c))).

(** The end of [reconcile], reached when the membership has the size of
    the spec and the running pods are the members: one old member is
    upgraded, or the cluster is ready. *)
Definition upgrade_or_ready (pods : list Pod) : M (option error) :=
  c ← get;
  let sp := Spec c in
  _ ← set_status (api.ClearCondition (status c) api.ClusterConditionScaling);
  if needUpgrade pods sp then
    c ← get;
    _ ← set_status (api.UpgradeVersionTo (status c) (api.Version sp));
    match pickOneOldMember pods (api.Version sp) with
    | None => liftR (Panic PanicNil)
    | Some m => upgradeOneMember (Name m)
    end
  else
    c ← get;
    _ ← set_status (api.ClearCondition (status c) api.ClusterConditionUpgrading);
    c ← get;
    _ ← set_status (api.SetVersion (status c) (api.Version sp));
    c ← get;
    _ ← set_status (api.SetReadyCondition (status c));
    mret None.

Definition reconcile (pods : list Pod) : M (option error) :=
  defer refresh_size (
    c ← get;
    let sp := Spec c in
    let running := podsToMemberSet pods in
    returned ← reconfigure_check running;
    match returned with
    | Some r => mret r
    | None =>
        if negb (IsEqual running (members c))
           || bool_decide (Size (members c) ≠ api.Size sp)
        then reconcileMembers running
        else upgrade_or_ready pods
    end).

End Engine.

(** ** More of the operator: printing, labels, the pod policy, defaults *)

(** [(ms MemberSet) String()]: the names, in the order of the traversal,
    joined by commas. *)
Definition MemberSet_String (ρ : traversal) (ms : MemberSet) : string :=
  Join ((ρ ms).*1) ",".

(** The order of a [range] over a map of strings. *)
Definition order := gmap string string → list (string * string).

Definition fair_order (o : order) (l : gmap string string) : Prop :=
  o l ≡ₚ map_to_list l.

Definition LabelsForCluster (clusterName : string) : gmap string string :=
  <["app" := "zookeeper"]> (<["zookeeper_cluster" := clusterName]> ∅).

(** The labels [NewZookeeperPod] gives the pod of a member. *)
Definition NewZookeeperPod_labels (m : Member) (clusterName : string)
    : gmap string string :=
  <["zookeeper_cluster" := clusterName]>
    (<["zookeeper_node" := Name m]> (<["app" := "zookeeper"]> ∅)).

(** [mergeLabels] updates [l1] in place; the model returns the updated
    map.  At its one call site [l1] is the allocated label map of the pod. *)
Definition mergeLabels (o : order) (l1 l2 : gmap string string) : gmap string string :=
  foldl (fun l1 kv => if decide (is_Some (l1 !! kv.1)) then l1 else <[kv.1 := kv.2]> l1)
    l1 (o l2).

(** Of [api.PodPolicy] the model keeps the labels, the annotations and the
    environment of the zookeeper container. *)
Record PodPolicy := mkPodPolicy {
  policy_Labels : gmap string string;
  policy_Annotations : gmap string string;
  ZookeeperEnv : list (string * string)
}.

(** [k == "app" || strings.HasPrefix(k, "zookeeper_")]. *)
Definition reserved_label (k : string) : bool :=
  bool_decide (k = "app") || String.prefix "zookeeper_" k.

(** The loop of [Validate] over the label keys: the first reserved key ends
    it with the error. *)
Fixpoint Validate_keys (keys : list string) : option error :=
  match keys with
  | [] => None
  | k :: keys' =>
      if reserved_label k
      then Some (ErrorString "spec: pod labels contains reserved label")
      else Validate_keys keys'
  end.

Definition Validate (o : order) (pod : option PodPolicy) : option error :=
  match pod with
  | None => None
  | Some policy => Validate_keys ((o (policy_Labels policy)).*1)
  end.

(** [applyPodPolicy] on the parts of the pod the model keeps: the
    environment of the zookeeper container gets the variables of the
    policy appended, and every annotation of the policy is written over
    the annotations of the pod. *)
Definition applyPodPolicy (o : order) (pod : Pod) (policy : option PodPolicy) : Pod :=
  match policy with
  | None => pod
  | Some policy =>
      mkPod (pod_Name pod) (pod_Namespace pod)
        (foldl (fun annotations kv => <[kv.1 := kv.2]> annotations)
           (Annotations pod) (o (policy_Annotations policy)))
        (ContainerEnv pod ++ ZookeeperEnv policy)
  end.



Definition defaultRepository : string := "blafrisch/zookeeper".
Definition DefaultZookeeperVersion : string := "3.5.3-beta".

(** [strings.TrimLeft(s, cutset)] for a cutset of one byte. *)
Fixpoint TrimLeft (s : string) (cutset : ascii) : string :=
  match s with
  | EmptyString => EmptyString
  | String a s' => if Ascii.eqb a cutset then TrimLeft s' cutset else s
  end.

(** [SetDefaults] on the spec; the pod policy of the model's spec is nil,
    so the anti-affinity default does not apply. *)
Definition SetDefaults (c : api.ClusterSpec) : api.ClusterSpec :=
  let Repository :=
    if Z.of_nat (String.length (api.Repository c)) =? 0
    then defaultRepository else api.Repository c in
  let Version :=
    if Z.of_nat (String.length (api.Version c)) =? 0
    then DefaultZookeeperVersion else api.Version c in
  api.mkClusterSpec (api.Size c) Repository (TrimLeft Version "v") (api.Paused c).

Definition ImageName (repo version : string) : string :=
  repo +:+ ":v" +:+ version.

(** A condition of the pod status: its type and its status. *)
Record PodCondition := mkPodCondition {
  condition_Type : string;
  condition_Status : string
}.

Fixpoint getPodReadyCondition (conditions : list PodCondition) : option PodCondition :=
  match conditions with
  | [] => None
  | c :: conditions' =>
      if bool_decide (condition_Type c = "Ready") then Some c
      else getPodReadyCondition conditions'
  end.

(** [IsPodReady], on the conditions of the status of the pod. *)
Definition IsPodReady (conditions : list PodCondition) : bool :=
  match getPodReadyCondition conditions with
  | Some condition => bool_decide (condition_Status condition = "True")
  | None => false
  end.

(** ** Concrete environments and clusters, for running the model *)

Definition listed_fair (ms : MemberSet) : fair listed ms :=
  Permutation_refl (map_to_list ms).

Definition reversed : traversal := fun ms => reverse (map_to_list ms).

Definition reversed_fair (ms : MemberSet) : fair reversed ms :=
  reverse_Permutation (map_to_list ms).

(** [zk.Connect] of the client library refuses an empty list of servers;
    the environments below connect to any other list. *)
Definition connect_to (hosts : list string) : option string :=
  match hosts with
  | [] => Some "zk: server list must not be empty"
  | _ => None
  end.

(** The API server answers pod deletions with [del] and accepts all other
    calls; the ensemble reports [payload] and accepts every reconfigure. *)
Definition scripted (del : option string) (payload : string) : Env :=
  {| pods_delete _ _ _ := del;
     pods_create _ _ := None;
     events_create _ _ _ := None;
     zk_connect _ hosts := connect_to hosts;
     zk_get _ _ := Data payload;
     zk_reconfig _ newMembers := Data payload;
     range _ := listed;
     range_fair _ := listed_fair |}.



Definition member_named (ns name : string) : Member := mkMember name ns.

Definition set_of (names : list string) : MemberSet :=
  NewMemberSet (member_named "default" <$> names).

Definition pod_at (version name : string) : Pod :=
  mkPod name "default" {[zookeeperVersionAnnotationKey := version]} [].

Definition status0 : api.ClusterStatus :=
  api.mkClusterStatus 0 "3.5.3" EmptyString false None None.

Definition cluster_of (size : Z) (names : list string) : State :=
  mkState
    (mkCluster "c" "default" (api.mkClusterSpec size "blafrisch/zookeeper" "3.5.3" false)
       (set_of names) status0)
    [] 0.

(** The payload of [/zookeeper/config] for the members [names]. *)
Definition payload_of (names : list string) : string :=
  match ClusterConfig listed (set_of names) with
  | Val l => Join (l ++ ["version=100000000"]) (String "010" EmptyString)
  | Panic _ => EmptyString
  end.

(** ** The vocabulary of the properties *)

(** The pod records the version [v]. *)
Definition at_version (v : string) (pod : Pod) : Prop := GetZookeeperVersion pod = v.

(** A name the pieces of a server line can be cut back from: it has a dash
    (so that the cluster name exists) and none of the separators [.], [:]
    and [;] of the line. *)
Definition plain_name (mn : string) : Prop :=
  occurs "-" mn = true
  ∧ occurs "." mn = false ∧ occurs ":" mn = false ∧ occurs ";" mn = false.

(** The bytes of a Kubernetes name, of a pod or of a namespace: lower-case
    letters, digits, [-] and [.]. *)
Definition name_byte (a : ascii) : bool :=
  let n := Z.of_N (N_of_ascii a) in
  ((97 <=? n) && (n <=? 122)) || ((48 <=? n) && (n <=? 57))
  || Ascii.eqb a "-" || Ascii.eqb a ".".

Definition kube_name (s : string) : Prop :=
  ∀ a, occurs a s = true → name_byte a = true.

(** Every way the operator builds a member set ([Add], [NewMemberSet],
    [podsToMemberSet], [updateMembers]) files a member under its name. *)
Definition keyed_by_name (ms : MemberSet) : Prop :=
  ∀ k m, ms !! k = Some m → Name m = k.

(** The member name [updateMembers] reads off a server line. *)
Definition name_of_config (ns line : string) : string :=
  match member_of_config ns line with
  | Val m => Name m
  | Panic _ => EmptyString
  end.




(** The pods created by a sequence of calls. *)
Definition created (cs : list call) : list Pod :=
  omap (fun c => match c with PodsCreate pod => Some pod | _ => None end) cs.

(** The names of the pods deleted by a sequence of calls. *)
Definition deleted (cs : list call) : list string :=
  omap (fun c => match c with PodsDelete n _ => Some n | _ => None end) cs.

(** A result other than the panic of [PickOne]. *)
Definition benign {A} (r : result A) : Prop :=
  match r with
  | Panic PanicEmpty => False
  | _ => True
  end.

(** [change lo hi d c s s']: from [s] to [s'] the identity and the spec of
    the cluster are kept, the size of the membership moves by an amount
    between [lo] and [hi], and the calls made delete at most [d] pods and
    create at most [c]. *)
Record change (lo hi : Z) (d c : nat) (s s' : State) : Prop := mk_change {
  change_Name : cluster_Name (this s') = cluster_Name (this s);
  change_Namespace : cluster_Namespace (this s') = cluster_Namespace (this s);
  change_Spec : Spec (this s') = Spec (this s);
  change_Size :
    lo ≤ Size (members (this s')) - Size (members (this s)) ≤ hi;
  change_calls :
    ∃ new, calls s' = calls s ++ new
           ∧ (length (deleted new) ≤ d)%nat ∧ (length (created new) ≤ c)%nat
}.



(** The computation [reconcileMembers] ends with when a member is dead. *)
Definition replace_dead `{Env} (dead : MemberSet) : M (option error) :=
  ρ ← next_range;
  toReplace ← liftR (PickOne ρ dead);
  replaceDeadMember toReplace.


(** The calls of the ensemble client. *)
Definition zk_call (c : call) : Prop :=
  match c with
  | ZkConnect _ | ZkGet _ | ZkReconfig _ => True
  | _ => False
  end.

(** [effect lo hi d c m s]: run from [s], [m] does not raise the panic of
    [PickOne] and changes the state within the given bounds. *)
Definition effect {A} (lo hi : Z) (d c : nat) (m : M A) (s : State) : Prop :=
  benign (m s).1 ∧ change lo hi d c s (m s).2.

(** The call that removes the pod of an unexpected member. *)
Definition prune_call (nm : string * Member) : call := PodsDelete (Name nm.2) true.

(** [pruned unknown s removed failed]: what the loop over the unknown
    members has done, from the state [s], by the time it is left.  The loop
    takes the unknown members in some order; [removed] are those whose pod it
    asked the API server to delete, in that order, and [rest] those it did not
    come to.  Each deletion but the last was answered without an error; the
    last one was answered with [failed].  With [failed = None] no deletion
    failed and every unknown member is in [removed]; with [failed = Some msg]
    the loop stopped at the first deletion that failed, with the error [msg]. *)
Definition pruned `{Env} (unknown : MemberSet) (s : State)
    (removed : list (string * Member)) (failed : option string) : Prop :=
  ∃ rest,
    removed ++ rest ≡ₚ map_to_list unknown
    ∧ (∀ before x after, removed = before ++ x :: after →
         pods_delete (calls s ++ (prune_call <$> before)) (Name x.2) true
         = match after with [] => failed | _ => None end)
    ∧ (failed = None → rest = [])
    ∧ (is_Some failed → removed ≠ []).

(** The value of a decimal numeral read after the digits worth [acc]. *)
Fixpoint uint_val (acc : Z) (d : Decimal.uint) : Z :=
  match d with
  | Decimal.Nil => acc
  | Decimal.D0 d => uint_val (10 * acc + 0) d
  | Decimal.D1 d => uint_val (10 * acc + 1) d
  | Decimal.D2 d => uint_val (10 * acc + 2) d
  | Decimal.D3 d => uint_val (10 * acc + 3) d
  | Decimal.D4 d => uint_val (10 * acc + 4) d
  | Decimal.D5 d => uint_val (10 * acc + 5) d
  | Decimal.D6 d => uint_val (10 * acc + 6) d
  | Decimal.D7 d => uint_val (10 * acc + 7) d
  | Decimal.D8 d => uint_val (10 * acc + 8) d
  | Decimal.D9 d => uint_val (10 * acc + 9) d
  end.

(** The cluster [c] with the member set [ms]. *)
Definition with_members (c : Cluster) (ms : MemberSet) : Cluster :=
  mkCluster (cluster_Name c) (cluster_Namespace c) (Spec c) ms (status c).

(** The cluster [c] with the status [st]. *)
Definition with_status (c : Cluster) (st : api.ClusterStatus) : Cluster :=
  mkCluster (cluster_Name c) (cluster_Namespace c) (Spec c) (members c) st.

(** Every name of the set has the dash that [clusterNameFromMemberName]
    asks for. *)
Definition dashed (ms : MemberSet) : Prop :=
  ∀ k m, ms !! k = Some m → occurs "-" (Name m) = true.

(** The member sets the operator builds: every member is filed under its
    name, and every name has its dash. *)
Definition sound (ms : MemberSet) : Prop := keyed_by_name ms ∧ dashed ms.

(** [returns_sound m s]: run from [s], [m] returns (it does not panic), in
    a state whose member set is sound. *)
Definition returns_sound {A} (m : M A) (s : State) : Prop :=
  ∃ r s', m s = (Val r, s') ∧ sound (members (this s'))
          ∧ Spec (this s') = Spec (this s).

(** [s] without the sign [+] that [strconv.Atoi] takes in front of the
    digits. *)
Definition unsigned (s : string) : string :=
  match s with
  | String a s' => if Ascii.eqb a "+" then s' else s
  | EmptyString => s
  end.

(** The ensemble can be connected to through every list of hosts that is
    not empty, whatever has been called before. *)
Definition connects `{Env} : Prop :=
  ∀ h hosts, hosts ≠ [] → zk_connect h hosts = None.

(** [ends_sound ok m s]: run from [s], [m] ends in a state whose member set
    is sound and whose spec is that of [s].  It returns, or it panics in the
    ensemble client, on the connection [zk.Connect] did not give: none of
    the panics of the operator's own code is raised.  When [ok] holds it
    returns. *)
Definition ends_sound {A} (ok : Prop) (m : M A) (s : State) : Prop :=
  ∃ r s', m s = (r, s')
          ∧ sound (members (this s'))
          ∧ Spec (this s') = Spec (this s)
          ∧ ((∃ v, r = Val v) ∨ r = Panic PanicClose)
          ∧ (ok → ∃ v, r = Val v).

(** * Properties *)

(** ** The model on small inputs *)

Example Split_ex : Split "a;b;;c" ";" = ["a"; "b"; EmptyString; "c"].
Proof. reflexivity. Qed.

Example LastIndex_ex :
  LastIndex "example-zookeeper-cluster-1" "-" = 25 ∧ LastIndex "abc" "-" = -1.
Proof. by vm_compute. Qed.

Example Atoi_ex :
  Atoi "42" = (42, true) ∧ Atoi "-7" = (-7, true) ∧ Atoi "x1" = (0, false)
  ∧ Atoi EmptyString = (0, false) ∧ Atoi "99999999999999999999" = (MaxInt, false).
Proof. by vm_compute. Qed.

Example Atoi_bounds_ex :
  Atoi "9223372036854775807" = (MaxInt, true)
  ∧ Atoi "9223372036854775808" = (MaxInt, false)
  ∧ Atoi "-9223372036854775808" = (MinInt, true)
  ∧ Atoi "18446744073709551615x" = (0, false)
  ∧ Atoi "18446744073709551616x" = (MaxInt, false)
  ∧ Atoi "+" = (0, false) ∧ Atoi "+5" = (5, true).
Proof. by vm_compute. Qed.

Example MaxMemberID_ex :
  MaxMemberID (set_of ["name-3"; "name-7"; "name-1"]) = 7.
Proof. by vm_compute. Qed.

Example newMember_ex :
  (newMember (cluster_of 3 ["c-3"; "c-7"; "c-1"])).1
  = Val (mkMember "c-8" "default").
Proof. by vm_compute. Qed.

Example ClusterConfig_ex :
  ClusterConfig listed (set_of ["c-2"; "c-1"]) =
  Val ["server.1=c-1.c.default.svc:2888:3888:participant;c-1.c.default.svc:2181";
       "server.2=c-2.c.default.svc:2888:3888:participant;c-2.c.default.svc:2181"].
Proof. by vm_compute. Qed.

Example needUpgrade_ex :
  needUpgrade [pod_at "3.5.3" "c-1"; pod_at "3.4.0" "c-2"; pod_at "3.5.3" "c-3"]
    (api.mkClusterSpec 3 "blafrisch/zookeeper" "3.5.3" false) = true
  ∧ pickOneOldMember [pod_at "3.5.3" "c-1"; pod_at "3.4.0" "c-2"; pod_at "3.5.3" "c-3"] "3.5.3"
    = Some (mkMember "c-2" "default").
Proof. by vm_compute. Qed.



(** ** The set algebra of member sets *)

Section MemberSetFacts.
Implicit Types ms other A B : MemberSet.

Lemma Diff_lookup_Some ms other k m :
  Diff ms other !! k = Some m ↔ ms !! k = Some m ∧ other !! k = None.
Proof. unfold Diff. by rewrite map_lookup_filter_Some. Qed.

Lemma Diff_lookup_None ms other k :
  Diff ms other !! k = None ↔ ms !! k = None ∨ is_Some (other !! k).
Proof.
  unfold Diff. rewrite map_lookup_filter_None. split.
  - intros [?|Hk]; [by left|].
    destruct (ms !! k) as [m|] eqn:Hm; [|by left].
    right. specialize (Hk m eq_refl). simpl in Hk.
    by destruct (other !! k).
  - intros [?|[x Hx]]; [by left|]. right. intros m _. simpl. congruence.
Qed.

Lemma Diff_subseteq ms other : Diff ms other ⊆ ms.
Proof. apply map_filter_subseteq. Qed.

Lemma Diff_self ms : Diff ms ms = ∅.
Proof.
  apply map_empty. intros k. apply Diff_lookup_None.
  destruct (ms !! k) eqn:?; eauto.
Qed.

Lemma Diff_Diff_back A B : Diff (Diff A B) A = ∅.
Proof.
  apply map_empty. intros k. apply Diff_lookup_None.
  destruct (A !! k) eqn:HA; [by right; eauto|].
  left. apply Diff_lookup_None. by left.
Qed.

Lemma Diff_empty_r ms : Diff ms ∅ = ms.
Proof.
  apply map_eq. intros k. destruct (ms !! k) as [m|] eqn:Hm.
  - by apply Diff_lookup_Some.
  - apply Diff_lookup_None. by left.
Qed.

Lemma dom_Diff ms other : dom (Diff ms other) = dom ms ∖ dom other.
Proof.
  apply set_eq. intros k.
  rewrite elem_of_difference, !elem_of_dom. split.
  - intros [m [Hm Ho]%Diff_lookup_Some]. split; [eauto|].
    rewrite Ho. by intros [??].
  - intros [[m Hm] Hn]. exists m. apply Diff_lookup_Some. split; [done|].
    destruct (other !! k) eqn:?; [|done]. exfalso. apply Hn. eauto.
Qed.

Lemma Size_nonneg ms : 0 ≤ Size ms.
Proof. unfold Size. lia. Qed.

Lemma Size_dom ms : Size ms = Z.of_nat (size (dom ms)).
Proof. unfold Size. by rewrite size_dom. Qed.

Lemma IsEqual_true A B :
  IsEqual A B = true ↔ Size A = Size B ∧ dom A = dom B.
Proof.
  unfold IsEqual. case_bool_decide as Hsz.
  - split; [done|]. intros [? _]. by destruct Hsz.
  - rewrite forallb_forall. split.
    + intros Hall. split; [done|].
      apply set_subseteq_size_eq.
      * intros k [m Hm]%elem_of_dom.
        specialize (Hall (k, m)). simpl in Hall.
        apply elem_of_dom. eapply bool_decide_eq_true_1, Hall.
        by apply list_elem_of_In, elem_of_map_to_list.
      * rewrite !Size_dom in Hsz. lia.
    + intros [_ Hdom] [k m] Hin%list_elem_of_In%elem_of_map_to_list. simpl.
      apply bool_decide_eq_true_2, elem_of_dom. rewrite <-Hdom.
      apply elem_of_dom. eauto.
Qed.

Lemma IsEqual_refl ms : IsEqual ms ms = true.
Proof. by apply IsEqual_true. Qed.

Lemma Size_empty_iff ms : Size ms = 0 ↔ ms = ∅.
Proof. unfold Size. rewrite <-map_size_empty_iff. lia. Qed.

Lemma Size_Add ms m : Size ms ≤ Size (Add ms m) ≤ Size ms + 1.
Proof.
  unfold Size, Add. destruct (ms !! Name m) eqn:Hm.
  - rewrite map_size_insert_Some by eauto. lia.
  - rewrite map_size_insert_None by done. lia.
Qed.

Lemma Size_Remove ms n : Size ms - 1 ≤ Size (Remove ms n) ≤ Size ms.
Proof.
  unfold Size, Remove. destruct (ms !! n) eqn:Hm.
  - assert (size ms ≠ 0%nat) by (by eapply map_size_ne_0_lookup_2).
    rewrite map_size_delete_Some by eauto. lia.
  - rewrite map_size_delete_None by done. lia.
Qed.

End MemberSetFacts.

(** C7.  For all member sets A and B: A.Diff(B).Diff(A) and A.Diff(A) are
    empty, A.IsEqual(A) holds, and A.IsEqual(B) holds exactly when A and B
    have the same cardinality and the same set of names (a member set is
    keyed by member name).  Equality looks at nothing but the names: sets
    with the same names as A and B compare like A and B. *)
Theorem MemberSet_Diff_IsEqual (A B : MemberSet) :
  Diff (Diff A B) A = ∅
  ∧ Diff A A = ∅
  ∧ IsEqual A A = true
  ∧ (IsEqual A B = true ↔ Size A = Size B ∧ dom A = dom B)
  ∧ (∀ A' B' : MemberSet,
       dom A' = dom A → dom B' = dom B → IsEqual A' B' = IsEqual A B).
Proof.
  split; [apply Diff_Diff_back|].
  split; [apply Diff_self|].
  split; [apply IsEqual_refl|].
  split; [apply IsEqual_true|].
  intros A' B' HA HB.
  assert (Hiff : IsEqual A' B' = true ↔ IsEqual A B = true).
  { rewrite !IsEqual_true, !Size_dom, HA, HB. done. }
  destruct (IsEqual A' B'), (IsEqual A B); try done.
  - symmetry. by apply Hiff.
  - by apply Hiff.
Qed.

(** ** The upgrade predicates *)

Lemma pickOneOldMember_None pods v :
  pickOneOldMember pods v = None ↔ Forall (at_version v) pods.
Proof.
  induction pods as [|pod pods IH]; simpl.
  - split; [constructor|done].
  - case_bool_decide as Hv.
    + rewrite IH. split; [by constructor|by inversion 1].
    + split; [done|]. by inversion 1.
Qed.

Lemma pickOneOldMember_Some pods v m :
  pickOneOldMember pods v = Some m ↔
  ∃ before pod after,
    pods = before ++ pod :: after
    ∧ Forall (at_version v) before
    ∧ GetZookeeperVersion pod ≠ v
    ∧ m = mkMember (pod_Name pod) (pod_Namespace pod).
Proof.
  induction pods as [|pod pods IH]; simpl.
  - split; [done|]. intros (before & ? & ? & Heq & _). by destruct before.
  - case_bool_decide as Hv.
    + rewrite IH. split.
      * intros (before & p & after & -> & Hb & Hp & ->).
        exists (pod :: before), p, after. split_and!; by try constructor.
      * intros (before & p & after & Heq & Hb & Hp & ->).
        destruct before as [|b before]; simplify_eq/=.
        inversion_clear Hb. by exists before, p, after.
    + split.
      * intros [= <-]. exists [], pod, pods. split_and!; by try constructor.
      * intros (before & p & after & Heq & Hb & Hp & ->).
        destruct before as [|b before]; simplify_eq/=; [done|].
        by inversion Hb.
Qed.

(** C8.  [needUpgrade] holds exactly when the number of pods is the size of
    the spec and some pod records a version other than the version of the
    spec; [pickOneOldMember] yields the member of the first pod, in listing
    order, whose recorded version differs from the target, and nothing
    when every pod is at the target version. *)
Theorem needUpgrade_pickOneOldMember_spec
    (pods : list Pod) (cs : api.ClusterSpec) (targetVersion : string) :
  (needUpgrade pods cs = true ↔
     Z.of_nat (length pods) = api.Size cs
     ∧ ∃ pod, pod ∈ pods ∧ GetZookeeperVersion pod ≠ api.Version cs)
  ∧ (∀ m, pickOneOldMember pods targetVersion = Some m ↔
       ∃ before pod after,
         pods = before ++ pod :: after
         ∧ Forall (at_version targetVersion) before
         ∧ GetZookeeperVersion pod ≠ targetVersion
         ∧ m = mkMember (pod_Name pod) (pod_Namespace pod))
  ∧ (pickOneOldMember pods targetVersion = None ↔
       Forall (at_version targetVersion) pods).
Proof.
  split; [|split; [apply pickOneOldMember_Some | apply pickOneOldMember_None]].
  unfold needUpgrade.
  rewrite andb_true_iff, !bool_decide_eq_true, pickOneOldMember_None.
  apply and_iff_compat_l. split.
  - intros Hn. apply not_Forall_Exists in Hn; [|intros ?; unfold at_version; apply _].
    apply Exists_exists in Hn as (pod & ? & ?). by exists pod.
  - intros (pod & Hin & Hne) Hall. rewrite Forall_forall in Hall.
    by apply Hne, Hall.
Qed.

(** ** Serialization and the order of traversal *)

Lemma mapR_cons_Val {A B} (f : A → result B) x l r :
  mapR f (x :: l) = Val r ↔
  ∃ y ys, f x = Val y ∧ mapR f l = Val ys ∧ r = y :: ys.
Proof.
  simpl. destruct (f x) as [y|p]; simpl.
  - destruct (mapR f l) as [ys|p]; simpl.
    + split; [intros [= <-]; eauto|]. by intros (? & ? & [= <-] & [= <-] & ->).
    + split; [done|]. by intros (? & ? & _ & ? & _).
  - split; [done|]. by intros (? & ? & ? & _).
Qed.

Lemma mapR_Permutation {A B} (f : A → result B) l1 l2 :
  l1 ≡ₚ l2 → ∀ r1, mapR f l1 = Val r1 → ∃ r2, mapR f l2 = Val r2 ∧ r1 ≡ₚ r2.
Proof.
  induction 1 as [|x l1 l2 _ IH|x y l|l1 l2 l3 _ IH1 _ IH2]; intros r1.
  - intros [= <-]. by exists [].
  - intros (y & ys & Hx & Hl & ->)%mapR_cons_Val.
    destruct (IH _ Hl) as (ys' & Hl' & Hp).
    exists (y :: ys'). split; [|by constructor].
    apply mapR_cons_Val. eauto.
  - intros (b & bs & Hy & (a & as_ & Hx & Hl & ->)%mapR_cons_Val & ->)%mapR_cons_Val.
    exists (a :: b :: as_). split; [|by constructor].
    apply mapR_cons_Val. exists a, (b :: as_). split_and!; try done.
    apply mapR_cons_Val. eauto.
  - intros H1. destruct (IH1 _ H1) as (r2 & H2 & Hp12).
    destruct (IH2 _ H2) as (r3 & H3 & Hp23).
    exists r3. split; [done|]. by etrans.
Qed.

Lemma mapR_Val_elem {A B} (f : A → result B) l r y :
  mapR f l = Val r → y ∈ r → ∃ x, x ∈ l ∧ f x = Val y.
Proof.
  revert r. induction l as [|x l IH]; intros r.
  - intros [= <-]. by intros ?%elem_of_nil.
  - intros (b & bs & Hx & Hl & ->)%mapR_cons_Val [->|Hin]%elem_of_cons.
    + exists x. split; [left|done].
    + destruct (IH _ Hl Hin) as (x' & ? & ?). exists x'. split; [by right|done].
Qed.

Lemma mapR_total {A B} (f : A → result B) l :
  (∀ x, x ∈ l → ∃ y, f x = Val y) → ∃ r, mapR f l = Val r.
Proof.
  induction l as [|x l IH]; intros Hf; [by exists []|].
  destruct (Hf x) as [y Hy]; [left|].
  destruct IH as [ys Hys]; [intros; apply Hf; by right|].
  exists (y :: ys). apply mapR_cons_Val. eauto.
Qed.

Lemma sort_Strings_Sorted l : Sorted String.le (sort_Strings l).
Proof. apply (Sorted_merge_sort String.le). Qed.

Lemma sort_Strings_Permutation l : sort_Strings l ≡ₚ l.
Proof. apply (merge_sort_Permutation String.le). Qed.

Lemma sort_Strings_proper l1 l2 : l1 ≡ₚ l2 → sort_Strings l1 = sort_Strings l2.
Proof.
  intros Hp. apply (Sorted_unique String.le); try apply sort_Strings_Sorted.
  by rewrite !sort_Strings_Permutation.
Qed.

Lemma ClusterConfig_Val ρ ms l :
  ClusterConfig ρ ms = Val l ↔
  ∃ lines, mapR (fun nm => server_line "participant" nm.2) (ρ ms) = Val lines
           ∧ l = sort_Strings lines.
Proof.
  unfold ClusterConfig.
  destruct (mapR _ (ρ ms)) as [lines|p]; simpl.
  - split; [intros [= <-]; eauto|]. by intros (? & [= <-] & ->).
  - split; [done|]. by intros (? & ? & _).
Qed.

(** C6, as the code has it. [ClusterConfig] returns a sorted list, and the
    same list whatever the order in which the member set is traversed:
    serializing the same set twice yields identical output. [ClientHostList]
    does not sort: it returns the hosts in the order of the traversal, so two
    traversals yield the same hosts up to their order. *)
Theorem ClusterConfig_sorted_ClientHostList_permuted
    (ms : MemberSet) (ρ1 ρ2 : traversal) :
  fair ρ1 ms → fair ρ2 ms →
  (∀ l, ClusterConfig ρ1 ms = Val l →
        Sorted String.le l ∧ ClusterConfig ρ2 ms = Val l)
  ∧ (∀ h1, ClientHostList ρ1 ms = Val h1 →
        ∃ h2, ClientHostList ρ2 ms = Val h2
              ∧ h1 ≡ₚ h2 ∧ sort_Strings h1 = sort_Strings h2).
Proof.
  unfold fair. intros F1 F2.
  assert (F12 : ρ1 ms ≡ₚ ρ2 ms) by (by rewrite F1, F2).
  split.
  - intros l (lines & Hl & ->)%ClusterConfig_Val.
    split; [apply sort_Strings_Sorted|].
    destruct (mapR_Permutation _ _ _ F12 _ Hl) as (lines' & Hl' & Hp).
    apply ClusterConfig_Val. exists lines'. split; [done|].
    by apply sort_Strings_proper.
  - unfold ClientHostList. intros h1 Hh1.
    destruct (mapR_Permutation _ _ _ F12 _ Hh1) as (h2 & Hh2 & Hp).
    exists h2. split_and!; try done. by apply sort_Strings_proper.
Qed.

(** The two traversals of a set of three members give one configuration. *)
Lemma ClusterConfig_sorted_ClientHostList_permuted_witness :
  let ms := set_of ["c-1"; "c-2"; "c-3"] in
  fair listed ms ∧ fair reversed ms
  ∧ ClusterConfig reversed ms = ClusterConfig listed ms.
Proof.
  intros ms.
  pose proof (ClusterConfig_sorted_ClientHostList_permuted ms listed reversed
                (listed_fair ms) (reversed_fair ms)) as [Hc _].
  split; [apply listed_fair|]. split; [apply reversed_fair|].
  destruct (ClusterConfig listed ms) as [l|p] eqn:Hl; [|by vm_compute in Hl].
  by destruct (Hc l eq_refl) as [_ ->].
Defined.

(** Against C6 as the specification words it: [ClientHostList] returns the
    hosts of the same set in two different orders under two traversals, one of
    them unsorted. *)
Lemma ClientHostList_not_sorted :
  let ms := set_of ["c-1"; "c-2"] in
  ClientHostList listed ms
    = Val ["c-1.c.default.svc:2181"; "c-2.c.default.svc:2181"]
  ∧ ClientHostList reversed ms
    = Val ["c-2.c.default.svc:2181"; "c-1.c.default.svc:2181"]
  ∧ ¬ Sorted String.le ["c-2.c.default.svc:2181"; "c-1.c.default.svc:2181"].
Proof.
  split; [by vm_compute|]. split; [by vm_compute|].
  intros Hs. apply Sorted_inv in Hs as [_ Hhd].
  apply HdRel_inv in Hhd. by vm_compute in Hhd.
Qed.

(** ** Strings: splitting and the bytes of a server line *)

Section StringFacts.
Implicit Types (s t a b : string) (c x : ascii).

Lemma app_cons x s t : String x s +:+ t = String x (s +:+ t).
Proof. reflexivity. Qed.

Lemma app_assoc_s s t u : (s +:+ t) +:+ u = s +:+ (t +:+ u).
Proof. induction s as [|x s IH]; [done|]. rewrite !app_cons. by f_equal. Qed.

Lemma occurs_app c a b : occurs c (a +:+ b) = occurs c a || occurs c b.
Proof.
  induction a as [|x a IH]; [done|]. rewrite app_cons. simpl.
  by destruct (Ascii.eqb x c).
Qed.

Lemma occurs_substring c s n m :
  occurs c s = false → occurs c (substring n m s) = false.
Proof.
  revert n m. induction s as [|x s IH]; intros n m Hs.
  - by destruct n, m.
  - simpl in Hs. destruct (Ascii.eqb x c) eqn:Hx; [done|].
    destruct n as [|n]; simpl.
    + destruct m as [|m]; [done|]. simpl. rewrite Hx. by apply IH.
    + by apply IH.
Qed.

Lemma Split_nonempty s c : Split s c ≠ [].
Proof.
  destruct s as [|x s]; simpl; [done|].
  destruct (Ascii.eqb x c); [done|]. by destruct (Split s c).
Qed.

Lemma Split_app c a b :
  occurs c a = false →
  Split (a +:+ b) c =
    match Split b c with
    | p :: ps => (a +:+ p) :: ps
    | [] => [a]
    end.
Proof.
  induction a as [|x a IH]; intros Ha.
  - change (EmptyString +:+ b) with b. pose proof (Split_nonempty b c).
    by destruct (Split b c).
  - simpl in Ha. destruct (Ascii.eqb x c) eqn:Hx; [done|].
    rewrite app_cons. simpl. rewrite Hx, (IH Ha).
    pose proof (Split_nonempty b c). by destruct (Split b c).
Qed.

Lemma Split_sep c b : Split (String c b) c = EmptyString :: Split b c.
Proof. simpl. by rewrite Ascii.eqb_refl. Qed.

Lemma Split_free c s : occurs c s = false → Split s c = [s].
Proof.
  induction s as [|x s IH]; [done|]. simpl.
  destruct (Ascii.eqb x c); [done|]. intros Hs. by rewrite (IH Hs).
Qed.

Lemma app_empty_r s : s +:+ EmptyString = s.
Proof. induction s as [|x s IH]; [done|]. rewrite app_cons. by f_equal. Qed.

(** Cutting at a separator: the piece before it, and the split of the rest. *)
Lemma Split_app_sep c a b :
  occurs c a = false → Split (a +:+ String c b) c = a :: Split b c.
Proof. intros Ha. by rewrite (Split_app _ _ _ Ha), Split_sep, app_empty_r. Qed.

Lemma occurs_cons c x s :
  occurs c (String x s) = if Ascii.eqb x c then true else occurs c s.
Proof. reflexivity. Qed.

Lemma occurs_uint c d :
  digit_val c = None → occurs c (NilEmpty.string_of_uint d) = false.
Proof.
  intros Hc. induction d as [|d IH|d IH|d IH|d IH|d IH|d IH|d IH|d IH|d IH|d IH];
    cbn [NilEmpty.string_of_uint]; [done|..]; rewrite occurs_cons, IH;
    match goal with
    | |- (if Ascii.eqb ?k c then _ else _) = _ =>
        destruct (Ascii.eqb_spec k c) as [<-|_]; [by vm_compute in Hc|done]
    end.
Qed.

Lemma occurs_Itoa c n :
  digit_val c = None → c ≠ "-"%char → occurs c (Itoa n) = false.
Proof.
  intros Hc Hm. unfold Itoa, NilZero.string_of_int.
  assert (Hu : ∀ d, occurs c (NilZero.string_of_uint d) = false).
  { intros d. unfold NilZero.string_of_uint. destruct d; try by apply occurs_uint.
    rewrite occurs_cons.
    destruct (Ascii.eqb_spec "0" c) as [<-|_]; [by vm_compute in Hc|done]. }
  destruct (Z.to_int n) as [d|d]; [apply Hu|].
  rewrite occurs_cons, Hu. by destruct (Ascii.eqb_spec "-" c) as [<-|_].
Qed.

End StringFacts.

Lemma LastIndex_occurs s c : LastIndex s c = -1 ↔ occurs c s = false.
Proof.
  assert (Hge : ∀ t, -1 ≤ LastIndex t c).
  { induction t as [|x t IH]; simpl; [done|].
    destruct (0 <=? LastIndex t c) eqn:?; [lia|]. by destruct (Ascii.eqb x c). }
  induction s as [|x s IH]; simpl; [done|].
  specialize (Hge s).
  destruct (0 <=? LastIndex s c) eqn:Hi.
  - apply Z.leb_le in Hi. destruct (Ascii.eqb x c).
    + split; [lia|done].
    + rewrite <-IH. lia.
  - apply Z.leb_gt in Hi. destruct (Ascii.eqb x c); [done|].
    rewrite <-IH. lia.
Qed.

Lemma Addr_plain m :
  occurs "-" (Name m) = true →
  ∃ cn, Addr m = Val (Name m +:+ "." +:+ cn +:+ "." +:+ Namespace m +:+ ".svc")
        ∧ ∀ c, occurs c (Name m) = false → occurs c cn = false.
Proof.
  intros Hd. unfold Addr, clusterNameFromMemberName.
  destruct (LastIndex (Name m) "-" =? -1) eqn:Hi.
  - apply Z.eqb_eq, LastIndex_occurs in Hi. congruence.
  - eexists. split; [done|]. intros c Hc. by apply occurs_substring.
Qed.

(** The line of a member with a plain name, cut at [;], [:] and [.], gives
    the name back. *)
Lemma member_of_config_server_line ns role m line :
  plain_name (Name m) →
  occurs ";" (Namespace m) = false →
  occurs ";" role = false →
  server_line role m = Val line →
  member_of_config ns line = Val (mkMember (Name m) ns).
Proof.
  intros (Hd & Hdot & Hcol & Hsemi) Hns Hrole.
  destruct (Addr_plain m Hd) as (cn & Ha & Hcn).
  unfold server_line. rewrite Ha. simpl. intros [= <-].
  set (a := Name m +:+ "." +:+ cn +:+ "." +:+ Namespace m +:+ ".svc").
  assert (Hfree : occurs ";" a = false).
  { unfold a. rewrite !occurs_app, Hsemi, (Hcn _ Hsemi), Hns. done. }
  unfold member_of_config.
  replace ("server." +:+ Itoa (ID m) +:+ "=" +:+ a +:+ ":2888:3888:" +:+ role
           +:+ ";" +:+ a +:+ ":2181")
    with (("server." +:+ Itoa (ID m) +:+ "=" +:+ a +:+ ":2888:3888:" +:+ role)
          +:+ String ";" (a +:+ ":2181"))
    by (by rewrite !app_assoc_s).
  rewrite Split_app_sep.
  2:{ rewrite !occurs_app, Hfree, Hrole, occurs_Itoa by done. done. }
  rewrite (Split_free ";" (a +:+ ":2181")) by (by rewrite occurs_app, Hfree).
  simpl. unfold a.
  set (rest := cn +:+ "." +:+ Namespace m +:+ ".svc" +:+ ":2181").
  replace ((Name m +:+ "." +:+ cn +:+ "." +:+ Namespace m +:+ ".svc") +:+ ":2181")
    with (Name m +:+ String "." rest)
    by (unfold rest; by rewrite !app_assoc_s).
  rewrite (Split_app ":" (Name m)) by done.
  pose proof (Split_nonempty rest ":") as Hne.
  cbn [Split]. change (Ascii.eqb "." ":") with false. cbv iota.
  destruct (Split rest ":") as [|p ps]; [done|].
  simpl. by rewrite Split_app_sep.
Qed.

(** ** Recovery: parsing the configuration back *)

Lemma mapR_Val_elem_l {A B} (f : A → result B) l r x :
  mapR f l = Val r → x ∈ l → ∃ y, y ∈ r ∧ f x = Val y.
Proof.
  revert r. induction l as [|x' l IH]; intros r.
  - intros _ ?%elem_of_nil. done.
  - intros (b & bs & Hx & Hl & ->)%mapR_cons_Val [->|Hin]%elem_of_cons.
    + exists b. split; [left|done].
    + destruct (IH _ Hl Hin) as (y & ? & ?). exists y. split; [by right|done].
Qed.

Lemma member_of_config_Namespace ns line m :
  member_of_config ns line = Val m → Namespace m = ns.
Proof.
  unfold member_of_config.
  destruct (at_ _ 1) as [s1|]; simpl; [|done].
  destruct (at_ _ 0) as [h|]; simpl; [|done].
  destruct (at_ _ 0) as [n|]; simpl; [|done].
  by intros [= <-].
Qed.

Lemma members_of_config_spec ns lines acc :
  (∀ line, line ∈ lines → ∃ m, member_of_config ns line = Val m) →
  ∃ rebuilt,
    members_of_config ns lines acc = Val rebuilt
    ∧ dom rebuilt = dom acc ∪ list_to_set (name_of_config ns <$> lines)
    ∧ ∀ k m, rebuilt !! k = Some m → acc !! k = Some m ∨ m = mkMember k ns.
Proof.
  revert acc. induction lines as [|line lines IH]; intros acc Hall.
  - exists acc. split; [done|]. split; [set_solver|]. by left.
  - destruct (Hall line) as [m0 Hm0]; [left|].
    destruct (IH (<[Name m0 := m0]> acc)) as (rebuilt & Hr & Hdom & Hval).
    { intros ??. apply Hall. by right. }
    exists rebuilt. split; [simpl; by rewrite Hm0|].
    split.
    + rewrite Hdom, dom_insert_L. simpl. unfold name_of_config at 2.
      rewrite Hm0. set_solver.
    + intros k m Hk. destruct (Hval k m Hk) as [Hacc| ->]; [|by right].
      apply lookup_insert_Some in Hacc as [[<- <-]|[Hne Hacc]]; [|by left].
      right. pose proof (member_of_config_Namespace _ _ _ Hm0).
      destruct m0. simpl in *. by subst.
Qed.

(** The names Kubernetes hands to the operator hold none of the separators
    [:] and [;] of a server line: with a dash and no dot they are plain. *)
Lemma kube_name_plain (mn : string) :
  kube_name mn → occurs "-" mn = true → occurs "." mn = false → plain_name mn.
Proof.
  intros Hk Hd Hdot.
  assert (Hc : occurs ":" mn = false).
  { destruct (occurs ":" mn) eqn:Ho; [|done]. by apply Hk in Ho. }
  assert (Hs : occurs ";" mn = false).
  { destruct (occurs ";" mn) eqn:Ho; [|done]. by apply Hk in Ho. }
  done.
Qed.

(** C10.  For a member set whose names are plain (a dash, and no [.], [:] or
    [;]) and whose namespaces hold no [;], the parsing of [updateMembers],
    applied to the lines of [ClusterConfig], returns a member set with
    exactly the names of the original; when the members are all in the
    namespace of the cluster it is the original set.  The names of pods and
    of namespaces are Kubernetes names, which hold neither [:] nor [;]
    ([kube_name_plain]): every name with a dash and no dot that the operator
    is given is plain. *)
Theorem ClusterConfig_updateMembers_round_trip
    (ρ : traversal) (ms : MemberSet) (ns : string) :
  fair ρ ms →
  keyed_by_name ms →
  (∀ k m, ms !! k = Some m →
          plain_name (Name m) ∧ occurs ";" (Namespace m) = false) →
  ∃ lines rebuilt,
    ClusterConfig ρ ms = Val lines
    ∧ members_of_config ns lines ∅ = Val rebuilt
    ∧ dom rebuilt = dom ms
    ∧ IsEqual rebuilt ms = true
    ∧ ((∀ k m, ms !! k = Some m → Namespace m = ns) → rebuilt = ms).
Proof.
  intros Hfair Hkey Hplain.
  assert (Hin : ∀ nm, nm ∈ ρ ms ↔ ms !! nm.1 = Some nm.2).
  { intros [k m]. unfold fair in Hfair. rewrite Hfair. apply elem_of_map_to_list. }
  destruct (mapR_total (fun nm => server_line "participant" nm.2) (ρ ms))
    as [raw Hraw].
  { intros nm Hnm%Hin. destruct (Hplain _ _ Hnm) as [(Hd & _) _].
    destruct (Addr_plain _ Hd) as (cn & Ha & _).
    unfold server_line. rewrite Ha. simpl. eauto. }
  assert (Hparse : ∀ line, line ∈ sort_Strings raw →
            ∃ nm, nm ∈ ρ ms
                  ∧ member_of_config ns line = Val (mkMember (Name nm.2) ns)).
  { intros line Hl. rewrite sort_Strings_Permutation in Hl.
    destruct (mapR_Val_elem _ _ _ _ Hraw Hl) as (nm & Hnm & Hline).
    exists nm. split; [done|].
    destruct (Hplain _ _ (proj1 (Hin nm) Hnm)) as [Hp Hn].
    exact (member_of_config_server_line ns "participant" _ _ Hp Hn eq_refl Hline). }
  destruct (members_of_config_spec ns (sort_Strings raw) ∅)
    as (rebuilt & Hr & Hdom & Hval).
  { intros line (nm & _ & ?)%Hparse. eauto. }
  assert (Hdom' : dom rebuilt = dom ms).
  { rewrite Hdom, dom_empty_L, (left_id_L ∅ (∪)).
    apply set_eq. intros k. rewrite elem_of_list_to_set, list_elem_of_fmap.
    rewrite elem_of_dom. split.
    - intros (line & -> & (nm & Hnm & Hline)%Hparse).
      unfold name_of_config. rewrite Hline. simpl.
      apply Hin in Hnm. rewrite (Hkey _ _ Hnm). eauto.
    - intros [m Hm].
      assert (Hnm : (k, m) ∈ ρ ms) by (by apply Hin).
      destruct (mapR_Val_elem_l _ _ _ _ Hraw Hnm) as (line & Hl & Hline).
      exists line. rewrite sort_Strings_Permutation. split; [|done].
      destruct (Hplain _ _ Hm) as [Hp Hn].
      unfold name_of_config.
      rewrite (member_of_config_server_line ns "participant" _ _ Hp Hn eq_refl Hline).
      simpl. symmetry. by apply Hkey. }
  exists (sort_Strings raw), rebuilt.
  split; [apply ClusterConfig_Val; eauto|].
  split; [done|]. split; [done|].
  split; [apply IsEqual_true; by rewrite !Size_dom, Hdom'|].
  intros Hns. apply map_eq. intros k.
  destruct (rebuilt !! k) as [m|] eqn:Hk.
  - destruct (Hval _ _ Hk) as [?| ->]; [done|].
    assert (is_Some (ms !! k)) as [m' Hm'].
    { apply elem_of_dom. rewrite <-Hdom'. apply elem_of_dom. eauto. }
    rewrite Hm'. f_equal. destruct m'.
    pose proof (Hkey _ _ Hm'). pose proof (Hns _ _ Hm'). simpl in *. by subst.
  - symmetry. apply not_elem_of_dom. rewrite <-Hdom'. by apply not_elem_of_dom.
Qed.

(** The round trip on a set of three members. *)
Lemma ClusterConfig_updateMembers_round_trip_witness :
  let ms := set_of ["c-1"; "c-2"; "c-3"] in
  ∃ lines rebuilt,
    ClusterConfig listed ms = Val lines
    ∧ members_of_config "default" lines ∅ = Val rebuilt
    ∧ dom rebuilt = dom ms
    ∧ IsEqual rebuilt ms = true
    ∧ ((∀ k m, ms !! k = Some m → Namespace m = "default") → rebuilt = ms).
Proof.
  intros ms.
  apply (ClusterConfig_updateMembers_round_trip listed ms "default").
  - apply listed_fair.
  - intros k m Hk.
    apply elem_of_map_to_list in Hk. vm_compute in Hk.
    repeat (apply elem_of_cons in Hk as [Hk|Hk]; [by simplify_eq|]).
    by apply elem_of_nil in Hk.
  - intros k m Hk.
    apply elem_of_map_to_list in Hk. vm_compute in Hk.
    repeat (apply elem_of_cons in Hk as [Hk|Hk]; [by simplify_eq|]).
    by apply elem_of_nil in Hk.
Defined.

(** ** Roles in server lines *)





(** ** Running the engine *)

Lemma change_refl s : change 0 0 0 0 s s.
Proof.
  split; try done; [lia|]. exists []. by rewrite app_nil_r.
Qed.

Lemma change_trans lo1 hi1 d1 c1 lo2 hi2 d2 c2 s1 s2 s3 :
  change lo1 hi1 d1 c1 s1 s2 → change lo2 hi2 d2 c2 s2 s3 →
  change (lo1 + lo2) (hi1 + hi2) (d1 + d2) (c1 + c2) s1 s3.
Proof.
  intros [N1 M1 S1 Z1 (n1 & C1 & D1 & K1)] [N2 M2 S2 Z2 (n2 & C2 & D2 & K2)].
  split; try congruence; [lia|].
  exists (n1 ++ n2). rewrite C2, C1, app_assoc. split; [done|].
  unfold deleted, created in *. rewrite !omap_app, !length_app. lia.
Qed.

Lemma change_weaken lo hi d c lo' hi' d' c' s s' :
  change lo hi d c s s' →
  lo' ≤ lo → hi ≤ hi' → (d ≤ d')%nat → (c ≤ c')%nat →
  change lo' hi' d' c' s s'.
Proof.
  intros [N1 M1 S1 Z1 (n1 & C1 & D1 & K1)] ????.
  split; try done; [lia|]. exists n1. split; [done|]. lia.
Qed.

Lemma run_bind {A B} (m : M A) (f : A → M B) s :
  (m ≫= f) s =
    match m s with
    | (Val a, s') => f a s'
    | (Panic p, s') => (Panic p, s')
    end.
Proof. reflexivity. Qed.

Section EngineFacts.
Context `{Env}.

Lemma run_ret {A} (a : A) s : mret (M := M) a s = (Val a, s).
Proof. reflexivity. Qed.

Lemma run_get s : get s = (Val (this s), s).
Proof. reflexivity. Qed.

Lemma run_liftR {A} (r : result A) s : liftR r s = (r, s).
Proof. reflexivity. Qed.

Lemma run_set_members ms s :
  set_members ms s =
    (Val (), mkState (mkCluster (cluster_Name (this s)) (cluster_Namespace (this s))
                        (Spec (this s)) ms (status (this s)))
               (calls s) (ranges s)).
Proof. reflexivity. Qed.

Lemma run_set_status st s :
  set_status st s =
    (Val (), mkState (mkCluster (cluster_Name (this s)) (cluster_Namespace (this s))
                        (Spec (this s)) (members (this s)) st)
               (calls s) (ranges s)).
Proof. reflexivity. Qed.

Lemma run_next_range s :
  next_range s = (Val (range (ranges s)), mkState (this s) (calls s) (S (ranges s))).
Proof. reflexivity. Qed.

Lemma run_invoke {A} (c : call) (answer : list call → A) s :
  invoke c answer s = (Val (answer (calls s)), mkState (this s) (calls s ++ [c]) (ranges s)).
Proof. reflexivity. Qed.

Ltac run :=
  repeat (progress (
    rewrite ?run_bind, ?run_ret, ?run_get, ?run_liftR, ?run_set_members,
      ?run_set_status, ?run_next_range, ?run_invoke;
    cbn [this calls ranges members status Spec cluster_Name cluster_Namespace
         fst snd fmap option_fmap option_map])).

Lemma server_line_benign role m : benign (server_line role m).
Proof.
  unfold server_line, Addr, clusterNameFromMemberName.
  by destruct (_ =? _).
Qed.

Lemma mapR_benign {A B} (f : A → result B) l :
  (∀ x, benign (f x)) → benign (mapR f l).
Proof.
  intros Hf. induction l as [|x l IH]; [done|].
  specialize (Hf x). cbn.
  destruct (f x); cbn; [|done]. by destruct (mapR f l).
Qed.

Lemma ClusterConfig_benign ρ ms : benign (ClusterConfig ρ ms).
Proof.
  unfold ClusterConfig.
  pose proof (mapR_benign (fun nm : string * Member => server_line "participant" nm.2) (ρ ms)
                (fun nm => server_line_benign _ _)) as Hb.
  by destruct (mapR _ _).
Qed.

Lemma ClientHostList_benign ρ ms : benign (ClientHostList ρ ms).
Proof.
  apply mapR_benign. intros nm. unfold client_host, Addr, clusterNameFromMemberName.
  by destruct (_ =? _).
Qed.

Lemma NewZookeeperPod_benign m e cn st cs : benign (NewZookeeperPod m e cn st cs).
Proof.
  unfold NewZookeeperPod.
  destruct (_ || _).
  - pose proof (server_line_benign "participant" m) as Hb.
    by destruct (server_line _ m).
  - pose proof (server_line_benign "observer" m) as Hb.
    by destruct (server_line _ m).
Qed.

(** A call of the ensemble client leaves the cluster alone and calls
    nothing but the ensemble; it returns, or it panics on the nil connection
    of a failed connect. *)
Lemma GetClusterConfig_run hosts s :
  ∃ r new,
    GetClusterConfig hosts s = (r, mkState (this s) (calls s ++ new) (ranges s))
    ∧ Forall zk_call new
    ∧ match r with
      | Val _ => zk_connect (calls s) hosts = None
      | Panic p => p = PanicClose ∧ zk_connect (calls s) hosts ≠ None
      end.
Proof.
  unfold GetClusterConfig. run.
  destruct (zk_connect (calls s) hosts) as [msg|]; run.
  - eexists _, [_]. split; [done|]. split; [by repeat constructor|done].
  - destruct (zk_get _ _); run; eexists _, [_; _];
      (split; [by rewrite <-app_assoc|split; [by repeat constructor|done]]).
Qed.

Lemma ReconfigureCluster_run hosts cfg s :
  ∃ r new,
    ReconfigureCluster hosts cfg s = (r, mkState (this s) (calls s ++ new) (ranges s))
    ∧ Forall zk_call new
    ∧ match r with
      | Val _ => zk_connect (calls s) hosts = None
      | Panic p => p = PanicClose ∧ zk_connect (calls s) hosts ≠ None
      end.
Proof.
  unfold ReconfigureCluster. run.
  destruct (zk_connect (calls s) hosts) as [msg|]; run.
  - eexists _, [_]. split; [done|]. split; [by repeat constructor|done].
  - destruct (zk_reconfig _ _); run; eexists _, [_; _];
      (split; [by rewrite <-app_assoc|split; [by repeat constructor|done]]).
Qed.

Lemma zk_calls_quiet new :
  Forall zk_call new → deleted new = [] ∧ created new = [].
Proof.
  induction 1 as [|c new Hc _ [IHd IHc]]; [done|].
  destruct c; try done; by simpl.
Qed.

Lemma removePod_run name w s :
  removePod name w s =
    (Val (ErrorString <$> pods_delete (calls s) name w),
     mkState (this s) (calls s ++ [PodsDelete name w]) (ranges s)).
Proof. unfold removePod. by run. Qed.

Lemma eventsCli_Create_run reason member s :
  eventsCli_Create reason member s =
    (Val (ErrorString <$> events_create (calls s) reason member),
     mkState (this s) (calls s ++ [EventsCreate reason member]) (ranges s)).
Proof. unfold eventsCli_Create. by run. Qed.

(** [change] between [s] and a state written out from [s]. *)
Ltac count_calls :=
  cbn [deleted created omap list_omap app length]; lia.

Ltac change_now :=
  split;
  cbn [this calls ranges members status Spec cluster_Name cluster_Namespace];
  [done | done | done
  | try lia
  | first
      [ exists []; split; [by rewrite app_nil_r | count_calls]
      | eexists; split; [reflexivity | count_calls]
      | eexists; split; [rewrite <-!app_assoc; reflexivity | count_calls] ] ].

Lemma createPod_effect existing m state s :
  effect 0 0 0 1 (createPod existing m state) s.
Proof.
  unfold effect, createPod. run.
  pose proof (NewZookeeperPod_benign m existing (cluster_Name (this s)) state (Spec (this s))) as Hb.
  destruct (NewZookeeperPod _ _ _ _ _) as [pod|p]; run.
  - split; [done|]. change_now.
  - split; [done|]. change_now.
Qed.

(** [from_here lo hi d c H]: [H] is a change from a state written out from
    the state [s]; the written-out step is within the given
    bounds, and the two are chained. *)
Tactic Notation "from_here" constr(s) constr(lo) constr(hi) constr(d) constr(c)
    "then" hyp(H) :=
  match type of H with
  | change _ _ _ _ ?s1 _ =>
      let H1 := fresh in
      assert (H1 : change lo hi d c s s1) by change_now;
      let H2 := fresh in
      pose proof (change_trans _ _ _ _ _ _ _ _ _ _ _ H1 H) as H2;
      clear H1 H; rename H2 into H
  end.

(** Closes a goal whose final state is the one [H] ends in. *)
Ltac arrive H := eapply change_weaken; [exact H | lia..].

(** Closes a goal whose final state is written out from the one [H] ends
    in, without a change of the membership or a pod call. *)
Ltac arrive_after H :=
  match goal with
  | |- change _ _ _ _ _ ?f =>
      match type of H with
      | change _ _ _ _ _ ?s2 =>
          let H3 := fresh "Hop" in
          assert (H3 : change 0 0 0 0 s2 f) by change_now;
          arrive (change_trans _ _ _ _ _ _ _ _ _ _ _ H H3)
      end
  end.

(** Runs the call [f] at the head of the goal with its effect lemma [L]. *)
Tactic Notation "call" constr(f) "by" constr(L) :=
  match goal with
  | |- context [f ?s1] =>
      let Hb := fresh "Hb" in
      let Hc := fresh "Hc" in
      destruct (L s1) as [Hb Hc];
      let r := fresh "r" in
      let s2 := fresh "s" in
      destruct (f s1) as [r s2]; cbn [fst snd] in Hb, Hc |- *
  end.

Lemma addMember_effect toAdd state s :
  effect 0 1 0 1 (addMember toAdd state) s.
Proof.
  unfold effect, addMember. run.
  pose proof (ClusterConfig_benign (range (ranges s)) (members (this s))) as Hb.
  destruct (ClusterConfig _ _) as [existing|p]; run; [|split; [done|change_now]].
  pose proof (Size_Add (members (this s)) toAdd) as Hsz.
  call (createPod existing toAdd state) by (createPod_effect existing toAdd state).
  from_here s 0 1 0%nat 0%nat then Hc.
  destruct r as [[e|]|p]; run; try rewrite eventsCli_Create_run; run.
  - split; [done|]. arrive Hc.
  - split; [done|]. arrive_after Hc.
  - split; [done|]. arrive Hc.
Qed.

Lemma removeMember_effect toRemove isScalingEvent s :
  effect (-1) 0 1 0 (removeMember toRemove isScalingEvent) s.
Proof.
  unfold effect, removeMember. run.
  pose proof (Size_Remove (members (this s)) (Name toRemove)) as Hsz.
  destruct isScalingEvent; run.
  - pose proof (ClientHostList_benign (range (ranges s))
                  (Remove (members (this s)) (Name toRemove))) as Hb1.
    destruct (ClientHostList _ _) as [hosts|p]; run; [|split; [done|change_now]].
    pose proof (ClusterConfig_benign (range (S (ranges s)))
                  (Remove (members (this s)) (Name toRemove))) as Hb2.
    destruct (ClusterConfig _ _) as [config|p]; run; [|split; [done|change_now]].
    match goal with
    | |- context [ReconfigureCluster hosts config ?s1] =>
        destruct (ReconfigureCluster_run hosts config s1) as (r & new & -> & Hzk & Hr)
    end.
    destruct (zk_calls_quiet _ Hzk) as [Hd Hk].
    destruct r as [v|p]; run; [|destruct Hr as [-> _]].
    2:{ split; [done|].
      split; cbn [this calls ranges members status Spec cluster_Name cluster_Namespace];
        [done|done|done|lia|].
      exists new. split; [done|]. rewrite Hd, Hk. simpl. lia. }
    rewrite eventsCli_Create_run. run. rewrite removePod_run. run.
    assert (change (-1) 0 1 0 s
              (mkState (mkCluster (cluster_Name (this s)) (cluster_Namespace (this s))
                          (Spec (this s)) (Remove (members (this s)) (Name toRemove))
                          (status (this s)))
                 (((calls s ++ new) ++ [EventsCreate "Member Removed" (Name toRemove)])
                  ++ [PodsDelete (Name toRemove) true]) (S (S (ranges s))))).
    { split; cbn [this calls ranges members status Spec cluster_Name cluster_Namespace];
        [done|done|done|lia|].
      exists (new ++ [EventsCreate "Member Removed" (Name toRemove);
                      PodsDelete (Name toRemove) true]).
      split; [by rewrite <-!app_assoc|].
      unfold deleted, created in *. rewrite !omap_app, Hd, Hk. simpl. lia. }
    by destruct (pods_delete _ _ _); run.
  - rewrite eventsCli_Create_run. run. rewrite removePod_run. run.
    destruct (pods_delete _ _ _); run; (split; [done|change_now]).
Qed.

Lemma replaceDeadMember_effect toReplace s :
  effect (-1) 1 1 1 (replaceDeadMember toReplace) s.
Proof.
  unfold effect, replaceDeadMember. run. rewrite eventsCli_Create_run. run.
  call (removeMember toReplace false) by (removeMember_effect toReplace false).
  from_here s 0 0 0%nat 0%nat then Hc.
  destruct r as [[e|]|p]; run; [split; [done|arrive Hc]| |split; [done|arrive Hc]].
  call (addMember toReplace "replacement") by (addMember_effect toReplace "replacement").
  split; [by destruct r|].
  destruct r; arrive (change_trans _ _ _ _ _ _ _ _ _ _ _ Hc Hc0).
Qed.

Lemma upgradeOneMember_effect name s :
  effect (-1) 1 1 1 (upgradeOneMember name) s.
Proof.
  unfold effect, upgradeOneMember. run.
  call (removeMember (mkMember name (cluster_Namespace (this s))) true)
    by (removeMember_effect (mkMember name (cluster_Namespace (this s))) true).
  destruct r as [[e|]|p]; run; [split; [done|arrive Hc]| |split; [done|arrive Hc]].
  call (addMember (mkMember name (cluster_Namespace (this s))) "replacement")
    by (addMember_effect (mkMember name (cluster_Namespace (this s))) "replacement").
  split; [by destruct r|].
  destruct r; arrive (change_trans _ _ _ _ _ _ _ _ _ _ _ Hc Hc0).
Qed.

Lemma addOneMember_effect s : effect 0 1 0 1 addOneMember s.
Proof.
  unfold effect, addOneMember, newMember. run.
  match goal with
  | |- context [addMember ?m "new" ?s1] =>
      destruct (addMember_effect m "new" s1) as [Hb Hc];
      destruct (addMember m "new" s1) as [r s2]
  end; cbn [fst snd] in *.
  from_here s 0 0 0%nat 0%nat then Hc.
  split; [done|]. arrive Hc.
Qed.

Lemma PickOne_Val ρ ms :
  fair ρ ms → ms ≠ ∅ → ∃ k m, PickOne ρ ms = Val m ∧ ms !! k = Some m.
Proof.
  unfold fair, PickOne. intros Hf Hne.
  destruct (ρ ms) as [|[k m] l] eqn:Hl.
  - apply Permutation_nil_l in Hf. symmetry in Hf.
    by apply map_to_list_empty_iff in Hf.
  - exists k, m. split; [done|]. apply elem_of_map_to_list. rewrite <-Hf. left.
Qed.

Lemma PickOne_Panic ρ ms :
  fair ρ ms → (PickOne ρ ms = Panic PanicEmpty ↔ ms = ∅).
Proof.
  intros Hf. split.
  - intros Hp. destruct (decide (ms = ∅)) as [|Hne]; [done|].
    destruct (PickOne_Val _ _ Hf Hne) as (? & ? & ? & _). congruence.
  - intros ->. unfold fair, PickOne in *. rewrite map_to_list_empty in Hf.
    by apply Permutation_nil_r in Hf as ->.
Qed.

Lemma removeOneMember_effect s :
  (members (this s) ≠ ∅ → benign (removeOneMember s).1)
  ∧ change (-1) 0 1 0 s (removeOneMember s).2.
Proof.
  unfold removeOneMember. run.
  pose proof (PickOne_Panic (range (ranges s)) (members (this s)) (range_fair _ _)) as Hp.
  destruct (PickOne _ _) as [m|p] eqn:Hpick; run.
  - match goal with
    | |- context [removeMember m true ?s1] =>
        destruct (removeMember_effect m true s1) as [Hb Hc];
        destruct (removeMember m true s1) as [r s2]
    end; cbn [fst snd] in *.
    from_here s 0 0 0%nat 0%nat then Hc.
    split; [done|]. arrive Hc.
  - split; [|change_now]. intros Hne. destruct p; try done.
    by apply Hne, Hp.
Qed.

Lemma resize_effect s :
  (1 ≤ api.Size (Spec (this s)) → benign (resize s).1)
  ∧ change (if Size (members (this s)) <=? api.Size (Spec (this s)) then 0 else -1)
           (if api.Size (Spec (this s)) <=? Size (members (this s)) then 0 else 1)
           1 1 s (resize s).2.
Proof.
  unfold resize. run.
  destruct (Size (members (this s)) =? api.Size (Spec (this s))) eqn:Heq.
  - apply Z.eqb_eq in Heq. run. split; [done|].
    rewrite Heq, Z.leb_refl. change_now.
  - apply Z.eqb_neq in Heq.
    destruct (Size (members (this s)) <? api.Size (Spec (this s))) eqn:Hlt.
    + apply Z.ltb_lt in Hlt. destruct (addOneMember_effect s) as [Hb Hc].
      split; [done|]. case_match; [|lia]. case_match; [lia|]. arrive Hc.
    + apply Z.ltb_ge in Hlt. destruct (removeOneMember_effect s) as [Hb Hc].
      split.
      * intros Hsz. apply Hb. intros Hempty%Size_empty_iff. lia.
      * case_match; [lia|]. case_match; [|lia]. arrive Hc.
Qed.

Lemma remove_unexpected_run l s :
  ∃ r k,
    remove_unexpected l s
      = (Val r, mkState (this s) (calls s ++ (prune_call <$> take k l)) (ranges s))
    ∧ match r with
      | None => True
      | Some e => (0 < k)%nat ∧ ∃ msg, e = ErrorString msg
      end.
Proof.
  revert s. induction l as [|nm l IH]; intros s.
  - exists None, 0%nat. cbn [remove_unexpected]. run.
    split; [|done]. by rewrite app_nil_r; destruct s.
  - cbn [remove_unexpected]. run. rewrite removePod_run. run.
    destruct (pods_delete _ _ _) as [msg|]; run.
    + exists (Some (ErrorString msg)), 1%nat. split; [done|]. split; [lia|eauto].
    + destruct (IH (mkState (this s) (calls s ++ [PodsDelete (Name nm.2) true]) (ranges s)))
        as (r & k & -> & Hr).
      exists r, (S k). cbn [this calls ranges].
      split; [by rewrite <-app_assoc|].
      destruct r as [e|]; [|done]. destruct Hr as [_ ?]. split; [lia|done].
Qed.

(** The loop over the unknown members, in full: which pods it asked to
    delete, and how each deletion was answered. *)
Lemma remove_unexpected_pruned l s :
  ∃ removed rest failed,
    l = removed ++ rest
    ∧ remove_unexpected l s
      = (Val (ErrorString <$> failed),
         mkState (this s) (calls s ++ (prune_call <$> removed)) (ranges s))
    ∧ (∀ before x after, removed = before ++ x :: after →
         pods_delete (calls s ++ (prune_call <$> before)) (Name x.2) true
         = match after with [] => failed | _ => None end)
    ∧ (failed = None → rest = [])
    ∧ (is_Some failed → removed ≠ []).
Proof.
  revert s. induction l as [|nm l IH]; intros s.
  - exists [], [], None. cbn [remove_unexpected]. run.
    split; [done|]. split; [simpl; rewrite app_nil_r; by destruct s|].
    split; [|split; [done|by intros [? ?]]].
    intros before x after Heq. by destruct before.
  - cbn [remove_unexpected]. run. rewrite removePod_run. run.
    destruct (pods_delete (calls s) (Name nm.2) true) as [msg|] eqn:Hdel; run.
    + exists [nm], l, (Some msg).
      split; [done|]. split; [done|]. split; [|split; [done|done]].
      intros before x after Heq. destruct before as [|b before].
      * injection Heq as <- <-. simpl. by rewrite app_nil_r.
      * injection Heq as _ Heq. by destruct before.
    + destruct (IH (mkState (this s) (calls s ++ [PodsDelete (Name nm.2) true]) (ranges s)))
        as (removed & rest & failed & -> & -> & Hans & Hall & Hsome).
      cbn [this calls ranges] in *.
      exists (nm :: removed), rest, failed.
      split; [done|]. split; [cbn [fmap list_fmap]; by rewrite <-app_assoc|].
      split; [|split; [done|done]].
      * intros before x after Heq. destruct before as [|b before].
        -- injection Heq as <- <-. simpl. rewrite app_nil_r, Hdel.
           destruct removed as [|a removed]; [|done].
           destruct failed as [msg|]; [|done]. by destruct Hsome.
        -- injection Heq as <- Heq. rewrite <-(Hans _ _ _ Heq).
           cbn [fmap list_fmap]. by rewrite <-app_assoc.
Qed.

Lemma dom_running_known (running ms : MemberSet) :
  dom (Diff running (Diff running ms)) = dom running ∩ dom ms.
Proof.
  rewrite !dom_Diff. apply set_eq. intros k.
  rewrite elem_of_intersection, !elem_of_difference.
  destruct (decide (k ∈ dom ms)); naive_solver.
Qed.

Lemma dead_member_exists (running ms : MemberSet) :
  let L := Diff running (Diff running ms) in
  Size L ≠ Size ms → Diff ms L ≠ ∅.
Proof.
  intros L Hne Hempty. apply Hne. rewrite !Size_dom. f_equal. f_equal.
  assert (Hd : dom ms ∖ dom L = ∅) by (by rewrite <-dom_Diff, Hempty, dom_empty_L).
  unfold L in *. rewrite dom_running_known in *.
  apply set_eq. intros k. rewrite elem_of_intersection. split; [naive_solver|].
  intros Hk. destruct (decide (k ∈ dom running)) as [|Hn]; [done|].
  assert (k ∈ dom ms ∖ (dom running ∩ dom ms)) as Hin by set_solver.
  rewrite Hd in Hin. by apply not_elem_of_empty in Hin.
Qed.

(** The pass of [reconcileMembers], case by case: the pods of the unknown
    members are pruned, and unless a removal failed the pass goes on, from
    the state [s1] reached by then, to exactly one of resize, lost quorum
    and the replacement of a dead member. *)
Lemma reconcileMembers_cases running s :
  let ms := members (this s) in
  let unknown := Diff running ms in
  let L := Diff running unknown in
  ∃ removed failed n,
    pruned unknown s removed failed
    ∧ (unknown = ∅ → removed = [] ∧ n = ranges s)
    ∧ let s1 := mkState (this s) (calls s ++ (prune_call <$> removed)) n in
      match failed with
      | Some msg =>
          reconcileMembers running s = (Val (Some (ErrorString msg)), s1)
      | None =>
          (Size L = Size ms ∧ reconcileMembers running s = resize s1)
          ∨ (Size L ≠ Size ms ∧ Size L < Size ms ÷ 2 + 1
             ∧ reconcileMembers running s = (Val (Some ErrLostQuorum), s1))
          ∨ (Size L ≠ Size ms ∧ Size ms ÷ 2 + 1 ≤ Size L
             ∧ reconcileMembers running s =
                 (ρ ← next_range;
                  toReplace ← liftR (PickOne ρ (Diff ms L));
                  replaceDeadMember toReplace) s1)
      end.
Proof.
  intros ms unknown L. unfold reconcileMembers. run. fold ms unknown L.
  assert (Hrest : ∀ s1, this s1 = this s →
    (Size L = Size ms ∧
       (if Size L =? Size ms then resize
        else if Size L <? Size ms ÷ 2 + 1 then mret (Some ErrLostQuorum)
        else ρ ← next_range; toReplace ← liftR (PickOne ρ (Diff ms L));
             replaceDeadMember toReplace) s1 = resize s1)
    ∨ (Size L ≠ Size ms ∧ Size L < Size ms ÷ 2 + 1 ∧
       (if Size L =? Size ms then resize
        else if Size L <? Size ms ÷ 2 + 1 then mret (Some ErrLostQuorum)
        else ρ ← next_range; toReplace ← liftR (PickOne ρ (Diff ms L));
             replaceDeadMember toReplace) s1 = (Val (Some ErrLostQuorum), s1))
    ∨ (Size L ≠ Size ms ∧ Size ms ÷ 2 + 1 ≤ Size L ∧
       (if Size L =? Size ms then resize
        else if Size L <? Size ms ÷ 2 + 1 then mret (Some ErrLostQuorum)
        else ρ ← next_range; toReplace ← liftR (PickOne ρ (Diff ms L));
             replaceDeadMember toReplace) s1 =
       (ρ ← next_range; toReplace ← liftR (PickOne ρ (Diff ms L));
        replaceDeadMember toReplace) s1)).
  { intros s1 _. destruct (Size L =? Size ms) eqn:Heq.
    - left. by apply Z.eqb_eq in Heq.
    - apply Z.eqb_neq in Heq. right.
      destruct (Size L <? Size ms ÷ 2 + 1) eqn:Hlt.
      + left. by apply Z.ltb_lt in Hlt.
      + right. by apply Z.ltb_ge in Hlt. }
  destruct (0 <? Size unknown) eqn:Hpos.
  - apply Z.ltb_lt in Hpos. run.
    destruct (remove_unexpected_pruned (range (ranges s) unknown)
                (mkState (this s) (calls s) (S (ranges s))))
      as (removed & rest & failed & Hl & -> & Hans & Hall & Hsome).
    cbn [this calls ranges] in *.
    pose proof (range_fair (ranges s) unknown) as Hfair. unfold fair in Hfair.
    exists removed, failed, (S (ranges s)).
    split.
    { exists rest. by rewrite <-Hl. }
    split.
    { intros Hempty. rewrite Hempty in Hpos. by vm_compute in Hpos. }
    destruct failed as [msg|]; run; [done|]. by apply Hrest.
  - apply Z.ltb_ge in Hpos. run. exists [], None, (ranges s).
    assert (Hemp : unknown = ∅).
    { apply Size_empty_iff. pose proof (Size_nonneg unknown). lia. }
    split.
    { exists []. rewrite Hemp, map_to_list_empty.
      split; [done|]. split; [|split; [done|by intros [? ?]]].
      intros before x after Heq. by destruct before. }
    split; [done|]. cbn [fmap list_fmap]. rewrite app_nil_r.
    replace (mkState (this s) (calls s) (ranges s)) with s by (by destruct s).
    by apply Hrest.
Qed.

(** What one pass of [reconcileMembers] does to the cluster. *)
Lemma reconcileMembers_effect running s :
  let ms := members (this s) in
  let unknown := Diff running ms in
  let L := Diff running unknown in
  let out := reconcileMembers running s in
  (1 ≤ api.Size (Spec (this s)) → benign out.1)
  ∧ cluster_Name (this out.2) = cluster_Name (this s)
  ∧ cluster_Namespace (this out.2) = cluster_Namespace (this s)
  ∧ Spec (this out.2) = Spec (this s)
  ∧ (∃ removed failed step,
       pruned unknown s removed failed
       ∧ calls out.2 = calls s ++ (prune_call <$> removed) ++ step
       ∧ match failed with
         | Some msg =>
             out.1 = Val (Some (ErrorString msg)) ∧ step = [] ∧ this out.2 = this s
         | None => True
         end
       ∧ (length (deleted step) ≤ 1)%nat
       ∧ (length (created step) ≤ 1)%nat)
  ∧ Size ms - 1 ≤ Size (members (this out.2)) ≤ Size ms + 1
  ∧ (Size L = Size ms →
       (if Size ms <=? api.Size (Spec (this s)) then 0 else -1)
       ≤ Size (members (this out.2)) - Size ms
       ≤ (if api.Size (Spec (this s)) <=? Size ms then 0 else 1)).
Proof.
  intros ms unknown L out.
  destruct (reconcileMembers_cases running s)
    as (removed & failed & n & Hpruned & _ & Hcases).
  fold ms unknown L in Hpruned, Hcases. cbn zeta in Hcases.
  set (s1 := mkState (this s) (calls s ++ (prune_call <$> removed)) n) in *.
  set (calls_as_pruned := fun (o : result (option error) * State) =>
    ∃ removed failed step,
      pruned unknown s removed failed
      ∧ calls o.2 = calls s ++ (prune_call <$> removed) ++ step
      ∧ match failed with
        | Some msg =>
            o.1 = Val (Some (ErrorString msg)) ∧ step = [] ∧ this o.2 = this s
        | None => True
        end
      ∧ (length (deleted step) ≤ 1)%nat
      ∧ (length (created step) ≤ 1)%nat).
  change (
    (1 ≤ api.Size (Spec (this s)) → benign out.1)
    ∧ cluster_Name (this out.2) = cluster_Name (this s)
    ∧ cluster_Namespace (this out.2) = cluster_Namespace (this s)
    ∧ Spec (this out.2) = Spec (this s)
    ∧ calls_as_pruned out
    ∧ Size ms - 1 ≤ Size (members (this out.2)) ≤ Size ms + 1
    ∧ (Size L = Size ms →
         (if Size ms <=? api.Size (Spec (this s)) then 0 else -1)
         ≤ Size (members (this out.2)) - Size ms
         ≤ (if api.Size (Spec (this s)) <=? Size ms then 0 else 1))).
  assert (Hstay : ∀ r, reconcileMembers running s = (Val (Some r), s1) →
    match failed with Some msg => r = ErrorString msg | None => True end →
    (1 ≤ api.Size (Spec (this s)) → benign out.1)
    ∧ cluster_Name (this out.2) = cluster_Name (this s)
    ∧ cluster_Namespace (this out.2) = cluster_Namespace (this s)
    ∧ Spec (this out.2) = Spec (this s)
    ∧ calls_as_pruned out
    ∧ Size ms - 1 ≤ Size (members (this out.2)) ≤ Size ms + 1
    ∧ (Size L = Size ms →
         (if Size ms <=? api.Size (Spec (this s)) then 0 else -1)
         ≤ Size (members (this out.2)) - Size ms
         ≤ (if api.Size (Spec (this s)) <=? Size ms then 0 else 1))).
  { intros r Hr Hfailed. unfold out, calls_as_pruned. rewrite Hr. cbn [fst snd s1 this calls].
    fold ms. split_and!; try done; try lia.
    - exists removed, failed, []. rewrite app_nil_r. split_and!; try done; [|simpl; lia..].
      destruct failed as [msg|]; [|done]. by rewrite Hfailed.
    - intros _. repeat case_match; lia. }
  assert (Hgo : ∀ (m : M (option error)) lo hi,
    failed = None →
    reconcileMembers running s = m s1 →
    change lo hi 1 1 s1 (m s1).2 → -1 ≤ lo → hi ≤ 1 →
    cluster_Name (this out.2) = cluster_Name (this s)
    ∧ cluster_Namespace (this out.2) = cluster_Namespace (this s)
    ∧ Spec (this out.2) = Spec (this s)
    ∧ calls_as_pruned out
    ∧ Size ms - 1 ≤ Size (members (this out.2)) ≤ Size ms + 1
    ∧ lo ≤ Size (members (this out.2)) - Size ms ≤ hi).
  { intros m lo hi Hnone Hr [HN HM HS HZ (new & Hcalls & Hd & Hk)] ??.
    unfold out, calls_as_pruned. rewrite Hr. cbn [this calls s1] in *. fold ms in HZ.
    split_and!; try done; try lia.
    exists removed, failed, new. rewrite Hcalls, <-app_assoc, Hnone in *. by split_and!. }
  destruct failed as [msg|].
  { by apply (Hstay _ Hcases). }
  destruct Hcases as [[HL Hr]|[(HL & Hlt & Hr)|(HL & Hge & Hr)]].
  - destruct (resize_effect s1) as [Hb Hc]. cbn [this s1] in Hb, Hc. fold ms in Hc.
    split; [intros Hsz; unfold out; rewrite Hr; by apply Hb|].
    edestruct (Hgo resize) as (? & ? & ? & ? & ? & ?); [done|done|exact Hc|..];
      [repeat case_match; lia..|].
    split_and!; first [done | lia | (intros; lia)].
  - by apply (Hstay _ Hr).
  - set (m := (ρ ← next_range; toReplace ← liftR (PickOne ρ (Diff ms L));
               replaceDeadMember toReplace)) in *.
    assert (Hm : benign (m s1).1 ∧ change (-1) 1 1 1 s1 (m s1).2).
    { unfold m. run. cbn [s1 ranges].
      pose proof (PickOne_Panic (range n) (Diff ms L) (range_fair _ _)) as Hp.
      destruct (PickOne _ _) as [toReplace|p] eqn:Hpick; run.
      - call (replaceDeadMember toReplace) by (replaceDeadMember_effect toReplace).
        from_here s1 0 0 0%nat 0%nat then Hc. split; [done|]. arrive Hc.
      - split; [|change_now]. destruct p; try done.
        by apply (dead_member_exists running ms HL), Hp. }
    destruct Hm as [Hb Hc].
    split; [intros _; unfold out; by rewrite Hr|].
    edestruct (Hgo m) as (? & ? & ? & ? & ? & ?); [done|done|exact Hc|lia..|].
    split_and!; first [done | lia | (intros; lia)].
Qed.

Lemma ClusterConfig_length ρ ms cfg :
  fair ρ ms → ClusterConfig ρ ms = Val cfg → Z.of_nat (length cfg) = Size ms.
Proof.
  intros Hf (lines & Hl & ->)%ClusterConfig_Val. unfold Size. f_equal.
  rewrite sort_Strings_Permutation.
  assert (Hlen : ∀ (l : list (string * Member)) r,
            mapR (fun nm => server_line "participant" nm.2) l = Val r →
            length r = length l).
  { induction l as [|x l IH]; intros r.
    - by intros [= <-].
    - intros (y & ys & _ & Hys & ->)%mapR_cons_Val. simpl. f_equal. by apply IH. }
  rewrite (Hlen _ _ Hl). unfold fair in Hf. by rewrite Hf, length_map_to_list.
Qed.



Lemma reconfigure_check_effect running s :
  effect 0 0 0 0 (reconfigure_check running) s.
Proof.
  unfold effect, reconfigure_check. run.
  destruct (IsEqual running (members (this s))); run; [|split; [done|change_now]].
  pose proof (ClientHostList_benign (range (ranges s)) (members (this s))) as Hb1.
  destruct (ClientHostList _ _) as [hosts|p]; run; [|split; [done|change_now]].
  match goal with
  | |- context [GetClusterConfig hosts ?s1] =>
      destruct (GetClusterConfig_run hosts s1) as (live & asked & -> & Hzk & Hlive)
  end.
  destruct (zk_calls_quiet _ Hzk) as [Hd Hk].
  assert (Hq : ∀ n more, Forall zk_call more →
            change 0 0 0 0 s (mkState (this s) ((calls s ++ asked) ++ more) n)).
  { intros n more [Hd2 Hk2]%zk_calls_quiet.
    split; cbn [this calls]; [done|done|done|lia|].
    exists (asked ++ more). split; [by rewrite app_assoc|].
    unfold deleted, created in *. rewrite !omap_app, Hd, Hk, Hd2, Hk2. simpl. lia. }
  assert (Hq0 : ∀ n, change 0 0 0 0 s (mkState (this s) (calls s ++ asked) n)).
  { intros n. specialize (Hq n [] (Forall_nil_2 _)). by rewrite app_nil_r in Hq. }
  run. destruct live as [[zkClusterConfig|err]|p]; run;
    [|by split|destruct Hlive as [-> _]; by split].
  pose proof (ClusterConfig_benign (range (S (ranges s))) (members (this s))) as Hb2.
  destruct (ClusterConfig _ _) as [cfg|p]; run; [|by split].
  destruct (_ || _); run; [|by split].
  match goal with
  | |- context [ReconfigureCluster hosts cfg ?s1] =>
      destruct (ReconfigureCluster_run hosts cfg s1) as (r & pushed & -> & Hzk2 & Hr)
  end.
  run. destruct r as [[?|?]|p]; run; [| |destruct Hr as [-> _]];
    (split; [done|by apply Hq]).
Qed.

Lemma upgrade_or_ready_effect pods s :
  effect (-1) 1 1 1 (upgrade_or_ready pods) s.
Proof.
  unfold effect, upgrade_or_ready. run.
  destruct (needUpgrade pods (Spec (this s))); run; [|split; [done|change_now]].
  destruct (pickOneOldMember pods _) as [m|]; run; [|split; [done|change_now]].
  call (upgradeOneMember (Name m)) by (upgradeOneMember_effect (Name m)).
  from_here s 0 0 0%nat 0%nat then Hc. split; [done|]. arrive Hc.
Qed.

(** One pass of [reconcile] does not raise the panic of [PickOne] when the
    spec asks for at least one member, and moves the size of the membership
    by at most one. *)
Lemma reconcile_effect pods s :
  (1 ≤ api.Size (Spec (this s)) → benign (reconcile pods s).1)
  ∧ Size (members (this s)) - 1
    ≤ Size (members (this (reconcile pods s).2))
    ≤ Size (members (this s)) + 1.
Proof.
  unfold reconcile, defer. run.
  call (reconfigure_check (podsToMemberSet pods))
    by (reconfigure_check_effect (podsToMemberSet pods)).
  destruct Hc as [_ _ HS HZ _].
  destruct r as [[r|]|p]; run; unfold refresh_size; run.
  - split; [done|lia].
  - destruct (_ || _).
    + pose proof (reconcileMembers_effect (podsToMemberSet pods) s0)
        as (Hb' & _ & _ & _ & _ & Hsz & _). cbn zeta in Hb', Hsz.
      destruct (reconcileMembers _ s0) as [r s1]. run. cbn [fst snd] in *.
      split; [rewrite <-HS; exact Hb'|lia].
    + destruct (upgrade_or_ready_effect pods s0) as [Hb' [_ _ _ Hsz _]].
      destruct (upgrade_or_ready pods s0) as [r s1]. run. cbn [fst snd] in *.
      split; [done|lia].
  - split; [done|lia].
Qed.

(** The pods the loop asked to delete are pods of unknown members. *)
Lemma pruned_elem unknown s removed failed x :
  pruned unknown s removed failed → x ∈ removed → unknown !! x.1 = Some x.2.
Proof.
  intros (rest & Hp & _) Hin. destruct x as [k m]. apply elem_of_map_to_list.
  rewrite <-Hp. apply elem_of_app. by left.
Qed.

(** A loop left with an error stopped at the deletion that failed. *)
Lemma pruned_failed unknown s removed msg :
  pruned unknown s removed (Some msg) →
  ∃ before x,
    removed = before ++ [x]
    ∧ unknown !! x.1 = Some x.2
    ∧ pods_delete (calls s ++ (prune_call <$> before)) (Name x.2) true = Some msg.
Proof.
  intros Hpr. pose proof Hpr as (rest & _ & Hans & _ & Hsome).
  destruct (decide (removed = [])) as [->|Hne]; [by destruct Hsome|].
  destruct (exists_last Hne) as (before & x & ->).
  exists before, x. split; [done|]. split.
  - apply (pruned_elem _ _ _ _ _ Hpr). apply elem_of_app. right. left.
  - by rewrite (Hans before x []).
Qed.

(** When no deletion of an unknown pod can fail, the loop removes them all. *)
Lemma pruned_all unknown s removed failed :
  pruned unknown s removed failed →
  (∀ h k m, unknown !! k = Some m → pods_delete h (Name m) true = None) →
  failed = None ∧ removed ≡ₚ map_to_list unknown.
Proof.
  intros Hpr Hok.
  assert (Hnone : failed = None).
  { destruct failed as [msg|]; [|done].
    destruct (pruned_failed _ _ _ _ Hpr) as (before & x & _ & Hx & Hdel).
    by rewrite (Hok _ _ _ Hx) in Hdel. }
  split; [done|]. destruct Hpr as (rest & Hp & _ & Hall & _).
  rewrite (Hall Hnone), app_nil_r in Hp. done.
Qed.

(** ** The claims about the reconcile pass *)

(** C1, as the code has it. One pass of [reconcileMembers] first removes the
    pods of the unknown members, one after the other, each with a deletion
    that waits: all of them when no deletion fails, and up to the first
    deletion that fails otherwise, in which case the pass ends there with
    that error and the cluster as it was. After the pruning it changes the
    membership at most once: at most one more pod is deleted and at most one
    is created, and the size of the membership moves by at most one. When no
    member is dead the move is toward the size of the spec, so from 3 members
    and a spec of 7 a pass reaches at most 4. A whole pass of [reconcile]
    moves the size by at most one as well. *)
Theorem reconcileMembers_prunes_then_one_change
    (running : MemberSet) (pods : list Pod) (s : State) :
  let ms := members (this s) in
  let size := api.Size (Spec (this s)) in
  let unknown := Diff running ms in
  let out := reconcileMembers running s in
  let after := members (this out.2) in
  (∃ removed failed step,
     pruned unknown s removed failed
     ∧ calls out.2 = calls s ++ (prune_call <$> removed) ++ step
     ∧ match failed with
       | Some msg =>
           out.1 = Val (Some (ErrorString msg)) ∧ step = [] ∧ this out.2 = this s
       | None => removed ≡ₚ map_to_list unknown
       end
     ∧ ((∀ h k m, unknown !! k = Some m → pods_delete h (Name m) true = None) →
          failed = None)
     ∧ (length (deleted step) ≤ 1)%nat
     ∧ (length (created step) ≤ 1)%nat)
  ∧ Size ms - 1 ≤ Size after ≤ Size ms + 1
  ∧ (Size (Diff running unknown) = Size ms →
       (Size ms ≤ size → Size ms ≤ Size after ≤ size)
       ∧ (size ≤ Size ms → size ≤ Size after ≤ Size ms))
  ∧ (Size ms = 3 → size = 7 → Size after ≤ 4)
  ∧ Size ms - 1 ≤ Size (members (this (reconcile pods s).2)) ≤ Size ms + 1.
Proof.
  intros ms size unknown out after.
  destruct (reconcileMembers_effect running s)
    as (_ & _ & _ & _ & (removed & failed & step & Hpr & Hcalls & Hfail & Hd & Hc)
        & Hsz & Hdir).
  cbn zeta in Hsz, Hdir. fold ms unknown out after size in Hpr, Hcalls, Hfail, Hsz, Hdir.
  split.
  { exists removed, failed, step. split; [done|]. split; [done|]. split.
    - destruct failed as [msg|]; [done|].
      destruct Hpr as (rest & Hp & _ & Hall & _).
      by rewrite (Hall eq_refl), app_nil_r in Hp.
    - split; [|done]. intros Hok. by apply (pruned_all _ _ _ _ Hpr). }
  split; [done|]. split; [|split; [lia|apply reconcile_effect]].
  intros HL. specialize (Hdir HL). split; intros ?; repeat case_match; lia.
Qed.

(** C2, as the code has it. When the surviving set L is smaller than the
    majority of the members (and not all of them), [reconcileMembers] leaves
    the cluster as it is and calls nothing but the removal of unknown pods.
    When each of these removals succeeds it returns the lost-quorum error;
    when one fails the pass stops there and returns the error of that
    removal in its place. With every running pod a member it returns lost
    quorum without any call. At or above the majority, with a member missing,
    it goes on to replace a dead member. The majority of 5 is 3. *)
Theorem reconcileMembers_quorum (running : MemberSet) (s : State) :
  let ms := members (this s) in
  let unknown := Diff running ms in
  let L := Diff running unknown in
  let out := reconcileMembers running s in
  (Size L < Size ms ÷ 2 + 1 → Size L ≠ Size ms →
     this out.2 = this s
     ∧ (∃ removed failed,
          pruned unknown s removed failed
          ∧ calls out.2 = calls s ++ (prune_call <$> removed)
          ∧ out.1 = Val (Some (match failed with
                               | Some msg => ErrorString msg
                               | None => ErrLostQuorum
                               end)))
     ∧ ((∀ h k m, unknown !! k = Some m → pods_delete h (Name m) true = None) →
          out.1 = Val (Some ErrLostQuorum))
     ∧ (dom running ⊆ dom ms → out = (Val (Some ErrLostQuorum), s)))
  ∧ (Size ms ÷ 2 + 1 ≤ Size L → Size L ≠ Size ms → dom running ⊆ dom ms →
       out = replace_dead (Diff ms L) s)
  ∧ (Size ms = 5 → Size ms ÷ 2 + 1 = 3).
Proof.
  intros ms unknown L out.
  destruct (reconcileMembers_cases running s)
    as (removed & failed & n & Hpr & He & Hcases).
  cbn zeta in Hcases. fold ms unknown L out in Hpr, He, Hcases.
  assert (Hknown : dom running ⊆ dom ms → unknown = ∅).
  { intros Hsub. apply map_empty. intros k. apply Diff_lookup_None.
    destruct (running !! k) eqn:Hk; [|by left]. right.
    apply elem_of_dom, Hsub, elem_of_dom. eauto. }
  assert (Hs : removed = [] → n = ranges s →
               mkState (this s) (calls s ++ (prune_call <$> removed)) n = s).
  { intros -> ->. cbn [fmap list_fmap]. rewrite app_nil_r. by destruct s. }
  assert (Hnone : unknown = ∅ → failed = None).
  { intros Hu. destruct (He Hu) as [-> _]. destruct failed; [|done].
    destruct Hpr as (_ & _ & _ & _ & Hsome). by destruct Hsome. }
  split; [|split].
  - intros Hlt Hne.
    assert (Hout : out = (Val (Some (match failed with
                                     | Some msg => ErrorString msg
                                     | None => ErrLostQuorum
                                     end)),
                          mkState (this s) (calls s ++ (prune_call <$> removed)) n)).
    { destruct failed as [msg|]; [done|].
      destruct Hcases as [[HL _]|[(_ & _ & Hr)|(_ & Hge & _)]]; [done|done|lia]. }
    rewrite Hout. cbn [fst snd this calls]. split; [done|]. split; [by eauto|]. split.
    + intros Hok. by destruct (pruned_all _ _ _ _ Hpr Hok) as [-> _].
    + intros Hu%Hknown. destruct (He Hu) as [Hrem Hn]. rewrite (Hnone Hu).
      by rewrite Hs.
  - intros Hge Hne Hu%Hknown. destruct (He Hu) as [Hrem Hn].
    rewrite (Hnone Hu) in Hcases.
    destruct Hcases as [[HL _]|[(_ & Hlt & _)|(_ & _ & Hr)]]; [done|lia|].
    rewrite Hr, Hs by done. done.
  - intros ->. done.
Qed.

(** C9.  [PickOne] panics only on an empty member set, and the guards of
    the engine keep its argument from being empty: in [reconcileMembers] the
    set of dead members [members.Diff(L)] is not empty when the sizes of L
    and of the members differ, and in [removeOneMember] the members are not
    empty when they are more than a spec size of at least one.  So no pass
    of [reconcileMembers], [resize] or [reconcile] ends in that panic. *)
Theorem PickOne_guarded (running : MemberSet) (pods : list Pod) (s : State) :
  1 ≤ api.Size (Spec (this s)) →
  let ms := members (this s) in
  let L := Diff running (Diff running ms) in
  (∀ ρ X, fair ρ X → (PickOne ρ X = Panic PanicEmpty ↔ X = ∅))
  ∧ (∀ ρ X, fair ρ X → X ≠ ∅ → ∃ k m, PickOne ρ X = Val m ∧ X !! k = Some m)
  ∧ dom L ⊆ dom ms
  ∧ (Size L ≠ Size ms → Diff ms L ≠ ∅)
  ∧ (api.Size (Spec (this s)) < Size ms → ms ≠ ∅)
  ∧ benign (reconcileMembers running s).1
  ∧ benign (resize s).1
  ∧ benign (reconcile pods s).1.
Proof.
  intros Hsize ms L. split_and!.
  - apply PickOne_Panic.
  - apply PickOne_Val.
  - unfold L. rewrite dom_running_known. set_solver.
  - apply dead_member_exists.
  - intros Hlt Hempty%Size_empty_iff. fold ms in Hempty. lia.
  - by apply reconcileMembers_effect.
  - by apply resize_effect.
  - by apply reconcile_effect.
Qed.



End EngineFacts.

(** ** The claims on concrete clusters *)

(** Five members: two running pods lose the quorum, three do not. *)
Lemma reconcileMembers_quorum_witness :
  let E := scripted None EmptyString in
  let s := cluster_of 5 ["c-1"; "c-2"; "c-3"; "c-4"; "c-5"] in
  @reconcileMembers E (set_of ["c-1"; "c-2"]) s = (Val (Some ErrLostQuorum), s)
  ∧ @reconcileMembers E (set_of ["c-1"; "c-2"; "c-3"]) s
    = @replace_dead E (set_of ["c-4"; "c-5"]) s.
Proof.
  intros E s. split.
  - destruct (@reconcileMembers_quorum E (set_of ["c-1"; "c-2"]) s) as (Hlost & _ & _).
    apply Hlost; [by vm_compute|by vm_compute|].
    apply (bool_decide_unpack _). by vm_compute.
  - destruct (@reconcileMembers_quorum E (set_of ["c-1"; "c-2"; "c-3"]) s) as (_ & Hrep & _).
    rewrite Hrep; [by vm_compute|by vm_compute|by vm_compute|].
    apply (bool_decide_unpack _). by vm_compute.
Defined.

(** Against C1 as the specification words it: one pass prunes two unknown pods
    and adds a member. *)
Lemma prunes_two_and_adds_in_one_pass :
  let E := scripted None EmptyString in
  let out :=
    @reconcileMembers E (set_of ["c-1"; "c-2"; "c-3"; "x-1"; "x-2"])
      (cluster_of 7 ["c-1"; "c-2"; "c-3"]) in
  out.1 = Val None
  ∧ deleted (calls out.2) = ["x-1"; "x-2"]
  ∧ pod_Name <$> created (calls out.2) = ["c-4"]
  ∧ Size (members (this out.2)) = 4.
Proof. by vm_compute. Qed.

(** Against C2 as the specification words it: below the majority, a failed
    removal of an unknown pod is returned in place of the lost-quorum error. *)
Lemma failed_prune_hides_lost_quorum :
  let E := scripted (Some "pods x-1 is forbidden") EmptyString in
  let s := cluster_of 3 ["c-1"; "c-2"; "c-3"] in
  let running := set_of ["x-1"] in
  let L := Diff running (Diff running (members (this s))) in
  Size L < Size (members (this s)) ÷ 2 + 1
  ∧ Size L ≠ Size (members (this s))
  ∧ (@reconcileMembers E running s).1
    = Val (Some (ErrorString "pods x-1 is forbidden")).
Proof. by vm_compute. Qed.

(** A scale-down from three members to two. *)
Lemma PickOne_guarded_witness :
  let E := scripted None EmptyString in
  let names := ["c-1"; "c-2"; "c-3"] in
  let s := cluster_of 2 names in
  1 ≤ api.Size (Spec (this s))
  ∧ benign (@reconcileMembers E (set_of names) s).1
  ∧ benign (@resize E s).1
  ∧ benign (@reconcile E (pod_at "3.5.3" <$> names) s).1.
Proof.
  intros E names s.
  assert (Hsize : 1 ≤ api.Size (Spec (this s))) by (by vm_compute).
  destruct (@PickOne_guarded E (set_of names) (pod_at "3.5.3" <$> names) s Hsize)
    as (_ & _ & _ & _ & _ & Hm & Hr & Hrec).
  split; [exact Hsize|]. split; [exact Hm|]. split; [exact Hr|exact Hrec].
Defined.





(** * Further properties of the code *)

(** ** Decimal numerals: [Itoa] and [Atoi] *)

Lemma digits_val_uint acc d :
  digits_val acc (NilEmpty.string_of_uint d) = Some (uint_val acc d).
Proof.
  revert acc. induction d; intros acc; cbn [NilEmpty.string_of_uint digits_val uint_val];
    [done|..];
    match goal with
    | |- context [digit_val ?a] => change (digit_val a) with (Some (Z.of_N (N_of_ascii a) - 48))
    end; cbn [N_of_ascii]; apply IHd.
Qed.

Lemma uint_val_acc d (acc : positive) :
  uint_val (Z.pos acc) d = Z.pos (Pos.of_uint_acc d acc).
Proof.
  revert acc. induction d; intros acc; cbn [uint_val Pos.of_uint_acc]; [done|..];
    rewrite <-IHd; f_equal; lia.
Qed.

Lemma uint_val_0 d : uint_val 0 d = Z.of_N (Pos.of_uint d).
Proof.
  induction d; cbn [uint_val Pos.of_uint]; [done | exact IHd | ..];
    apply (uint_val_acc d).
Qed.

Lemma digits_val_pos p :
  digits_val 0 (NilEmpty.string_of_uint (Pos.to_uint p)) = Some (Z.pos p).
Proof.
  by rewrite digits_val_uint, uint_val_0, DecimalPos.Unsigned.of_to.
Qed.

(** The numeral of a positive number starts with a digit. *)
Lemma string_of_pos_head p :
  ∃ a s, NilEmpty.string_of_uint (Pos.to_uint p) = String a s
         ∧ Ascii.eqb a "-" = false ∧ Ascii.eqb a "+" = false.
Proof.
  pose proof (DecimalPos.Unsigned.to_uint_nonnil p) as Hn.
  destruct (Pos.to_uint p); [done|..]; cbn [NilEmpty.string_of_uint]; eauto.
Qed.

Lemma Itoa_pos p : Itoa (Z.pos p) = NilEmpty.string_of_uint (Pos.to_uint p).
Proof.
  unfold Itoa. cbn [Z.to_int NilZero.string_of_int]. unfold NilZero.string_of_uint.
  pose proof (DecimalPos.Unsigned.to_uint_nonnil p). by destruct (Pos.to_uint p).
Qed.

Lemma Itoa_neg p :
  Itoa (Z.neg p) = String "-" (NilEmpty.string_of_uint (Pos.to_uint p)).
Proof.
  unfold Itoa. cbn [Z.to_int NilZero.string_of_int]. unfold NilZero.string_of_uint.
  pose proof (DecimalPos.Unsigned.to_uint_nonnil p). by destruct (Pos.to_uint p).
Qed.

Lemma digit_val_range c d : digit_val c = Some d → 0 ≤ d ≤ 9.
Proof.
  unfold digit_val. destruct (_ && _) eqn:Hd; [|done].
  apply andb_true_iff in Hd as [H1%Z.leb_le H2%Z.leb_le]. intros [= <-]. lia.
Qed.

Lemma digits_val_mono s acc v : 0 ≤ acc → digits_val acc s = Some v → acc ≤ v.
Proof.
  revert acc. induction s as [|a s IH]; intros acc Hacc; simpl.
  - intros [= <-]. lia.
  - destruct (digit_val a) as [d|] eqn:Hd; [|done].
    apply digit_val_range in Hd. intros Hv%IH; lia.
Qed.

(** On digits that stand for a number within 64 bits [ParseUint] yields the
    number. *)
Lemma ParseUint_digits s n v :
  0 ≤ n → digits_val n s = Some v → v ≤ MaxUint64 → ParseUint n s = Number v.
Proof.
  revert n. induction s as [|a s IH]; intros n Hn; simpl.
  - by intros [= <-].
  - destruct (digit_val a) as [d|] eqn:Hd; [|done].
    apply digit_val_range in Hd. intros Hv Hmax.
    assert (Hle : 10 * n + d ≤ v) by (apply (digits_val_mono s); [lia|done]).
    unfold MaxUint64 in *.
    destruct (Z.leb_spec ((2 ^ 64 - 1) / 10 + 1) n) as [Hc|Hc].
    { change ((2 ^ 64 - 1) / 10 + 1) with 1844674407370955162 in Hc. lia. }
    destruct (Z.ltb_spec (2 ^ 64 - 1) (10 * n + d)); [lia|].
    apply IH; [lia|done|done].
Qed.

Lemma ParseUint_nonneg s n v : 0 ≤ n → ParseUint n s = Number v → 0 ≤ v.
Proof.
  revert n. induction s as [|a s IH]; intros n Hn; simpl.
  - intros [= <-]. lia.
  - destruct (digit_val a) as [d|] eqn:Hd; [|done].
    apply digit_val_range in Hd.
    destruct (_ <=? n); [done|]. destruct (_ <? _); [done|].
    apply IH. lia.
Qed.

(** Up to twenty characters cannot overflow before the character that is no
    digit is met. *)
Lemma ParseUint_syntax s n :
  0 ≤ n → digits_val n s = None →
  (n + 1) * 10 ^ Z.of_nat (String.length s) ≤ 10 ^ 20 →
  ParseUint n s = ErrSyntax.
Proof.
  revert n. induction s as [|a s IH]; intros n Hn; [done|].
  cbn [digits_val ParseUint String.length].
  destruct (digit_val a) as [d|] eqn:Hd; [|done].
  apply digit_val_range in Hd. intros Hnone Hlen.
  rewrite Nat2Z.inj_succ, Z.pow_succ_r in Hlen by lia.
  assert (Hs : 10 ≤ 10 ^ Z.of_nat (String.length s)).
  { destruct s as [|b s]; [done|]. cbn [String.length].
    rewrite Nat2Z.inj_succ, Z.pow_succ_r by lia.
    pose proof (Z.pow_pos_nonneg 10 (Z.of_nat (String.length s))). lia. }
  assert (Hn18 : n + 1 ≤ 10 ^ 18).
  { change (10 ^ 20) with (100 * 10 ^ 18) in Hlen.
    set (k := 10 ^ Z.of_nat (String.length s)) in *.
    change (10 ^ 18) with 1000000000000000000 in *. nia. }
  unfold MaxUint64.
  change ((2 ^ 64 - 1) / 10 + 1) with 1844674407370955162.
  change (2 ^ 64 - 1) with 18446744073709551615.
  change (10 ^ 18) with 1000000000000000000 in Hn18.
  destruct (Z.leb_spec 1844674407370955162 n); [lia|].
  destruct (Z.ltb_spec 18446744073709551615 (10 * n + d)); [lia|].
  apply IH; [lia|done|].
  set (k := 10 ^ Z.of_nat (String.length s)) in *. nia.
Qed.

(** [strconv.Atoi] reads back what [%d] prints, for every [int]. *)
Lemma Atoi_Itoa n : MinInt ≤ n ≤ MaxInt → Atoi (Itoa n) = (n, true).
Proof.
  intros Hn. destruct n as [|p|p].
  - reflexivity.
  - rewrite Itoa_pos.
    destruct (string_of_pos_head p) as (a & s & Hs & Hm & Hp).
    pose proof (digits_val_pos p) as Hd. rewrite Hs in Hd |- *.
    apply ParseUint_digits in Hd; [|done|unfold MaxUint64, MaxInt in *; lia].
    unfold Atoi. rewrite Hm, Hp. cbn [orb]. rewrite Hd.
    destruct (Z.ltb_spec (Z.pos p) MinInt); [lia|].
    destruct (Z.ltb_spec MaxInt (Z.pos p)); [lia|done].
  - rewrite Itoa_neg.
    destruct (string_of_pos_head p) as (a & s & Hs & _).
    pose proof (digits_val_pos p) as Hd. rewrite Hs in Hd |- *.
    apply ParseUint_digits in Hd; [|done|unfold MaxUint64, MinInt in *; lia].
    unfold Atoi. change (Ascii.eqb "-" "-") with true. cbn [orb]. rewrite Hd.
    change (- Z.pos p) with (Z.neg p).
    destruct (Z.ltb_spec (Z.neg p) MinInt); [lia|].
    destruct (Z.ltb_spec MaxInt (Z.neg p)); [lia|done].
Qed.

(** The last piece of a split is what follows the last separator. *)
Lemma Split_last c a b :
  occurs c b = false → List.last (Split (a +:+ String c b) c) EmptyString = b.
Proof.
  intros Hb. induction a as [|x a IH].
  - change (EmptyString +:+ String c b) with (String c b).
    rewrite Split_sep, (Split_free c b Hb). done.
  - rewrite app_cons. cbn [Split].
    pose proof (Split_nonempty (a +:+ String c b) c) as Hne.
    destruct (Ascii.eqb x c).
    + destruct (Split (a +:+ String c b) c) as [|p ps]; [done|]. exact IH.
    + destruct (Split (a +:+ String c b) c) as [|p ps] eqn:Hsp; [done|].
      destruct ps as [|q ps]; [|exact IH].
      (* a single piece would hold the separator *)
      exfalso. clear IH.
      assert (Hlen : ∀ t, (2 ≤ length (Split (t +:+ String c b) c))%nat).
      { induction t as [|y t IHt].
        - change (EmptyString +:+ String c b) with (String c b).
          rewrite Split_sep. simpl. pose proof (Split_nonempty b c).
          destruct (Split b c); [done|simpl; lia].
        - rewrite app_cons. cbn [Split]. destruct (Ascii.eqb y c).
          + simpl. lia.
          + destruct (Split (t +:+ String c b) c) as [|? [|? ?]]; simpl in *; lia. }
      specialize (Hlen a). rewrite Hsp in Hlen. simpl in Hlen. lia.
Qed.

Lemma occurs_Itoa_nonneg n : 0 ≤ n → occurs "-" (Itoa n) = false.
Proof.
  intros Hn. destruct n as [|p|p]; [done| |lia].
  rewrite Itoa_pos. by apply occurs_uint.
Qed.

(** The ID of a member named ["<cluster>-<n>"] is [n]. *)
Lemma ID_of_numbered cn n ns :
  0 ≤ n ≤ MaxInt → ID (mkMember (cn +:+ "-" +:+ Itoa n) ns) = n.
Proof.
  intros Hn. unfold ID. cbn [Name].
  change (cn +:+ "-" +:+ Itoa n) with (cn +:+ String "-" (Itoa n)).
  rewrite Split_last by (apply occurs_Itoa_nonneg; lia).
  rewrite Atoi_Itoa; [done|]. unfold MinInt, MaxInt in *. lia.
Qed.

(** ** Member names *)

Lemma LastIndex_ge s c : -1 ≤ LastIndex s c.
Proof.
  induction s as [|x s IH]; simpl; [done|].
  destruct (0 <=? LastIndex s c) eqn:?; [lia|]. by destruct (Ascii.eqb x c).
Qed.

(** A string that holds the byte [c] is cut by [LastIndex] into the part
    before the last [c] and a rest free of [c]. *)
Lemma LastIndex_cut s c :
  occurs c s = true →
  ∃ rest, s = slice_to s (LastIndex s c) +:+ String c rest ∧ occurs c rest = false.
Proof.
  unfold slice_to. induction s as [|x s IH]; [done|].
  intros Hs. cbn [LastIndex]. pose proof (LastIndex_ge s c) as Hge.
  destruct (0 <=? LastIndex s c) eqn:Hi.
  - apply Z.leb_le in Hi.
    destruct IH as (rest & Heq & Hrest).
    { apply not_false_iff_true. intros Hn%LastIndex_occurs. lia. }
    exists rest. split; [|done].
    replace (Z.to_nat (LastIndex s c + 1)) with (S (Z.to_nat (LastIndex s c))) by lia.
    cbn [substring]. rewrite app_cons. by f_equal.
  - apply Z.leb_gt in Hi.
    assert (Hno : occurs c s = false) by (apply LastIndex_occurs; lia).
    simpl in Hs. rewrite Hno in Hs.
    destruct (Ascii.eqb_spec x c) as [->|]; [|done].
    exists s. split; [|done]. by destruct s.
Qed.

(** [Join] of names with a separator none of them holds splits back. *)
Lemma Split_Join c l :
  l ≠ [] → Forall (fun s => occurs c s = false) l →
  Split (Join l (String c EmptyString)) c = l.
Proof.
  induction l as [|s l IH]; [done|]. intros _ Hall.
  apply Forall_cons in Hall as [Hs Hl].
  destruct l as [|t l]; [by apply Split_free|].
  change (Join (s :: t :: l) (String c EmptyString))
    with (s +:+ String c EmptyString +:+ Join (t :: l) (String c EmptyString)).
  change (String c EmptyString +:+ ?x) with (String c x).
  rewrite Split_app_sep by done. f_equal. by apply IH.
Qed.

Lemma cut_unique c a a' b b' :
  occurs c b = false → occurs c b' = false →
  a +:+ String c b = a' +:+ String c b' → a = a' ∧ b = b'.
Proof.
  intros Hb Hb'. revert a'. induction a as [|x a IH]; intros [|x' a'].
  - by intros [= ->].
  - change (EmptyString +:+ ?s) with s. rewrite app_cons. intros [= <- ->].
    rewrite occurs_app in Hb. cbn [occurs] in Hb. rewrite Ascii.eqb_refl in Hb.
    by destruct (occurs c a').
  - change (EmptyString +:+ ?s) with s. rewrite app_cons. intros [= -> <-].
    rewrite occurs_app in Hb'. cbn [occurs] in Hb'. rewrite Ascii.eqb_refl in Hb'.
    by destruct (occurs c a).
  - rewrite !app_cons. intros [= -> Heq]. destruct (IH _ Heq) as [-> ->]. done.
Qed.

Lemma clusterNameFromMemberName_Val mn c :
  clusterNameFromMemberName mn = Val c →
  ∃ rest, mn = c +:+ "-" +:+ rest ∧ occurs "-" rest = false.
Proof.
  unfold clusterNameFromMemberName.
  destruct (LastIndex mn "-" =? -1) eqn:Hi; [done|]. intros [= <-].
  apply Z.eqb_neq in Hi.
  apply LastIndex_cut, not_false_iff_true. by intros ?%LastIndex_occurs.
Qed.

Lemma clusterNameFromMemberName_Panic mn :
  clusterNameFromMemberName mn = Panic (PanicMemberName mn) ↔ occurs "-" mn = false.
Proof.
  unfold clusterNameFromMemberName. rewrite <-LastIndex_occurs.
  destruct (Z.eqb_spec (LastIndex mn "-") (-1)); [done|]. split; [done|lia].
Qed.

Lemma clusterNameFromMemberName_joined cn suffix :
  occurs "-" suffix = false →
  clusterNameFromMemberName (cn +:+ "-" +:+ suffix) = Val cn.
Proof.
  intros Hs.
  destruct (clusterNameFromMemberName (cn +:+ "-" +:+ suffix)) as [c|p] eqn:Hc.
  - destruct (clusterNameFromMemberName_Val _ _ Hc) as (rest & Heq & Hrest).
    change (?a +:+ "-" +:+ ?b) with (a +:+ String "-" b) in Heq.
    by destruct (cut_unique _ _ _ _ _ Hs Hrest Heq) as [-> _].
  - exfalso. unfold clusterNameFromMemberName in Hc.
    destruct (LastIndex _ _ =? -1) eqn:Hi; [|done].
    apply Z.eqb_eq, LastIndex_occurs in Hi.
    rewrite !occurs_app in Hi. cbn in Hi. by destruct (occurs "-" cn).
Qed.

(** X1.  [clusterNameFromMemberName] panics exactly on a name without a dash;
    otherwise it returns the part before the last dash, so a name
    ["<cluster>-<suffix>"] with a dash-free suffix gives the cluster back,
    also when the cluster name itself holds dashes. *)
Theorem clusterNameFromMemberName_spec (mn cn suffix : string) :
  (clusterNameFromMemberName mn = Panic (PanicMemberName mn) ↔ occurs "-" mn = false)
  ∧ (∀ c, clusterNameFromMemberName mn = Val c →
       ∃ rest, mn = c +:+ "-" +:+ rest ∧ occurs "-" rest = false)
  ∧ (occurs "-" suffix = false →
       clusterNameFromMemberName (cn +:+ "-" +:+ suffix) = Val cn).
Proof.
  split; [apply clusterNameFromMemberName_Panic|].
  split; [apply clusterNameFromMemberName_Val|].
  apply clusterNameFromMemberName_joined.
Qed.

Lemma MaxMemberID_nonneg (ms : MemberSet) : 0 ≤ MaxMemberID ms.
Proof.
  unfold MaxMemberID. apply (map_fold_weak_ind (fun r _ => 0 ≤ r)); [done|].
  intros i x m r _ Hr. case_match; lia.
Qed.

Lemma MaxMemberID_upper (ms : MemberSet) k m :
  ms !! k = Some m → ID m ≤ MaxMemberID ms.
Proof.
  revert k m. unfold MaxMemberID.
  apply (map_fold_weak_ind (fun r (ms : MemberSet) => ∀ k m, ms !! k = Some m → ID m ≤ r)).
  - intros k m. by rewrite lookup_empty.
  - intros i x m r Hi IH k m' [[-> ->]|[? Hk]]%lookup_insert_Some.
    + case_match eqn:Hlt; [lia|]. apply Z.ltb_ge in Hlt. lia.
    + specialize (IH _ _ Hk). case_match eqn:Hlt; [|done].
      apply Z.ltb_lt in Hlt. lia.
Qed.

Lemma MaxMemberID_attained (ms : MemberSet) :
  MaxMemberID ms = 0 ∨ ∃ k m, ms !! k = Some m ∧ ID m = MaxMemberID ms.
Proof.
  unfold MaxMemberID.
  apply (map_fold_weak_ind
           (fun r (ms : MemberSet) => r = 0 ∨ ∃ k m, ms !! k = Some m ∧ ID m = r)).
  - by left.
  - intros i x m r Hi IH. case_match.
    + right. exists i, x. by rewrite lookup_insert_eq.
    + destruct IH as [?|(k & m' & Hk & ?)]; [by left|]. right.
      exists k, m'. split; [|done]. rewrite lookup_insert_ne; [done|congruence].
Qed.

(** X2.  [MaxMemberID] is never negative, bounds the ID of every member, and
    is 0 or the ID of some member; on the empty set it is 0, and adding a
    member raises it to the ID of that member or leaves it. *)
Theorem MaxMemberID_bounds (ms : MemberSet) (m : Member) :
  0 ≤ MaxMemberID ms
  ∧ (∀ k m, ms !! k = Some m → ID m ≤ MaxMemberID ms)
  ∧ (MaxMemberID ms = 0 ∨ ∃ k m, ms !! k = Some m ∧ ID m = MaxMemberID ms)
  ∧ MaxMemberID (∅ : MemberSet) = 0
  ∧ MaxMemberID (Add ms m) ≤ Z.max (MaxMemberID ms) (ID m).
Proof.
  split; [apply MaxMemberID_nonneg|].
  split; [apply MaxMemberID_upper|].
  split; [apply MaxMemberID_attained|].
  split; [done|].
  pose proof (MaxMemberID_nonneg ms).
  destruct (MaxMemberID_attained (Add ms m)) as [->|(k & m' & Hk & <-)]; [lia|].
  unfold Add in Hk. apply lookup_insert_Some in Hk as [[_ <-]|[_ Hk]]; [lia|].
  pose proof (MaxMemberID_upper ms k m' Hk). lia.
Qed.

(** X3.  [newMember] names the next member after the highest ID: as long as
    that ID is below the largest [int], the new name is
    ["<cluster>-<MaxMemberID+1>"], its ID is [MaxMemberID+1], its cluster
    name is the name of the cluster, and no member of the set has that name
    or that ID. *)
Theorem newMember_fresh (s : State) :
  let c := this s in
  let next := MaxMemberID (members c) + 1 in
  MaxMemberID (members c) < MaxInt →
  ∃ m, newMember s = (Val m, s)
       ∧ Name m = cluster_Name c +:+ "-" +:+ Itoa next
       ∧ Namespace m = cluster_Namespace c
       ∧ ID m = next
       ∧ clusterNameFromMemberName (Name m) = Val (cluster_Name c)
       ∧ (∀ k m', members c !! k = Some m' → ID m' < ID m ∧ Name m' ≠ Name m)
       ∧ MaxMemberID (Add (members c) m) = next.
Proof.
  intros c next Hmax.
  pose proof (MaxMemberID_nonneg (members c)) as H0.
  pose proof (MaxMemberID_upper (members c)) as Hub.
  assert (Hw : wrap next = next).
  { unfold wrap, next, MaxInt in *. rewrite Z.mod_small; lia. }
  assert (Hid : ID (mkMember (cluster_Name c +:+ "-" +:+ Itoa next) (cluster_Namespace c))
                = next).
  { apply ID_of_numbered. unfold next. lia. }
  eexists. split; [unfold newMember; cbv [mbind M_bind get mret M_ret]; fold c next;
                   by rewrite Hw|].
  cbn [Name Namespace]. split_and!; try done.
  - apply clusterNameFromMemberName_joined.
    apply occurs_Itoa_nonneg. unfold next. lia.
  - intros k m' Hk. specialize (Hub _ _ Hk). rewrite Hid.
    split; [unfold next; lia|]. intros Heq.
    assert (ID m' = next); [|unfold next in *; lia].
    rewrite <-Hid. unfold ID. by rewrite Heq.
  - set (m := mkMember _ _) in *.
    pose proof (MaxMemberID_upper (Add (members c) m)) as Hub'.
    pose proof (MaxMemberID_attained (Add (members c) m)) as Hatt.
    assert (Hle : next ≤ MaxMemberID (Add (members c) m)).
    { rewrite <-Hid. apply (Hub' (Name m)). unfold Add. by rewrite lookup_insert_eq. }
    destruct Hatt as [Hz|(k & m' & Hk & Heq)]; [unfold next in *; lia|].
    unfold Add in Hk. apply lookup_insert_Some in Hk as [[_ <-]|[_ Hk]]; [by rewrite <-Heq|].
    specialize (Hub _ _ Hk). unfold next in *. lia.
Qed.

Lemma newMember_fresh_witness :
  let s := cluster_of 7 ["c-3"; "c-7"; "c-1"] in
  ∃ m, newMember s = (Val m, s)
       ∧ Name m = "c" +:+ "-" +:+ Itoa (7 + 1)
       ∧ Namespace m = "default"
       ∧ ID m = 7 + 1
       ∧ clusterNameFromMemberName (Name m) = Val "c"
       ∧ (∀ k m', members (this s) !! k = Some m' → ID m' < ID m ∧ Name m' ≠ Name m)
       ∧ MaxMemberID (Add (members (this s)) m) = 7 + 1.
Proof.
  intros s. apply (newMember_fresh s). by vm_compute.
Defined.

(** X4.  every operation that builds or changes a member set files each
    member under its own name, so a set keyed by name stays keyed by name. *)
Theorem keyed_by_name_kept
    (ms other : MemberSet) (m : Member) (name ns : string)
    (l : list Member) (pods : list Pod) (lines : list string) :
  keyed_by_name ms →
  keyed_by_name (Add ms m)
  ∧ keyed_by_name (Remove ms name)
  ∧ keyed_by_name (Diff ms other)
  ∧ keyed_by_name (NewMemberSet l)
  ∧ keyed_by_name (podsToMemberSet pods)
  ∧ (∀ rebuilt, members_of_config ns lines ms = Val rebuilt → keyed_by_name rebuilt).
Proof.
  intros Hk.
  assert (Hadd : ∀ (ms : MemberSet) m, keyed_by_name ms → keyed_by_name (Add ms m)).
  { intros ms' m' Hk' k x. unfold Add.
    intros [[<- <-]|[_ ?]]%lookup_insert_Some; [done|by apply Hk']. }
  assert (Hemp : keyed_by_name ∅) by (intros k x; by rewrite lookup_empty).
  split_and!.
  - by apply Hadd.
  - unfold Remove. intros k x [_ ?]%lookup_delete_Some. by apply Hk.
  - intros k x [? _]%Diff_lookup_Some. by apply Hk.
  - unfold NewMemberSet. generalize (∅ : MemberSet), Hemp.
    induction l as [|x l IH]; intros acc Hacc; [done|]. simpl. apply IH.
    by apply (Hadd acc x).
  - unfold podsToMemberSet. generalize (∅ : MemberSet), Hemp.
    induction pods as [|x pods' IH]; intros acc Hacc; [done|]. simpl. apply IH.
    by apply Hadd.
  - revert ms Hk. induction lines as [|line lines' IH]; intros ms' Hk' rebuilt.
    + by intros [= <-].
    + simpl. destruct (member_of_config ns line) as [m0|]; simpl; [|done].
      apply IH. by apply (Hadd ms' m0).
Qed.

Lemma keyed_by_name_kept_witness :
  let ms : MemberSet := {["c-1" := mkMember "c-1" "default"]} in
  keyed_by_name ms
  ∧ keyed_by_name (Add ms (mkMember "c-2" "default"))
  ∧ keyed_by_name (Remove ms "c-1").
Proof.
  intros ms.
  assert (Hk : keyed_by_name ms).
  { intros k m [<- <-]%lookup_singleton_Some. reflexivity. }
  destruct (keyed_by_name_kept ms ∅ (mkMember "c-2" "default")
              "c-1" "default" [] [] [] Hk) as (H1 & H2 & _).
  exact (conj Hk (conj H1 H2)).
Defined.

Lemma podsToMemberSet_skip pods (acc : MemberSet) k :
  k ∉ pod_Name <$> pods →
  foldl (fun ms pod => Add ms (mkMember (pod_Name pod) (pod_Namespace pod))) acc pods !! k
  = acc !! k.
Proof.
  revert acc. induction pods as [|pod pods IH]; intros acc Hk; [done|].
  simpl. rewrite IH by set_solver. unfold Add. cbn [Name].
  apply lookup_insert_ne. set_solver.
Qed.

Lemma podsToMemberSet_dom pods (acc : MemberSet) :
  dom (foldl (fun ms pod => Add ms (mkMember (pod_Name pod) (pod_Namespace pod))) acc pods)
  = dom acc ∪ list_to_set (pod_Name <$> pods).
Proof.
  revert acc. induction pods as [|pod pods IH]; intros acc; simpl; [set_solver|].
  rewrite IH. unfold Add. cbn [Name]. rewrite dom_insert_L. set_solver.
Qed.

(** X5.  [podsToMemberSet] holds exactly one member per pod name: the names of
    the set are the names of the pods, a name listed more than once keeps
    the member of the last pod listed under it, and the set is as large as
    the pod list exactly when no name repeats (never larger). *)
Theorem podsToMemberSet_spec (pods : list Pod) :
  dom (podsToMemberSet pods) = list_to_set (pod_Name <$> pods)
  ∧ (∀ before pod after,
       pods = before ++ pod :: after → pod_Name pod ∉ pod_Name <$> after →
       podsToMemberSet pods !! pod_Name pod
       = Some (mkMember (pod_Name pod) (pod_Namespace pod)))
  ∧ Size (podsToMemberSet pods) ≤ Z.of_nat (length pods)
  ∧ (Size (podsToMemberSet pods) = Z.of_nat (length pods) ↔ NoDup (pod_Name <$> pods)).
Proof.
  assert (Hdom : dom (podsToMemberSet pods) = list_to_set (pod_Name <$> pods)).
  { unfold podsToMemberSet. rewrite podsToMemberSet_dom. set_solver. }
  assert (Hsz : Size (podsToMemberSet pods)
                = Z.of_nat (length (remove_dups (pod_Name <$> pods)))).
  { rewrite Size_dom, Hdom. f_equal.
    rewrite <-(size_list_to_set (C := gset string)) by apply NoDup_remove_dups.
    f_equal. apply set_eq. intros k.
    by rewrite !elem_of_list_to_set, elem_of_remove_dups. }
  assert (Hlen : (length (remove_dups (pod_Name <$> pods)) ≤ length pods)%nat).
  { rewrite <-(length_fmap pod_Name pods). generalize (pod_Name <$> pods).
    induction l as [|x l IH]; simpl; [lia|]. case_decide; simpl; lia. }
  split_and!; [done| |lia|].
  - intros before pod after -> Hlast. unfold podsToMemberSet.
    rewrite foldl_app. simpl. rewrite podsToMemberSet_skip by done.
    unfold Add. cbn [Name]. by rewrite lookup_insert_eq.
  - rewrite Hsz, <-(length_fmap pod_Name pods). generalize (pod_Name <$> pods).
    intros l. split.
    + intros Hl. apply Nat2Z.inj in Hl.
      induction l as [|x l IH]; [constructor|]. simpl in Hl.
      assert (Hle : (length (remove_dups l) ≤ length l)%nat).
      { clear. induction l as [|y l IH]; simpl; [lia|]. case_decide; simpl; lia. }
      case_decide as Hx; simpl in Hl; [lia|].
      constructor; [done|]. apply IH. lia.
    + intros Hnd. f_equal. induction Hnd as [|x l Hx Hnd IH]; [done|].
      simpl. case_decide; [done|]. simpl. by rewrite IH.
Qed.

Lemma Split_pieces_free c s : Forall (fun p => occurs c p = false) (Split s c).
Proof.
  induction s as [|a s IH]; simpl; [by repeat constructor|].
  destruct (Ascii.eqb a c) eqn:Hac; [by constructor|].
  destruct (Split s c) as [|p ps]; simpl.
  - repeat constructor. simpl. by rewrite Hac.
  - inversion_clear IH. constructor; [|done]. simpl. by rewrite Hac.
Qed.

Lemma Atoi_unsigned s : occurs "-" s = false → 0 ≤ (Atoi s).1 ≤ MaxInt.
Proof.
  assert (HM : 0 ≤ MaxInt) by (by vm_compute).
  destruct s as [|a s]; simpl; [lia|].
  destruct (Ascii.eqb a "-") eqn:Ha; [done|]. intros _. simpl.
  assert (Hgo : ∀ body, 0 ≤ (match ParseUint 0 body with
                  | Number un => if un <? MinInt then (MinInt, false)
                                 else if MaxInt <? un then (MaxInt, false) else (un, true)
                  | ErrRange => (MaxInt, false)
                  | ErrSyntax => (0, false) end).1 ≤ MaxInt).
  { intros body. destruct (ParseUint 0 body) as [un| |] eqn:Hun; simpl; [|lia..].
    apply ParseUint_nonneg in Hun; [|done].
    destruct (un <? MinInt) eqn:H1; [apply Z.ltb_lt in H1; unfold MinInt in H1; lia|].
    destruct (MaxInt <? un) eqn:H2; simpl; [lia|]. apply Z.ltb_ge in H2. lia. }
  destruct (Ascii.eqb a "+"); [destruct s; [simpl; lia|apply Hgo]|apply Hgo].
Qed.

(** What is no number reads as 0, as long as it is short enough not to
    overflow before the character that is no digit is met. *)
Lemma Atoi_syntax s :
  occurs "-" s = false → (String.length s ≤ 20)%nat →
  unsigned s = EmptyString ∨ digits_val 0 (unsigned s) = None →
  Atoi s = (0, false).
Proof.
  destruct s as [|a s]; [done|]. cbn [occurs unsigned Atoi String.length].
  destruct (Ascii.eqb a "-") eqn:Ha; [done|]. intros _ Hlen Hno. cbn [orb].
  assert (Hgo : ∀ body, (String.length body ≤ 20)%nat → digits_val 0 body = None →
            ParseUint 0 body = ErrSyntax).
  { intros body Hb Hd. apply ParseUint_syntax; [done|done|].
    rewrite Z.mul_1_l. apply Z.pow_le_mono_r; lia. }
  destruct (Ascii.eqb a "+").
  - destruct s as [|b s]; [done|].
    destruct Hno as [Hno|Hno]; [done|]. rewrite Hgo; [done| |done].
    cbn [String.length] in *. lia.
  - destruct Hno as [Hno|Hno]; [done|]. by rewrite Hgo.
Qed.

(** X6.  the ID of a member is read off what follows the last dash of its
    name.  It is never negative and never above the largest [int]; a name
    ["<cluster>-<n>"] has the ID [n] for every [n] an [int] can hold, while
    the dash of a negative number is taken for the separator, so that
    ["<cluster>--<n>"] has the ID [n] as well.  A name that ends in a dash
    has the ID 0, and so has every name whose suffix, of up to twenty
    characters, is no number: neither digits nor digits after one [+].
    Longer suffixes are read from the left, and one that opens with digits
    beyond 64 bits is out of range before the character that is no digit is
    met: its ID is the largest [int]. *)
Theorem ID_spec (m : Member) (cn suffix : string) (n : Z) :
  0 ≤ ID m ≤ MaxInt
  ∧ (0 ≤ n ≤ MaxInt →
       ID (mkMember (cn +:+ "-" +:+ Itoa n) (Namespace m)) = n
       ∧ ID (mkMember (cn +:+ "-" +:+ Itoa (- n)) (Namespace m)) = n)
  ∧ ID (mkMember (cn +:+ "-") (Namespace m)) = 0
  ∧ ID (mkMember (cn +:+ "-new") (Namespace m)) = 0
  ∧ (occurs "-" suffix = false →
     (String.length suffix ≤ 20)%nat →
     unsigned suffix = EmptyString ∨ digits_val 0 (unsigned suffix) = None →
     ID (mkMember (cn +:+ "-" +:+ suffix) (Namespace m)) = 0)
  ∧ ID (mkMember (cn +:+ "-18446744073709551615x") (Namespace m)) = 0
  ∧ ID (mkMember (cn +:+ "-18446744073709551616x") (Namespace m)) = MaxInt.
Proof.
  refine (conj _ (conj _ (conj _ (conj _ (conj _ (conj _ _)))))).
  - unfold ID. apply Atoi_unsigned.
    pose proof (Split_pieces_free "-" (Name m)) as Hall.
    pose proof (Split_nonempty (Name m) "-") as Hne.
    induction Hall as [|p ps Hp Hall IH]; [done|].
    destruct ps as [|q ps]; [done|]. by apply IH.
  - intros Hn. split; [by apply ID_of_numbered|].
    destruct (decide (n = 0)) as [->|Hn0]; [by apply ID_of_numbered|].
    destruct n as [|p|p]; [done| |lia]. change (- Z.pos p) with (Z.neg p).
    rewrite Itoa_neg. unfold ID. cbn [Name].
    replace (cn +:+ "-" +:+ String "-" (NilEmpty.string_of_uint (Pos.to_uint p)))
      with ((cn +:+ "-") +:+ String "-" (Itoa (Z.pos p))).
    2:{ rewrite Itoa_pos, app_assoc_s. done. }
    rewrite Split_last by (apply occurs_Itoa_nonneg; lia).
    by rewrite Atoi_Itoa by (unfold MinInt, MaxInt in *; lia).
  - unfold ID. cbn [Name].
    replace (cn +:+ "-") with (cn +:+ String "-" EmptyString) by done.
    by rewrite Split_last.
  - unfold ID. cbn [Name].
    replace (cn +:+ "-new") with (cn +:+ String "-" "new") by done.
    by rewrite Split_last.
  - intros Hfree Hlen Hno. unfold ID. cbn [Name].
    change (cn +:+ "-" +:+ suffix) with (cn +:+ String "-" suffix).
    rewrite Split_last by done. by rewrite Atoi_syntax.
  - unfold ID. cbn [Name].
    replace (cn +:+ "-18446744073709551615x")
      with (cn +:+ String "-" "18446744073709551615x") by done.
    by rewrite Split_last.
  - unfold ID. cbn [Name].
    replace (cn +:+ "-18446744073709551616x")
      with (cn +:+ String "-" "18446744073709551616x") by done.
    by rewrite Split_last.
Qed.

(** ** The algebra of member sets *)

Lemma Diff_empty_iff (A B : MemberSet) : Diff A B = ∅ ↔ dom A ⊆ dom B.
Proof.
  rewrite <-(dom_empty_iff_L (Diff A B)), dom_Diff. split.
  - intros He k Hk. destruct (decide (k ∈ dom B)); [done|]. set_solver.
  - set_solver.
Qed.

Lemma IsEqual_dom (A B : MemberSet) : IsEqual A B = true ↔ dom A = dom B.
Proof.
  rewrite IsEqual_true, !Size_dom. split; [by intros [_ ?]|]. by intros ->.
Qed.

(** X7.  [Diff] splits a set of running pods along the members: the unknown
    part [running.Diff(members)] and the surviving part
    [running.Diff(unknown)] have no name in common and together hold every
    running pod; the surviving part holds the names that are both running
    and members; a difference is empty exactly when every name of the first
    set is in the second. *)
Theorem Diff_partition (running ms : MemberSet) :
  let unknown := Diff running ms in
  let L := Diff running unknown in
  dom unknown ∪ dom L = dom running
  ∧ dom unknown ∩ dom L = ∅
  ∧ dom L = dom running ∩ dom ms
  ∧ Size unknown + Size L = Size running
  ∧ (∀ k m, L !! k = Some m ↔ running !! k = Some m ∧ is_Some (ms !! k))
  ∧ (Diff running ms = ∅ ↔ dom running ⊆ dom ms)
  ∧ Diff ∅ ms = ∅
  ∧ Diff running ∅ = running.
Proof.
  intros unknown L.
  assert (HdL : dom L = dom running ∩ dom ms).
  { unfold L, unknown. rewrite !dom_Diff. apply set_eq. intros k.
    destruct (decide (k ∈ dom ms)); set_solver. }
  assert (Hdu : dom unknown = dom running ∖ dom ms) by apply dom_Diff.
  split_and!.
  - rewrite HdL, Hdu. apply set_eq. intros k. destruct (decide (k ∈ dom ms)); set_solver.
  - rewrite HdL, Hdu. set_solver.
  - done.
  - rewrite !Size_dom, HdL, Hdu, <-Nat2Z.inj_add. f_equal.
    rewrite <-size_union by set_solver. f_equal.
    apply set_eq. intros k. destruct (decide (k ∈ dom ms)); set_solver.
  - intros k m. unfold L, unknown. rewrite Diff_lookup_Some, Diff_lookup_None.
    split.
    + intros [Hr [Hn|Hs]]; [congruence|]. done.
    + intros [Hr Hs]. split; [done|]. by right.
  - apply Diff_empty_iff.
  - apply map_empty. intros k. apply Diff_lookup_None. by left.
  - apply Diff_empty_r.
Qed.

(** X8.  [IsEqual] is an equivalence on member sets that compares names
    only: it is symmetric and transitive, it holds exactly when each set
    has no member outside the other, and sets that are equal in that sense
    may still differ in the namespaces of their members. *)
Theorem IsEqual_equivalence (A B C : MemberSet) :
  IsEqual A B = IsEqual B A
  ∧ (IsEqual A B = true → IsEqual B C = true → IsEqual A C = true)
  ∧ (IsEqual A B = true ↔ Diff A B = ∅ ∧ Diff B A = ∅)
  ∧ (IsEqual A B = true ↔ dom A = dom B)
  ∧ IsEqual (Add ∅ (mkMember "c-1" "ns1")) (Add ∅ (mkMember "c-1" "ns2")) = true.
Proof.
  pose proof IsEqual_dom as Hdom. pose proof Diff_empty_iff as Hemp.
  split_and!.
  - destruct (IsEqual A B) eqn:H1, (IsEqual B A) eqn:H2; try done.
    + apply Hdom in H1. symmetry in H1. apply Hdom in H1. congruence.
    + apply Hdom in H2. symmetry in H2. apply Hdom in H2. congruence.
  - rewrite !Hdom. congruence.
  - rewrite Hdom, !Hemp. set_solver.
  - apply Hdom.
  - by vm_compute.
Qed.

(** X9.  [Add] files a member under its name and [Remove] deletes a name.
    Adding a member whose name is new grows the set by one and removing it
    again gives the set back; adding under a name already there replaces
    that member and keeps the size; removing a name that is there shrinks
    the set by one, removing any other name changes nothing; removing a
    member and adding it back restores a set keyed by name. *)
Theorem Add_Remove_spec (ms : MemberSet) (m : Member) (name : string) :
  Add ms m !! Name m = Some m
  ∧ dom (Add ms m) = {[Name m]} ∪ dom ms
  ∧ dom (Remove ms name) = dom ms ∖ {[name]}
  ∧ (ms !! Name m = None →
       Size (Add ms m) = Size ms + 1 ∧ Remove (Add ms m) (Name m) = ms)
  ∧ (is_Some (ms !! Name m) → Size (Add ms m) = Size ms)
  ∧ (is_Some (ms !! name) → Size (Remove ms name) = Size ms - 1)
  ∧ (ms !! name = None → Remove ms name = ms)
  ∧ (ms !! Name m = Some m → Add (Remove ms (Name m)) m = ms)
  ∧ Add (Add ms m) m = Add ms m
  ∧ Remove (Remove ms name) name = Remove ms name.
Proof.
  unfold Add, Remove, Size. split_and!.
  - by rewrite lookup_insert_eq.
  - by rewrite dom_insert_L.
  - by rewrite dom_delete_L.
  - intros Hm. split; [rewrite map_size_insert_None by done; lia|].
    by rewrite delete_insert_eq, delete_id.
  - intros Hm. by rewrite map_size_insert_Some.
  - intros [x Hx]. assert (size ms ≠ 0%nat) by (by eapply map_size_ne_0_lookup_2).
    rewrite map_size_delete_Some by eauto. lia.
  - apply delete_id.
  - intros Hm. by rewrite insert_delete_eq, insert_id.
  - by rewrite insert_insert_eq.
  - by rewrite delete_delete_eq.
Qed.

(** ** Addresses and the lists built from them *)

Lemma mapR_Panic_elem {A B} (f : A → result B) l p :
  mapR f l = Panic p → ∃ x, x ∈ l ∧ f x = Panic p.
Proof.
  induction l as [|x l IH]; [done|]. simpl.
  destruct (f x) as [y|q] eqn:Hx; simpl.
  - destruct (mapR f l) as [ys|q]; simpl; [done|]. intros [= ->].
    destruct IH as (x' & ? & ?); [done|]. exists x'. split; [by right|done].
  - intros [= ->]. exists x. split; [left|done].
Qed.

Lemma mapR_length {A B} (f : A → result B) l r :
  mapR f l = Val r → length r = length l.
Proof.
  revert r. induction l as [|x l IH]; intros r.
  - by intros [= <-].
  - intros (y & ys & _ & Hys & ->)%mapR_cons_Val. simpl. f_equal. by apply IH.
Qed.

Lemma first_false {A} (f : A → bool) l x :
  x ∈ l → f x = false →
  ∃ before y after, l = before ++ y :: after
                    ∧ Forall (fun z => f z = true) before ∧ f y = false.
Proof.
  intros Hin Hx. induction l as [|z l IH]; [by apply elem_of_nil in Hin|].
  destruct (f z) eqn:Hz.
  - apply elem_of_cons in Hin as [->|Hin]; [congruence|].
    destruct (IH Hin) as (bf & y & af & -> & Hbf & Hy).
    exists (z :: bf), y, af. split_and!; [done|by constructor|done].
  - exists [], z, l. by split_and!.
Qed.

Lemma mapR_first_panic {A B} (f : A → result B) before x after p :
  Forall (fun z => ∃ y, f z = Val y) before → f x = Panic p →
  mapR f (before ++ x :: after) = Panic p.
Proof.
  intros Hb Hx. induction Hb as [|z b [y Hz] Hb IH]; simpl.
  - by rewrite Hx.
  - by rewrite Hz, IH.
Qed.

Lemma Addr_cases m :
  (occurs "-" (Name m) = true ∧ ∃ a, Addr m = Val a)
  ∨ (occurs "-" (Name m) = false ∧ Addr m = Panic (PanicMemberName (Name m))).
Proof.
  destruct (occurs "-" (Name m)) eqn:Hd.
  - left. split; [done|]. destruct (Addr_plain m Hd) as (cn & -> & _). eauto.
  - right. split; [done|]. unfold Addr.
    apply clusterNameFromMemberName_Panic in Hd. by rewrite Hd.
Qed.

Lemma traversal_elem (ρ : traversal) (ms : MemberSet) nm :
  fair ρ ms → nm ∈ ρ ms ↔ ms !! nm.1 = Some nm.2.
Proof. intros Hf. unfold fair in Hf. destruct nm. by rewrite Hf, elem_of_map_to_list. Qed.

Lemma ClusterConfig_dashed (ρ : traversal) (ms : MemberSet) :
  fair ρ ms → (∀ k m, ms !! k = Some m → occurs "-" (Name m) = true) →
  ∃ cfg, ClusterConfig ρ ms = Val cfg.
Proof.
  intros Hf Hall.
  destruct (mapR_total (fun nm : string * Member => server_line "participant" nm.2) (ρ ms))
    as [lines Hlines].
  { intros nm Hnm%(traversal_elem _ _ _ Hf). unfold server_line.
    destruct (Addr_cases nm.2) as [(_ & a & ->)|[Hd _]]; [by eexists|].
    rewrite (Hall _ _ Hnm) in Hd. done. }
  exists (sort_Strings lines). unfold ClusterConfig. by rewrite Hlines.
Qed.

Lemma ClientHostList_dashed (ρ : traversal) (ms : MemberSet) :
  fair ρ ms → (∀ k m, ms !! k = Some m → occurs "-" (Name m) = true) →
  ∃ hosts, ClientHostList ρ ms = Val hosts.
Proof.
  intros Hf Hall. apply mapR_total.
  intros nm Hnm%(traversal_elem _ _ _ Hf). unfold client_host.
  destruct (Addr_cases nm.2) as [(_ & a & ->)|[Hd _]]; [by eexists|].
  rewrite (Hall _ _ Hnm) in Hd. done.
Qed.

Lemma ClientHostList_nonempty (ρ : traversal) (ms : MemberSet) hosts :
  fair ρ ms → ClientHostList ρ ms = Val hosts → ms ≠ ∅ → hosts ≠ [].
Proof.
  intros Hf Hh Hne ->. apply mapR_length in Hh. simpl in Hh.
  symmetry in Hh. apply length_zero_iff_nil in Hh.
  unfold fair in Hf. rewrite Hh in Hf. symmetry in Hf.
  apply Permutation_nil_r in Hf. by apply map_to_list_empty_iff in Hf.
Qed.

Lemma ClientHostList_empty (ρ : traversal) (ms : MemberSet) :
  fair ρ ms → ms = ∅ → ClientHostList ρ ms = Val [].
Proof.
  intros Hf ->. unfold fair in Hf. rewrite map_to_list_empty in Hf.
  apply Permutation_nil_r in Hf. unfold ClientHostList. by rewrite Hf.
Qed.

(** X10.  the address of a member exists exactly when its name has a dash, and
    the lists built from the addresses inherit this: over a set in which
    every name has a dash [ClusterConfig] and [ClientHostList] return one
    entry per member; over any other set both panic with the unexpected
    member name of one such member. *)
Theorem ClusterConfig_ClientHostList_total (ρ : traversal) (ms : MemberSet) :
  fair ρ ms →
  ((∀ k m, ms !! k = Some m → occurs "-" (Name m) = true) →
     ∃ cfg hosts,
       ClusterConfig ρ ms = Val cfg ∧ ClientHostList ρ ms = Val hosts
       ∧ Z.of_nat (length cfg) = Size ms ∧ Z.of_nat (length hosts) = Size ms)
  ∧ (∀ k m, ms !! k = Some m → occurs "-" (Name m) = false →
       ∃ k' m', ms !! k' = Some m' ∧ occurs "-" (Name m') = false
                ∧ ClusterConfig ρ ms = Panic (PanicMemberName (Name m'))
                ∧ ClientHostList ρ ms = Panic (PanicMemberName (Name m'))).
Proof.
  intros Hf. pose proof Hf as Hf0. unfold fair in Hf0.
  assert (Hin : ∀ nm, nm ∈ ρ ms ↔ ms !! nm.1 = Some nm.2).
  { intros [k m]. by rewrite Hf0, elem_of_map_to_list. }
  assert (Hlen : length (ρ ms) = size ms) by (by rewrite Hf0, length_map_to_list).
  split.
  - intros Hall.
    destruct (ClusterConfig_dashed ρ ms Hf Hall) as [cfg Hcfg].
    destruct (ClientHostList_dashed ρ ms Hf Hall) as [hosts Hhosts].
    exists cfg, hosts. split_and!; try done.
    + by apply (ClusterConfig_length ρ).
    + unfold ClientHostList in Hhosts. unfold Size.
      by rewrite (mapR_length _ _ _ Hhosts), Hlen.
  - intros k m Hk Hd.
    assert (Hfirst : ∃ before nm after,
              ρ ms = before ++ nm :: after
              ∧ Forall (fun x : string * Member => occurs "-" (Name x.2) = true) before
              ∧ occurs "-" (Name nm.2) = false).
    { apply (first_false (fun x : string * Member => occurs "-" (Name x.2)) _ (k, m));
        [by apply Hin|done]. }
    destruct Hfirst as (before & nm & after & Heq & Hb & Hnm).
    exists nm.1, nm.2. split; [apply Hin; rewrite Heq; set_solver|]. split; [done|].
    assert (Haddr : Addr nm.2 = Panic (PanicMemberName (Name nm.2))).
    { destruct (Addr_cases nm.2) as [[Hd' _]|[_ ->]]; [congruence|done]. }
    assert (Hok : Forall (fun x : string * Member => ∃ a, Addr x.2 = Val a) before).
    { eapply Forall_impl; [exact Hb|]. intros x Hx. simpl in Hx.
      destruct (Addr_cases x.2) as [(_ & a & ->)|[Hd' _]]; [eauto|congruence]. }
    unfold ClusterConfig, ClientHostList. rewrite Heq. split.
    + rewrite (mapR_first_panic _ before nm after (PanicMemberName (Name nm.2))); [done| |].
      * eapply Forall_impl; [exact Hok|]. intros x [a Ha]. unfold server_line.
        rewrite Ha. by eexists.
      * unfold server_line. by rewrite Haddr.
    + rewrite (mapR_first_panic _ before nm after (PanicMemberName (Name nm.2))); [done| |].
      * eapply Forall_impl; [exact Hok|]. intros x [a Ha]. unfold client_host.
        rewrite Ha. by eexists.
      * unfold client_host. by rewrite Haddr.
Qed.

Lemma ClusterConfig_ClientHostList_total_witness :
  ∃ cfg hosts,
    ClusterConfig listed (set_of ["c-1"; "c-2"]) = Val cfg
    ∧ ClientHostList listed (set_of ["c-1"; "c-2"]) = Val hosts
    ∧ Z.of_nat (length cfg) = Size (set_of ["c-1"; "c-2"])
    ∧ Z.of_nat (length hosts) = Size (set_of ["c-1"; "c-2"]).
Proof.
  apply (ClusterConfig_ClientHostList_total listed (set_of ["c-1"; "c-2"])
           (listed_fair _)).
  intros k m Hk.
  assert (Hall : map_Forall (fun _ m => occurs "-" (Name m) = true) (set_of ["c-1"; "c-2"])).
  { apply map_Forall_to_list. vm_compute. repeat constructor. }
  exact (Hall k m Hk).
Defined.

(** X11.  [String] lists the names of a member set, separated by commas, in
    the order of the traversal: cut at the commas it gives back the names of
    the set, each once, provided the set is not empty and no name holds a
    comma; the empty set prints as the empty string. *)
Theorem MemberSet_String_names (ρ : traversal) (ms : MemberSet) :
  fair ρ ms →
  (ms = ∅ → MemberSet_String ρ ms = EmptyString)
  ∧ (ms ≠ ∅ → (∀ k, k ∈ dom ms → occurs "," k = false) →
       Split (MemberSet_String ρ ms) "," ≡ₚ elements (dom ms)
       ∧ NoDup (Split (MemberSet_String ρ ms) ",")).
Proof.
  intros Hf. unfold fair in Hf. unfold MemberSet_String. split.
  - intros ->. rewrite map_to_list_empty in Hf.
    apply Permutation_nil_r in Hf. by rewrite Hf.
  - intros Hne Hfree.
    assert (Hnd : NoDup (ρ ms).*1).
    { rewrite Hf. apply NoDup_fst_map_to_list. }
    assert (Hkeys : (ρ ms).*1 ≡ₚ elements (dom ms)).
    { apply NoDup_Permutation; [done|apply NoDup_elements|].
      intros k. rewrite elem_of_elements, elem_of_dom, Hf, list_elem_of_fmap.
      split.
      - intros ([k' m] & -> & Hin%elem_of_map_to_list). eauto.
      - intros [m Hm]. exists (k, m). split; [done|]. by apply elem_of_map_to_list. }
    rewrite Split_Join.
    + split; [done|]. done.
    + intros Hnil. apply fmap_nil_inv in Hnil. rewrite Hnil in Hf.
      symmetry in Hf. apply Permutation_nil_r in Hf. by apply map_to_list_empty_iff in Hf.
    + apply Forall_forall. intros k Hk. apply Hfree.
      rewrite Hkeys in Hk. by apply elem_of_elements in Hk.
Qed.

Lemma MemberSet_String_names_witness :
  (set_of ["c-1"; "c-2"] = ∅ → MemberSet_String listed (set_of ["c-1"; "c-2"]) = EmptyString)
  ∧ (set_of ["c-1"; "c-2"] ≠ ∅ →
     (∀ k, k ∈ dom (set_of ["c-1"; "c-2"]) → occurs "," k = false) →
       Split (MemberSet_String listed (set_of ["c-1"; "c-2"])) ","
         ≡ₚ elements (dom (set_of ["c-1"; "c-2"]))
       ∧ NoDup (Split (MemberSet_String listed (set_of ["c-1"; "c-2"])) ",")).
Proof.
  exact (MemberSet_String_names listed (set_of ["c-1"; "c-2"]) (listed_fair _)).
Defined.

(** ** The payload of the ensemble *)



(** ** Reading a server line *)

Lemma Split_two c s :
  occurs c s = true → ∃ a b rest, Split s c = a :: b :: rest.
Proof.
  induction s as [|x s IH]; [done|]. simpl.
  destruct (Ascii.eqb x c).
  - intros _. pose proof (Split_nonempty s c).
    destruct (Split s c) as [|b rest]; [done|]. eauto.
  - intros (a & b & rest & ->)%IH. eauto.
Qed.

Lemma Split_pieces_keep c c' s :
  occurs c' s = false → Forall (fun p => occurs c' p = false) (Split s c).
Proof.
  induction s as [|x s IH]; simpl; [by repeat constructor|].
  destruct (Ascii.eqb x c') eqn:Hx; [done|]. intros Hs. specialize (IH Hs).
  destruct (Ascii.eqb x c).
  - by constructor.
  - destruct (Split s c) as [|p ps].
    + repeat constructor. simpl. by rewrite Hx.
    + inversion_clear IH. constructor; [|done]. simpl. by rewrite Hx.
Qed.

Lemma Split_head c s : ∃ p ps, Split s c = p :: ps ∧ occurs c p = false.
Proof.
  pose proof (Split_pieces_free c s) as Hall.
  pose proof (Split_nonempty s c).
  destruct (Split s c) as [|p ps]; [done|]. inversion_clear Hall. eauto.
Qed.

Lemma member_of_config_free ns l :
  occurs ";" l = false → member_of_config ns l = Panic PanicIndex.
Proof. intros Hl. unfold member_of_config. by rewrite Split_free. Qed.

Lemma member_of_config_cut ns l :
  occurs ";" l = true →
  ∃ m, member_of_config ns l = Val m
       ∧ Namespace m = ns
       ∧ occurs "." (Name m) = false ∧ occurs ":" (Name m) = false
       ∧ occurs ";" (Name m) = false.
Proof.
  intros (a & b & rest & Hs)%Split_two. unfold member_of_config. rewrite Hs.
  pose proof (Split_pieces_free ";" l) as Hsemi. rewrite Hs in Hsemi.
  apply Forall_cons in Hsemi as [_ [Hb _]%Forall_cons].
  cbn [at_ lookup list_lookup mbind result_bind].
  destruct (Split_head ":" b) as (h & hs & Hh & Hcol). rewrite Hh.
  pose proof (Split_pieces_keep ":" ";" b Hb) as Hh2. rewrite Hh in Hh2.
  apply Forall_cons in Hh2 as [Hh2 _].
  cbn [at_ lookup list_lookup mbind result_bind].
  destruct (Split_head "." h) as (n & ns' & Hn & Hdot). rewrite Hn.
  pose proof (Split_pieces_keep "." ":" h Hcol) as Hn2. rewrite Hn in Hn2.
  apply Forall_cons in Hn2 as [Hn2 _].
  pose proof (Split_pieces_keep "." ";" h Hh2) as Hn3. rewrite Hn in Hn3.
  apply Forall_cons in Hn3 as [Hn3 _].
  cbn [at_ lookup list_lookup mbind result_bind].
  eexists. split; [done|]. by cbn [Name Namespace].
Qed.

Lemma members_of_config_cases ns lines acc :
  (Forall (fun l => occurs ";" l = true) lines
   ∧ ∃ rebuilt, members_of_config ns lines acc = Val rebuilt)
  ∨ (Exists (fun l => occurs ";" l = false) lines
     ∧ members_of_config ns lines acc = Panic PanicIndex).
Proof.
  revert acc. induction lines as [|l lines' IH]; intros acc.
  - left. split; [constructor|]. by eexists.
  - simpl. destruct (occurs ";" l) eqn:Hl.
    + destruct (member_of_config_cut ns l Hl) as (m & -> & _). simpl.
      destruct (IH (<[Name m := m]> acc)) as [[Hall Hr]|[Hex Hp]].
      * left. split; [by constructor|done].
      * right. split; [by apply Exists_cons_tl|done].
    + right. rewrite (member_of_config_free ns l Hl).
      split; [by apply Exists_cons_hd|done].
Qed.


(** ** The engine, step by step *)

Lemma NewZookeeperPod_dashed m existing cn state cs :
  occurs "-" (Name m) = true →
  ∃ pod, NewZookeeperPod m existing cn state cs = Val pod
         ∧ pod_Name pod = Name m
         ∧ GetZookeeperVersion pod = api.Version cs.
Proof.
  intros Hd. unfold NewZookeeperPod, server_line.
  destruct (Addr_plain m Hd) as (a & -> & _).
  destruct (_ || _); simpl; (eexists; split; [done|]); split; try done;
    unfold GetZookeeperVersion; simpl; by rewrite lookup_insert_eq.
Qed.

Lemma wrap_small n : MinInt ≤ n ≤ MaxInt → wrap n = n.
Proof. unfold wrap, MinInt, MaxInt. intros ?. rewrite Z.mod_small; lia. Qed.

Lemma newMember_next s :
  MaxMemberID (members (this s)) < MaxInt →
  newMember s
  = (Val (mkMember (cluster_Name (this s) +:+ "-"
                      +:+ Itoa (MaxMemberID (members (this s)) + 1))
            (cluster_Namespace (this s))), s).
Proof.
  intros Hmax. pose proof (MaxMemberID_nonneg (members (this s))).
  unfold newMember. cbv [mbind M_bind get mret M_ret].
  rewrite wrap_small; [done|]. unfold MinInt, MaxInt in *. lia.
Qed.

Lemma next_name_fresh (ms : MemberSet) cn :
  keyed_by_name ms → MaxMemberID ms < MaxInt →
  ms !! (cn +:+ "-" +:+ Itoa (MaxMemberID ms + 1)) = None.
Proof.
  intros Hk Hmax. pose proof (MaxMemberID_nonneg ms).
  destruct (ms !! _) as [m'|] eqn:Hm; [|done]. exfalso.
  pose proof (MaxMemberID_upper ms _ _ Hm) as Hle.
  apply Hk in Hm.
  assert (ID m' = MaxMemberID ms + 1); [|lia].
  rewrite <-(ID_of_numbered cn (MaxMemberID ms + 1) EmptyString) by lia.
  unfold ID. by rewrite Hm.
Qed.

Lemma dashed_Remove ms name : dashed ms → dashed (Remove ms name).
Proof. unfold Remove. intros Hd k m [_ Hk]%lookup_delete_Some. by apply (Hd k). Qed.

Lemma keyed_members_of_config ns lines (acc rebuilt : MemberSet) :
  keyed_by_name acc → members_of_config ns lines acc = Val rebuilt →
  keyed_by_name rebuilt.
Proof.
  revert acc. induction lines as [|line lines IH]; intros acc Hk.
  - by intros [= <-].
  - simpl. destruct (member_of_config ns line) as [m0|]; simpl; [|done].
    apply IH. intros k x [[<- <-]|[_ ?]]%lookup_insert_Some; [done|by apply Hk].
Qed.

Lemma members_of_config_from ns lines (acc rebuilt : MemberSet) :
  members_of_config ns lines acc = Val rebuilt →
  ∀ k m, rebuilt !! k = Some m → acc !! k = Some m ∨ Namespace m = ns.
Proof.
  revert acc. induction lines as [|line lines IH]; intros acc.
  - intros [= <-]. by left.
  - simpl. destruct (member_of_config ns line) as [m0|] eqn:Hm0; simpl; [|done].
    intros Hr k m Hk. destruct (IH _ Hr k m Hk) as [Hacc|?]; [|by right].
    apply lookup_insert_Some in Hacc as [[_ <-]|[_ ?]]; [|by left].
    right. by apply member_of_config_Namespace in Hm0.
Qed.

Lemma sound_Add ms m : occurs "-" (Name m) = true → sound ms → sound (Add ms m).
Proof.
  intros Hm [Hk Hd]. unfold Add. split.
  - intros k x [[<- <-]|[_ ?]]%lookup_insert_Some; [done|by apply Hk].
  - intros k x [[<- <-]|[_ ?]]%lookup_insert_Some; [done|by apply (Hd k)].
Qed.

Lemma sound_Remove ms name : sound ms → sound (Remove ms name).
Proof.
  intros [Hk Hd]. split; [|by apply dashed_Remove].
  unfold Remove. intros k x [_ ?]%lookup_delete_Some. by apply Hk.
Qed.

Lemma sound_name ms k : sound ms → is_Some (ms !! k) → occurs "-" k = true.
Proof. intros [Hk Hd] [m Hm]. rewrite <-(Hk _ _ Hm). by apply (Hd k). Qed.

Lemma pod_name_running pods pod :
  pod ∈ pods → pod_Name pod ∈ dom (podsToMemberSet pods).
Proof.
  intros Hin. unfold podsToMemberSet. rewrite podsToMemberSet_dom.
  apply elem_of_union_r, elem_of_list_to_set, list_elem_of_fmap. eauto.
Qed.

Section EngineSteps.
Context `{Env}.

Ltac run :=
  repeat (progress (
    rewrite ?run_bind, ?run_ret, ?run_get, ?run_liftR, ?run_set_members,
      ?run_set_status, ?run_next_range, ?run_invoke;
    cbn [this calls ranges members status Spec cluster_Name cluster_Namespace
         fst snd fmap option_fmap option_map])).

(** X14.  [addMember] puts the member into the member set before it creates
    the pod, and the pod is started with the configuration of the members
    as they were before.  When the creation fails the member stays in the
    set and the error is returned, wrapped, without an event; when it
    succeeds the event follows and the result is nil whatever becomes of
    the event. *)
Theorem addMember_outcomes
    (toAdd : Member) (state : string) (s : State) (existing : list string) (pod : Pod) :
  ClusterConfig (range (ranges s)) (members (this s)) = Val existing →
  NewZookeeperPod toAdd existing (cluster_Name (this s)) state (Spec (this s)) = Val pod →
  let grown := with_members (this s) (Add (members (this s)) toAdd) in
  addMember toAdd state s
  = match pods_create (calls s) pod with
    | Some msg =>
        (Val (Some (ErrorString ("fail to create member's pod (" +:+ Name toAdd
                                 +:+ "): " +:+ msg))),
         mkState grown (calls s ++ [PodsCreate pod]) (S (ranges s)))
    | None =>
        (Val None,
         mkState grown
           (calls s ++ [PodsCreate pod; EventsCreate "New Member Added" (Name toAdd)])
           (S (ranges s)))
    end.
Proof.
  intros Hcfg Hpod grown. unfold addMember, createPod. run. rewrite Hcfg. run.
  rewrite Hpod. run.
  destruct (pods_create (calls s) pod) as [msg|]; run; [done|].
  rewrite eventsCli_Create_run. run. by rewrite <-app_assoc.
Qed.

(** X15.  [replaceDeadMember] of a member of the set.  When the pod of the
    dead member is deleted, a pod of the same name is created as a
    replacement and the member set ends as it began; when the deletion
    fails the pass ends there, with the member gone from the set and no pod
    created.  The deletion does not wait, and the ensemble is not called on
    either path. *)
Theorem replaceDeadMember_outcomes
    (toReplace : Member) (s : State) (existing : list string) (pod : Pod) :
  let ms := members (this s) in
  let name := Name toReplace in
  ms !! name = Some toReplace →
  ClusterConfig (range (ranges s)) (Remove ms name) = Val existing →
  NewZookeeperPod toReplace existing (cluster_Name (this s)) "replacement" (Spec (this s))
    = Val pod →
  let announced := calls s ++ [EventsCreate "Replacing Dead Member" name;
                               EventsCreate "Member Removed" name] in
  let removed := announced ++ [PodsDelete name false] in
  replaceDeadMember toReplace s
  = match pods_delete announced name false with
    | Some msg =>
        (Val (Some (ErrorString ("remove member (" +:+ name +:+ ") failed: " +:+ msg))),
         mkState (with_members (this s) (Remove ms name)) removed (ranges s))
    | None =>
        match pods_create removed pod with
        | Some msg =>
            (Val (Some (ErrorString ("fail to create member's pod (" +:+ name
                                     +:+ "): " +:+ msg))),
             mkState (this s) (removed ++ [PodsCreate pod]) (S (ranges s)))
        | None =>
            (Val None,
             mkState (this s)
               (removed ++ [PodsCreate pod; EventsCreate "New Member Added" name])
               (S (ranges s)))
        end
    end.
Proof.
  intros ms name Hin Hcfg Hpod announced removed.
  assert (Hback : Add (Remove ms name) toReplace = ms).
  { unfold Add, Remove. fold name. by rewrite insert_delete_eq, insert_id. }
  unfold replaceDeadMember, removeMember. run.
  rewrite eventsCli_Create_run. run. rewrite eventsCli_Create_run. run.
  rewrite removePod_run. run.
  fold ms name. rewrite <-!app_assoc. cbn [app]. fold announced.
  destruct (pods_delete announced name false) as [msg|]; run.
  { unfold removed, announced, with_members. by rewrite <-app_assoc. }
  unfold addMember, createPod. run. rewrite Hcfg. run. rewrite Hpod. run.
  rewrite Hback.
  replace (calls s ++ [EventsCreate "Replacing Dead Member" name;
                       EventsCreate "Member Removed" name; PodsDelete name false])
    with removed by (unfold removed, announced; by rewrite <-app_assoc).
  replace (mkCluster (cluster_Name (this s)) (cluster_Namespace (this s))
             (Spec (this s)) ms (status (this s))) with (this s)
    by (unfold ms; by destruct (this s)).
  destruct (pods_create removed pod) as [msg|]; run; [done|].
  rewrite eventsCli_Create_run. run. by rewrite <-app_assoc.
Qed.

Lemma remove_unexpected_all l s :
  (∀ h nm, nm ∈ l → pods_delete h (Name nm.2) true = None) →
  remove_unexpected l s
  = (Val None, mkState (this s) (calls s ++ (prune_call <$> l)) (ranges s)).
Proof.
  revert s. induction l as [|nm l IH]; intros s Hok.
  - cbn [remove_unexpected]. run. simpl. rewrite app_nil_r. by destruct s.
  - cbn [remove_unexpected]. run. rewrite removePod_run. run.
    rewrite (Hok _ nm) by left. run.
    rewrite IH by (intros; apply Hok; by right).
    cbn [this calls ranges fmap list_fmap]. by rewrite <-app_assoc.
Qed.

(** X16.  the loop over the unknown members deletes their pods one after the
    other, waiting for each, in the order of the traversal.  It stops at
    the first deletion that fails and returns that error: the pods before
    it are deleted, the pods after it are not touched.  When no deletion
    fails every unknown pod is deleted and the loop returns nil.  The
    cluster itself is never changed. *)
Theorem remove_unexpected_spec
    (before after : list (string * Member)) (nm : string * Member) (s : State) :
  (∀ h x, x ∈ before → pods_delete h (Name x.2) true = None) →
  let tried := calls s ++ (prune_call <$> before) in
  remove_unexpected (before ++ nm :: after) s
  = match pods_delete tried (Name nm.2) true with
    | Some msg =>
        (Val (Some (ErrorString msg)),
         mkState (this s) (tried ++ [prune_call nm]) (ranges s))
    | None =>
        remove_unexpected after (mkState (this s) (tried ++ [prune_call nm]) (ranges s))
    end
  ∧ ((∀ h x, x ∈ nm :: after → pods_delete h (Name x.2) true = None) →
     remove_unexpected (before ++ nm :: after) s
     = (Val None,
        mkState (this s) (calls s ++ (prune_call <$> before ++ nm :: after)) (ranges s))).
Proof.
  intros Hok tried. split.
  - unfold tried. clear tried. revert s.
    induction before as [|x before IH]; intros s.
    + cbn [app remove_unexpected fmap list_fmap]. run. rewrite removePod_run. run.
      rewrite app_nil_r. by destruct (pods_delete _ _ _); run.
    + cbn [app remove_unexpected]. run. rewrite removePod_run. run.
      rewrite (Hok _ x) by left. run.
      rewrite IH by (intros; apply Hok; by right).
      cbn [this calls ranges fmap list_fmap]. by rewrite <-!app_assoc.
  - intros Hrest. apply remove_unexpected_all.
    intros h x [?|?]%elem_of_app; [by apply Hok|by apply Hrest].
Qed.

(** X17.  whatever a pass of [reconcile] does, and also when it panics, it
    leaves the name, the namespace and the spec of the cluster as they
    were, it only adds to the calls made so far, and the deferred update
    has set [status.Size] to the size of the member set the pass ends
    with. *)
Theorem reconcile_frame (pods : list Pod) (s : State) :
  let out := reconcile pods s in
  cluster_Name (this out.2) = cluster_Name (this s)
  ∧ cluster_Namespace (this out.2) = cluster_Namespace (this s)
  ∧ Spec (this out.2) = Spec (this s)
  ∧ api.status_Size (status (this out.2)) = Size (members (this out.2))
  ∧ ∃ new, calls out.2 = calls s ++ new.
Proof.
  unfold reconcile, defer. run.
  destruct (reconfigure_check_effect (podsToMemberSet pods) s) as [_ Hc].
  destruct (reconfigure_check (podsToMemberSet pods) s) as [r s0].
  cbn [fst snd] in Hc. destruct Hc as [HN HNs HS _ (new0 & Hcalls0 & _)].
  assert (Hend : ∀ (r' : result (option error)) s1,
            cluster_Name (this s1) = cluster_Name (this s) →
            cluster_Namespace (this s1) = cluster_Namespace (this s) →
            Spec (this s1) = Spec (this s) →
            (∃ new, calls s1 = calls s ++ new) →
            let out := (let (r0, s') := (r', s1) in (r0, (refresh_size s').2)) in
            cluster_Name (this out.2) = cluster_Name (this s)
            ∧ cluster_Namespace (this out.2) = cluster_Namespace (this s)
            ∧ Spec (this out.2) = Spec (this s)
            ∧ api.status_Size (status (this out.2)) = Size (members (this out.2))
            ∧ ∃ new, calls out.2 = calls s ++ new).
  { intros r' s1 ? ? ? ?. unfold refresh_size. run. by split_and!. }
  destruct r as [[r|]|p]; run.
  - apply (Hend (Val r) s0); eauto.
  - destruct (_ || _).
    + pose proof (reconcileMembers_effect (podsToMemberSet pods) s0)
        as (_ & HN' & HNs' & HS' & (removed & failed & step & _ & Hcalls' & _) & _).
      cbn zeta in HN', HNs', HS', Hcalls'.
      destruct (reconcileMembers _ s0) as [r1 s1]. cbn [fst snd] in *.
      apply (Hend r1 s1); [congruence..|].
      exists (new0 ++ (prune_call <$> removed) ++ step).
      by rewrite Hcalls', Hcalls0, <-!app_assoc.
    + destruct (upgrade_or_ready_effect pods s0) as [_ [HN' HNs' HS' _ (new1 & Hcalls1 & _)]].
      destruct (upgrade_or_ready pods s0) as [r1 s1]. cbn [fst snd] in *.
      apply (Hend r1 s1); [congruence..|].
      exists (new0 ++ new1). by rewrite Hcalls1, Hcalls0, <-!app_assoc.
  - apply (Hend (Panic p) s0); eauto.
Qed.

(** X18.  [resize] moves the membership by exactly one member toward the size
    of the spec, on a member set keyed by name whose names have their dash
    and whose highest ID is below the largest [int].  At the size of the
    spec nothing happens.  Below it the member [newMember] names is added,
    whether or not its pod can be created, and [resize] returns.  Above it
    the member [PickOne] yields is taken out of the set, and the ensemble is
    reconfigured through the hosts of the members that stay, a list that is
    empty exactly when the last member goes.  When the connect succeeds the
    pod is deleted, waiting, and [resize] returns; when it fails [resize]
    panics in the client, with the member out of the set and no pod deleted.
    So [resize] returns whenever the size of the spec is at least one and
    the ensemble can be connected to through every list of hosts that is not
    empty. *)
Theorem resize_exact (s : State) :
  let ms := members (this s) in
  let want := api.Size (Spec (this s)) in
  keyed_by_name ms → dashed ms → MaxMemberID ms < MaxInt → 0 ≤ want →
  let out := resize s in
  (Size ms = want → out = (Val None, s))
  ∧ (Size ms < want →
       (∃ r, out.1 = Val r)
       ∧ ∃ m pod, newMember s = (Val m, s)
                  ∧ members (this out.2) = Add ms m
                  ∧ Size (members (this out.2)) = Size ms + 1
                  ∧ pod_Name pod = Name m
                  ∧ PodsCreate pod ∈ calls out.2)
  ∧ (want < Size ms →
       ∃ m hosts,
         ms !! Name m = Some m
         ∧ ClientHostList (range (S (ranges s))) (Remove ms (Name m)) = Val hosts
         ∧ (hosts = [] ↔ Size ms = 1)
         ∧ members (this out.2) = Remove ms (Name m)
         ∧ Size (members (this out.2)) = Size ms - 1
         ∧ match zk_connect (calls s) hosts with
           | None => (∃ r, out.1 = Val r)
                     ∧ PodsDelete (Name m) true ∈ calls out.2
           | Some _ => out.1 = Panic PanicClose
                       ∧ deleted (calls out.2) = deleted (calls s)
           end)
  ∧ (connects → 1 ≤ want → ∃ r, out.1 = Val r).
Proof.
  intros ms want Hkey Hdash Hmax Hsize out. unfold out, resize. run. fold ms want.
  destruct (Z.eqb_spec (Size ms) want) as [Heq|Hne].
  { run. split; [done|]. split; [intros; lia|]. split; [intros; lia|].
    intros _ _. by eexists. }
  destruct (Z.ltb_spec (Size ms) want) as [Hlt|Hge].
  - unfold addOneMember. run. fold ms want.
    match goal with
    | |- context [newMember ?s1] =>
        rewrite (newMember_next s1) by done; cbn [this members cluster_Name cluster_Namespace]
    end.
    fold ms. set (m := mkMember _ _).
    assert (Hm : occurs "-" (Name m) = true).
    { unfold m. cbn [Name]. rewrite !occurs_app. cbn. by rewrite orb_true_r. }
    assert (Hnew : ms !! Name m = None).
    { by apply next_name_fresh. }
    unfold addMember, createPod. run. fold ms want.
    destruct (ClusterConfig_dashed (range (ranges s)) ms (range_fair _ _) Hdash)
      as [existing ->].
    run.
    destruct (NewZookeeperPod_dashed m existing (cluster_Name (this s)) "new"
                (Spec (this s)) Hm) as (pod & -> & Hname & _).
    run.
    assert (Hgrow : Size (Add ms m) = Size ms + 1).
    { unfold Size, Add. rewrite map_size_insert_None by done. lia. }
    assert (Hnm : newMember s = (Val m, s)) by (by apply newMember_next).
    destruct (pods_create _ pod) as [msg|]; run.
    + split; [lia|]. split; [|split; [lia|intros _ _; by eexists]]. intros _.
      split; [by eexists|].
      exists m, pod. split_and!; try done. set_solver.
    + rewrite eventsCli_Create_run. run.
      split; [lia|]. split; [|split; [lia|intros _ _; by eexists]]. intros _.
      split; [by eexists|].
      exists m, pod. split_and!; try done. set_solver.
  - assert (Hbig : want < Size ms) by lia.
    assert (Hnemp : ms ≠ ∅).
    { intros Hempty%Size_empty_iff. lia. }
    unfold removeOneMember. run. fold ms want.
    destruct (PickOne_Val (range (ranges s)) ms (range_fair _ _) Hnemp)
      as (k & m & -> & Hk).
    run. pose proof (Hkey _ _ Hk) as <-.
    unfold removeMember. run. fold ms want.
    pose proof (dashed_Remove ms (Name m) Hdash) as Hrest.
    destruct (ClientHostList_dashed (range (S (ranges s))) (Remove ms (Name m))
                (range_fair _ _) Hrest) as [hosts Hhosts].
    rewrite Hhosts. run.
    destruct (ClusterConfig_dashed (range (S (S (ranges s)))) (Remove ms (Name m))
                (range_fair _ _) Hrest) as [cfg ->].
    run.
    assert (Hshrink : Size (Remove ms (Name m)) = Size ms - 1).
    { unfold Size, Remove.
      assert (stdpp.base.size ms ≠ 0%nat) by (by eapply map_size_ne_0_lookup_2).
      rewrite map_size_delete_Some by eauto. lia. }
    assert (Hlast : hosts = [] ↔ Size ms = 1).
    { split.
      - intros ->.
        destruct (decide (Remove ms (Name m) = ∅)) as [He|Hne'].
        + apply Size_empty_iff in He. lia.
        + by destruct (ClientHostList_nonempty _ _ _ (range_fair _ _) Hhosts Hne').
      - intros Hone.
        assert (He : Remove ms (Name m) = ∅) by (apply Size_empty_iff; lia).
        rewrite (ClientHostList_empty _ _ (range_fair _ _) He) in Hhosts.
        by injection Hhosts as <-. }
    match goal with
    | |- context [ReconfigureCluster hosts cfg ?s1] =>
        destruct (ReconfigureCluster_run hosts cfg s1) as (r & new & -> & Hzk & Hr)
    end.
    cbn [calls] in Hr.
    destruct r as [v|p].
    + run. rewrite eventsCli_Create_run. run. rewrite removePod_run. run.
      destruct (pods_delete _ _ _) as [msg|]; run.
      * split; [lia|]. split; [lia|]. split; [|intros _ _; by eexists].
        intros _. exists m, hosts. rewrite Hr.
        split_and!; try done; [by eexists|set_solver].
      * split; [lia|]. split; [lia|]. split; [|intros _ _; by eexists].
        intros _. exists m, hosts. rewrite Hr.
        split_and!; try done; [by eexists|set_solver].
    + destruct Hr as [Hp Hconn]. subst p. run.
      split; [lia|]. split; [lia|]. split.
      * intros _. exists m, hosts.
        destruct (zk_connect (calls s) hosts) as [msg|]; [|done].
        split_and!; try done.
        unfold deleted. rewrite omap_app.
        destruct (zk_calls_quiet _ Hzk) as [Hd _]. unfold deleted in Hd.
        by rewrite Hd, app_nil_r.
      * intros Hconnects Hone. exfalso. apply Hconn, Hconnects.
        rewrite Hlast. lia.
Qed.

(** X19.  [updateMembers] asks the ensemble, through the hosts of the known
    members, and replaces the member set of the cluster by what it reads:
    nothing of the old set is kept.  When the connect fails the call panics
    in the client, on the connection it was not given, and when the read
    fails the error is returned; either way the cluster is left as it
    was.  When every line read has its [;] the new set is keyed by name and
    holds only members in the namespace of the cluster; a line without [;]
    makes the call panic, with the cluster as it was. *)
Theorem updateMembers_outcomes (known : MemberSet) (s : State) (hosts : list string) :
  ClientHostList (range (ranges s)) known = Val hosts →
  ∃ live asked,
    Forall zk_call asked
    ∧ GetClusterConfig hosts (mkState (this s) (calls s) (S (ranges s)))
      = (live, mkState (this s) (calls s ++ asked) (S (ranges s)))
    ∧ match live with
      | Panic _ =>
          zk_connect (calls s) hosts ≠ None
          ∧ updateMembers known s
            = (Panic PanicClose, mkState (this s) (calls s ++ asked) (S (ranges s)))
      | Val (inr err) =>
          zk_connect (calls s) hosts = None
          ∧ updateMembers known s
            = (Val (Some err), mkState (this s) (calls s ++ asked) (S (ranges s)))
      | Val (inl resp) =>
          zk_connect (calls s) hosts = None
          ∧ (Forall (fun l => occurs ";" l = true) resp →
               ∃ rebuilt,
                 members_of_config (cluster_Namespace (this s)) resp ∅ = Val rebuilt
                 ∧ updateMembers known s
                   = (Val None,
                      mkState (with_members (this s) rebuilt) (calls s ++ asked)
                        (S (ranges s)))
                 ∧ keyed_by_name rebuilt
                 ∧ (∀ k m, rebuilt !! k = Some m
                           → Namespace m = cluster_Namespace (this s))
                 ∧ dom rebuilt
                   = list_to_set (name_of_config (cluster_Namespace (this s)) <$> resp))
          ∧ (Exists (fun l => occurs ";" l = false) resp →
               updateMembers known s
               = (Panic PanicIndex, mkState (this s) (calls s ++ asked) (S (ranges s))))
      end.
Proof.
  intros Hhosts. unfold updateMembers. run. rewrite Hhosts. run.
  destruct (GetClusterConfig_run hosts (mkState (this s) (calls s) (S (ranges s))))
    as (live & asked & Hget & Hzk & Hlive). cbn [this calls ranges] in Hget, Hlive.
  exists live, asked. split; [done|]. split; [done|]. rewrite Hget.
  destruct live as [[resp|err]|p]; run; [|done|].
  2:{ destruct Hlive as [Hp Hconn]. subst p. by run. }
  split; [done|].
  destruct (members_of_config_cases (cluster_Namespace (this s)) resp ∅)
    as [[Hall [rebuilt Hr]]|[Hex Hp]].
  - split.
    + intros _. exists rebuilt. rewrite Hr. run. split_and!; try done.
      * apply (keyed_members_of_config (cluster_Namespace (this s)) resp ∅); [|exact Hr].
        intros k m Hk. by rewrite lookup_empty in Hk.
      * intros k m Hk.
        destruct (members_of_config_from _ _ _ _ Hr k m Hk) as [Hemp|?]; [|done].
        by rewrite lookup_empty in Hemp.
      * destruct (members_of_config_spec (cluster_Namespace (this s)) resp ∅)
          as (rebuilt' & Hr' & Hdom & _).
        { intros line Hin. rewrite Forall_forall in Hall.
          destruct (member_of_config_cut (cluster_Namespace (this s)) line (Hall _ Hin))
            as (m & ? & _). eauto. }
        rewrite Hr in Hr'. injection Hr' as <-. rewrite Hdom. set_solver.
    + intros (l & Hin & Hl)%Exists_exists.
      rewrite Forall_forall in Hall. specialize (Hall l Hin). congruence.
  - split.
    + intros Hall. apply Exists_exists in Hex as (l & Hin & Hl).
      rewrite Forall_forall in Hall. specialize (Hall l Hin). congruence.
    + intros _. rewrite Hp. by run.
Qed.

(** X20.  a pass of [reconcile] over a cluster at rest changes nothing.  When
    the running pods are the members, the membership has the size of the
    spec, every pod is at the version of the spec and the ensemble reports
    the configuration of the members, the pass returns nil after one read
    of the ensemble: no pod is created or deleted, no event is recorded, no
    reconfigure is pushed, the member set is as before, and the status is
    set to ready at the version of the spec with the observed size. *)
Theorem reconcile_at_rest
    (pods : list Pod) (s : State) (hosts cfg : list string) (payload : string) :
  let ms := members (this s) in
  let sp := Spec (this s) in
  IsEqual (podsToMemberSet pods) ms = true →
  Size ms = api.Size sp →
  Forall (at_version (api.Version sp)) pods →
  ClientHostList (range (ranges s)) ms = Val hosts →
  ClusterConfig (range (S (ranges s))) ms = Val cfg →
  zk_connect (calls s) hosts = None →
  zk_get (calls s ++ [ZkConnect hosts]) "/zookeeper/config" = Data payload →
  config_lines payload = cfg →
  let ready :=
    api.SetReadyCondition
      (api.SetVersion
         (api.ClearCondition
            (api.ClearCondition (status (this s)) api.ClusterConditionScaling)
            api.ClusterConditionUpgrading)
         (api.Version sp)) in
  reconcile pods s
  = (Val None,
     mkState (with_status (this s) (api.with_Size ready (Size ms)))
       (calls s ++ [ZkConnect hosts; ZkGet "/zookeeper/config"])
       (S (S (ranges s)))).
Proof.
  intros ms sp Heq Hsize Hver Hhosts Hcfg Hconn Hget Hlines ready.
  assert (Hlen : Z.of_nat (length cfg) = Size ms).
  { by apply (ClusterConfig_length (range (S (ranges s)))); [apply range_fair|]. }
  assert (Hup : needUpgrade pods sp = false).
  { unfold needUpgrade. apply andb_false_iff. right.
    apply bool_decide_eq_false. intros Hn. apply Hn.
    by apply pickOneOldMember_None. }
  unfold reconcile, defer, reconfigure_check. run. fold ms sp.
  rewrite Heq. run. fold ms. rewrite Hhosts. run.
  unfold GetClusterConfig. run. rewrite Hconn. run. rewrite Hget. run.
  fold ms. rewrite Hcfg. run. rewrite Hlines.
  rewrite (bool_decide_eq_false_2 (Z.of_nat (length cfg) ≠ Size ms)) by (intros ?; done).
  rewrite (bool_decide_eq_false_2 (cfg ≠ cfg)) by (intros ?; done).
  cbn [orb]. run. cbn [negb orb].
  rewrite (bool_decide_eq_false_2 (Size ms ≠ api.Size sp)) by (intros ?; done).
  unfold upgrade_or_ready. run. fold sp. rewrite Hup. run.
  unfold refresh_size. run. unfold with_status, ready.
  by rewrite <-app_assoc.
Qed.

Ltac returned := eexists _, _; split; [reflexivity|]; split; [|reflexivity].

Lemma addMember_sound toAdd state s :
  occurs "-" (Name toAdd) = true → sound (members (this s)) →
  returns_sound (addMember toAdd state) s.
Proof.
  intros Hm Hs. unfold returns_sound, addMember, createPod. run.
  destruct (ClusterConfig_dashed (range (ranges s)) (members (this s))
              (range_fair _ _) (proj2 Hs)) as [existing ->].
  run.
  destruct (NewZookeeperPod_dashed toAdd existing (cluster_Name (this s)) state
              (Spec (this s)) Hm) as (pod & -> & _).
  run. destruct (pods_create _ pod); run.
  - returned. by apply sound_Add.
  - rewrite eventsCli_Create_run. run. returned. by apply sound_Add.
Qed.

Ltac ended :=
  eexists _, _; split; [reflexivity|]; split; [|split; [reflexivity|]].

Lemma removeMember_sound toRemove isScalingEvent s :
  sound (members (this s)) →
  ends_sound
    (isScalingEvent = true →
     connects ∧ Remove (members (this s)) (Name toRemove) ≠ ∅)
    (removeMember toRemove isScalingEvent) s.
Proof.
  intros Hs. pose proof (sound_Remove _ (Name toRemove) Hs) as Hrest.
  unfold ends_sound, removeMember. run. destruct isScalingEvent; run.
  - destruct (ClientHostList_dashed (range (ranges s))
                (Remove (members (this s)) (Name toRemove))
                (range_fair _ _) (proj2 Hrest)) as [hosts Hhosts].
    rewrite Hhosts. run.
    destruct (ClusterConfig_dashed (range (S (ranges s)))
                (Remove (members (this s)) (Name toRemove))
                (range_fair _ _) (proj2 Hrest)) as [cfg ->].
    run.
    match goal with
    | |- context [ReconfigureCluster hosts cfg ?s1] =>
        destruct (ReconfigureCluster_run hosts cfg s1) as (r & new & -> & _ & Hr)
    end.
    destruct r as [v|p].
    + run. rewrite eventsCli_Create_run. run. rewrite removePod_run. run.
      destruct (pods_delete _ _ _); run;
        (ended; [done|split; [left; by eexists|intros _; by eexists]]).
    + destruct Hr as [Hp Hconn]. subst p. run.
      ended; [done|]. split; [by right|].
      intros Hok. destruct Hok as [Hconnects Hne]; [done|].
      exfalso. apply Hconn, Hconnects.
      by apply (ClientHostList_nonempty _ _ _ (range_fair _ _) Hhosts).
  - rewrite eventsCli_Create_run. run. rewrite removePod_run. run.
    destruct (pods_delete _ _ _); run;
      (ended; [done|split; [left; by eexists|intros _; by eexists]]).
Qed.

Lemma remove_then_add_sound toReplace s :
  occurs "-" (Name toReplace) = true → sound (members (this s)) →
  ∀ isScalingEvent,
    ends_sound
      (isScalingEvent = true →
       connects ∧ Remove (members (this s)) (Name toReplace) ≠ ∅)
      (err ← removeMember toReplace isScalingEvent;
       match err with
       | Some e => mret (Some e)
       | None => addMember toReplace "replacement"
       end) s.
Proof.
  intros Hm Hs b. unfold ends_sound. run.
  destruct (removeMember_sound toReplace b s Hs) as (r & s1 & -> & Hs1 & HS1 & Hr & Hok).
  destruct r as [[e|]|p]; run.
  - eexists _, _. split_and!; [done|done|done|left; by eexists|intros _; by eexists].
  - destruct (addMember_sound toReplace "replacement" s1 Hm Hs1)
      as (r2 & s2 & -> & Hs2 & HS2).
    eexists _, _.
    split_and!; [done|done|cbn [this Spec]; congruence|left; by eexists
                |intros _; by eexists].
  - eexists _, _. split_and!; [done|done|done|done|done].
Qed.

Lemma replaceDeadMember_sound toReplace s :
  occurs "-" (Name toReplace) = true → sound (members (this s)) →
  returns_sound (replaceDeadMember toReplace) s.
Proof.
  intros Hm Hs. unfold returns_sound, replaceDeadMember. run.
  rewrite eventsCli_Create_run. run.
  match goal with
  | |- context [removeMember toReplace false ?s1] =>
      destruct (remove_then_add_sound toReplace s1 Hm Hs false)
        as (r & s2 & Hrun & Hs2 & HS2 & _ & Hok)
  end.
  destruct Hok as [v ->]; [done|].
  rewrite run_bind in Hrun. eexists _, _. split; [exact Hrun|]. by split.
Qed.

Lemma upgradeOneMember_sound name s :
  occurs "-" name = true → sound (members (this s)) →
  ends_sound (connects ∧ Remove (members (this s)) name ≠ ∅)
    (upgradeOneMember name) s.
Proof.
  intros Hm Hs. unfold ends_sound, upgradeOneMember. run.
  destruct (remove_then_add_sound (mkMember name (cluster_Namespace (this s))) s Hm Hs true)
    as (r & s2 & Hrun & Hs2 & HS2 & Hr & Hok).
  rewrite run_bind in Hrun. eexists _, _. split; [exact Hrun|].
  split_and!; [done|done|done|]. intros Hc. by apply Hok.
Qed.

Lemma Remove_nonempty ms name : 2 ≤ Size ms → Remove ms name ≠ ∅.
Proof.
  intros Htwo Hempty. unfold Size in Htwo.
  assert (Hz : stdpp.base.size (Remove ms name) = 0%nat)
    by (by rewrite Hempty, map_size_empty).
  unfold Remove in Hz. destruct (ms !! name) as [m|] eqn:Hl.
  - rewrite map_size_delete_Some in Hz by eauto. lia.
  - rewrite delete_id in Hz by done. lia.
Qed.

Lemma resize_sound s :
  0 ≤ api.Size (Spec (this s)) → sound (members (this s)) →
  ends_sound (connects ∧ 2 ≤ Size (members (this s))) resize s.
Proof.
  intros Hsize Hs. unfold ends_sound, resize. run.
  destruct (Z.eqb_spec (Size (members (this s))) (api.Size (Spec (this s)))).
  { run. eexists _, _.
    split_and!; [done|done|done|left; by eexists|intros _; by eexists]. }
  destruct (Z.ltb_spec (Size (members (this s))) (api.Size (Spec (this s)))).
  - unfold addOneMember, newMember. run.
    match goal with
    | |- context [addMember ?m "new" ?s1] =>
        destruct (addMember_sound m "new" s1) as (r & s2 & -> & Hs2 & HS2);
          [|exact Hs|]
    end.
    { cbn [Name]. rewrite !occurs_app. cbn. by rewrite orb_true_r. }
    eexists _, _.
    split_and!; [done|done|done|left; by eexists|intros _; by eexists].
  - assert (Hnemp : members (this s) ≠ ∅).
    { intros Hempty%Size_empty_iff. lia. }
    unfold removeOneMember. run.
    destruct (PickOne_Val (range (ranges s)) (members (this s)) (range_fair _ _) Hnemp)
      as (k & m & -> & Hk).
    run.
    match goal with
    | |- context [removeMember m true ?s1] =>
        destruct (removeMember_sound m true s1 Hs) as (r & s2 & -> & Hs2 & HS2 & Hr & Hok)
    end.
    cbn [this members] in Hok.
    eexists _, _. split_and!; [done|done|done|done|].
    intros [Hc Htwo]. apply Hok. intros _. split; [done|].
    by apply Remove_nonempty.
Qed.

Lemma reconcileMembers_sound running s :
  0 ≤ api.Size (Spec (this s)) → sound (members (this s)) →
  ends_sound (connects ∧ 2 ≤ Size (members (this s))) (reconcileMembers running) s.
Proof.
  intros Hsize Hs. unfold ends_sound.
  destruct (reconcileMembers_cases running s) as (removed & failed & n & _ & _ & Hcases).
  cbn zeta in Hcases.
  destruct failed as [msg|].
  { rewrite Hcases. eexists _, _.
    split_and!; [done|done|done|left; by eexists|intros _; by eexists]. }
  destruct Hcases as [[_ ->]|[(_ & _ & ->)|(Hne & _ & ->)]].
  - destruct (resize_sound (mkState (this s) (calls s ++ (prune_call <$> removed)) n)
                Hsize Hs) as (r & s2 & -> & Hs2 & HS2 & Hr & Hok).
    eexists _, _. by split_and!.
  - eexists _, _.
    split_and!; [done|done|done|left; by eexists|intros _; by eexists].
  - run.
    destruct (PickOne_Val (range n)
                (Diff (members (this s))
                   (Diff running (Diff running (members (this s)))))
                (range_fair _ _) (dead_member_exists _ _ Hne))
      as (k & m & -> & [Hk _]%Diff_lookup_Some).
    run.
    match goal with
    | |- context [replaceDeadMember m ?s1] =>
        destruct (replaceDeadMember_sound m s1) as (r & s2 & -> & Hs2 & HS2);
          [|exact Hs|]
    end.
    { by apply (proj2 Hs k). }
    eexists _, _.
    split_and!; [done|done|done|left; by eexists|intros _; by eexists].
Qed.

Lemma reconfigure_check_sound running s :
  sound (members (this s)) →
  ∃ r s', reconfigure_check running s = (r, s') ∧ this s' = this s
          ∧ ((∃ v, r = Val v) ∨ r = Panic PanicClose)
          ∧ (connects → members (this s) ≠ ∅ → ∃ v, r = Val v).
Proof.
  intros Hs. unfold reconfigure_check. run.
  destruct (IsEqual running (members (this s))); run;
    [|eexists _, _; split_and!; [done|done|left; by eexists|intros _ _; by eexists]].
  destruct (ClientHostList_dashed (range (ranges s)) (members (this s))
              (range_fair _ _) (proj2 Hs)) as [hosts Hhosts].
  rewrite Hhosts. run.
  assert (Hno : ∀ h, zk_connect h hosts ≠ None →
            connects → members (this s) ≠ ∅ → False).
  { intros h Hconn Hconnects Hne%(ClientHostList_nonempty _ _ _ (range_fair _ _) Hhosts).
    by apply Hconn, Hconnects. }
  match goal with
  | |- context [GetClusterConfig hosts ?s1] =>
      destruct (GetClusterConfig_run hosts s1) as (live & asked & -> & _ & Hlive)
  end.
  destruct live as [[zk|err]|p]; run.
  3:{ destruct Hlive as [Hp Hconn]. subst p.
      eexists _, _. split_and!; [done|done|by right|intros ? ?; exfalso; by eapply Hno]. }
  2:{ eexists _, _. split_and!; [done|done|left; by eexists|intros _ _; by eexists]. }
  destruct (ClusterConfig_dashed (range (S (ranges s))) (members (this s))
              (range_fair _ _) (proj2 Hs)) as [cfg ->].
  run. destruct (_ || _); run;
    [|eexists _, _; split_and!; [done|done|left; by eexists|intros _ _; by eexists]].
  match goal with
  | |- context [ReconfigureCluster hosts cfg ?s1] =>
      destruct (ReconfigureCluster_run hosts cfg s1) as (r & pushed & -> & _ & Hr)
  end.
  destruct r as [[c|err]|p]; run.
  - eexists _, _. split_and!; [done|done|left; by eexists|intros _ _; by eexists].
  - eexists _, _. split_and!; [done|done|left; by eexists|intros _ _; by eexists].
  - destruct Hr as [Hp Hconn]. subst p.
    eexists _, _. split_and!; [done|done|by right|intros ? ?; exfalso; by eapply Hno].
Qed.

Lemma upgrade_or_ready_sound pods s :
  (∀ pod, pod ∈ pods → occurs "-" (pod_Name pod) = true) →
  sound (members (this s)) →
  ends_sound (connects ∧ 2 ≤ Size (members (this s))) (upgrade_or_ready pods) s.
Proof.
  intros Hpods Hs. unfold ends_sound, upgrade_or_ready. run.
  destruct (needUpgrade pods (Spec (this s))) eqn:Hup; run;
    [|eexists _, _;
      split_and!; [done|done|done|left; by eexists|intros _; by eexists]].
  destruct (pickOneOldMember pods _) as [m|] eqn:Hm.
  - apply pickOneOldMember_Some in Hm as (before & pod & after & -> & _ & _ & ->).
    cbn [Name].
    match goal with
    | |- context [upgradeOneMember (pod_Name pod) ?s1] =>
        destruct (upgradeOneMember_sound (pod_Name pod) s1)
          as (r & s2 & -> & Hs2 & HS2 & Hr & Hok); [|exact Hs|]
    end.
    { apply Hpods. set_solver. }
    cbn [this members] in Hok.
    eexists _, _. split_and!; [done|done|done|done|].
    intros [Hc Htwo]. apply Hok. split; [done|]. by apply Remove_nonempty.
  - unfold needUpgrade in Hup. apply andb_true_iff in Hup as [_ Hn%bool_decide_eq_true].
    done.
Qed.

(** X21.  one pass of [reconcile] raises none of the panics of the operator's
    own code and keeps the member set sound.  From a member set in which
    every member is filed under its name and every name has its dash, with
    a spec that does not ask for a negative size, and whatever the pods it
    is given and whatever the API server and the ensemble answer, [PickOne]
    is not called on an empty set, no address is asked of a name without a
    dash, and [pickOneOldMember] is not dereferenced when it is nil: the
    pass returns, or it panics in the ensemble client, on the connection a
    failed [zk.Connect] did not give.  Either way the member set it leaves is
    again filed by name with a dash in every name, and the spec is
    untouched.  When there are at least two members, so that a removal
    leaves a host to connect to, and the ensemble can be connected to through
    every list of hosts that is not empty, the pass returns.  The same holds
    for [reconcileMembers] and [resize] on their own. *)
Theorem reconcile_returns_sound (pods : list Pod) (running : MemberSet) (s : State) :
  0 ≤ api.Size (Spec (this s)) →
  sound (members (this s)) →
  let ok := connects ∧ 2 ≤ Size (members (this s)) in
  ends_sound ok (reconcile pods) s
  ∧ ends_sound ok (reconcileMembers running) s
  ∧ ends_sound ok resize s.
Proof.
  intros Hsize Hs ok.
  split; [|split; [by apply reconcileMembers_sound|by apply resize_sound]].
  unfold ends_sound, reconcile, defer. run.
  destruct (reconfigure_check_sound (podsToMemberSet pods) s Hs)
    as (r & s0 & -> & H0 & Hr0 & Hok0).
  assert (Hs0 : sound (members (this s0))) by (by rewrite H0).
  assert (HS0 : Spec (this s0) = Spec (this s)) by (by rewrite H0).
  assert (Hne : ok → members (this s) ≠ ∅).
  { intros [_ Htwo] Hempty%Size_empty_iff. lia. }
  destruct r as [[r|]|p]; run.
  { unfold refresh_size. run. eexists _, _.
    split_and!; [done|done|done|left; by eexists|intros _; by eexists]. }
  2:{ assert (Hp : p = PanicClose) by (destruct Hr0 as [[v Hv]|Hp]; [done|congruence]).
      subst p. unfold refresh_size. run. eexists _, _.
      split_and!; [done|done|done|by right|].
      intros Hok. destruct Hok0 as [v Hv]; [apply Hok|by apply Hne|done]. }
  destruct (IsEqual (podsToMemberSet pods) (members (this s))) eqn:Heq; cbn [negb orb].
  2:{ destruct (reconcileMembers_sound (podsToMemberSet pods) s0)
        as (r1 & s1 & -> & Hs1 & HS1 & Hr1 & Hok1); [by rewrite HS0|done|].
      unfold refresh_size. run. eexists _, _.
      split_and!; [done|done|cbn [this Spec]; congruence|done|].
      intros Hok. apply Hok1. by rewrite H0. }
  case_bool_decide.
  - destruct (reconcileMembers_sound (podsToMemberSet pods) s0)
      as (r1 & s1 & -> & Hs1 & HS1 & Hr1 & Hok1); [by rewrite HS0|done|].
    unfold refresh_size. run. eexists _, _.
    split_and!; [done|done|cbn [this Spec]; congruence|done|].
    intros Hok. apply Hok1. by rewrite H0.
  - destruct (upgrade_or_ready_sound pods s0)
      as (r1 & s1 & -> & Hs1 & HS1 & Hr1 & Hok1); [|done|].
    { intros pod Hin%pod_name_running. apply IsEqual_dom in Heq. rewrite Heq in Hin.
      apply (sound_name (members (this s))); [done|]. by apply elem_of_dom. }
    unfold refresh_size. run. eexists _, _.
    split_and!; [done|done|cbn [this Spec]; congruence|done|].
    intros Hok. apply Hok1. by rewrite H0.
Qed.

End EngineSteps.

(** ** The engine on concrete clusters *)

Lemma reconcile_at_rest_witness :
  let names := ["c-1"; "c-2"; "c-3"] in
  let E := scripted None (payload_of names) in
  let s := cluster_of 3 names in
  let out := @reconcile E (pod_at "3.5.3" <$> names) s in
  out.1 = Val None
  ∧ members (this out.2) = members (this s)
  ∧ length (calls out.2) = 2%nat
  ∧ api.Ready (status (this out.2)) = true
  ∧ api.status_Size (status (this out.2)) = 3.
Proof.
  intros names E s out.
  assert (Hcfg : ∃ cfg, ClusterConfig listed (set_of names) = Val cfg
                        ∧ config_lines (payload_of names) = cfg).
  { eexists. split; vm_compute; reflexivity. }
  destruct Hcfg as (cfg & Hcfg & Hlines).
  assert (Hhosts : ∃ hosts, ClientHostList listed (set_of names) = Val hosts
                            ∧ connect_to hosts = None).
  { eexists. split; vm_compute; reflexivity. }
  destruct Hhosts as (hosts & Hhosts & Hconn).
  assert (Hrun := @reconcile_at_rest E (pod_at "3.5.3" <$> names) s hosts cfg
                    (payload_of names)).
  cbn zeta in Hrun. fold out in Hrun. rewrite Hrun.
  - split; [reflexivity|]. split; [reflexivity|]. split; [reflexivity|].
    split; reflexivity.
  - vm_compute. reflexivity.
  - vm_compute. reflexivity.
  - repeat constructor.
  - exact Hhosts.
  - exact Hcfg.
  - exact Hconn.
  - reflexivity.
  - exact Hlines.
Defined.

(** A third member joins a cluster of two. *)
Lemma addMember_outcomes_witness :
  let E := scripted None EmptyString in
  let s := cluster_of 3 ["c-1"; "c-2"] in
  let m := mkMember "c-3" "default" in
  let out := @addMember E m "new" s in
  out.1 = Val None
  ∧ members (this out.2) = Add (members (this s)) m
  ∧ length (calls out.2) = 2%nat.
Proof.
  intros E s m out.
  assert (He : ∃ existing, ClusterConfig listed (members (this s)) = Val existing).
  { eexists. vm_compute. reflexivity. }
  destruct He as [existing He].
  destruct (NewZookeeperPod_dashed m existing "c" "new" (Spec (this s)) eq_refl)
    as (pod & Hpod & _).
  pose proof (@addMember_outcomes E m "new" s existing pod He Hpod) as Hrun.
  cbn zeta in Hrun. fold out in Hrun. rewrite Hrun.
  split; [reflexivity|]. split; reflexivity.
Defined.

(** The dead member [c-2] of three is replaced. *)
Lemma replaceDeadMember_outcomes_witness :
  let E := scripted None EmptyString in
  let s := cluster_of 3 ["c-1"; "c-2"; "c-3"] in
  let m := mkMember "c-2" "default" in
  let out := @replaceDeadMember E m s in
  out.1 = Val None
  ∧ this out.2 = this s
  ∧ length (calls out.2) = 5%nat.
Proof.
  intros E s m out.
  assert (He : ∃ existing,
             ClusterConfig listed (Remove (members (this s)) "c-2") = Val existing).
  { eexists. vm_compute. reflexivity. }
  destruct He as [existing He].
  destruct (NewZookeeperPod_dashed m existing "c" "replacement" (Spec (this s)) eq_refl)
    as (pod & Hpod & _).
  assert (Hin : members (this s) !! Name m = Some m) by (vm_compute; reflexivity).
  pose proof (@replaceDeadMember_outcomes E m s existing pod Hin He Hpod) as Hrun.
  cbn zeta in Hrun. fold out in Hrun. rewrite Hrun.
  split; [reflexivity|]. split; reflexivity.
Defined.

(** Two unknown pods, both deleted. *)
Lemma remove_unexpected_spec_witness :
  let E := scripted None EmptyString in
  let x1 := ("x-1", mkMember "x-1" "default") in
  let x2 := ("x-2", mkMember "x-2" "default") in
  @remove_unexpected E [x1; x2] (cluster_of 3 ["c-1"])
  = (Val None,
     mkState (this (cluster_of 3 ["c-1"]))
       [PodsDelete "x-1" true; PodsDelete "x-2" true] 0).
Proof.
  intros E x1 x2.
  destruct (@remove_unexpected_spec E [x1] [] x2 (cluster_of 3 ["c-1"])
              (fun h x _ => eq_refl)) as [_ Hall].
  exact (Hall (fun h x _ => eq_refl)).
Defined.

(** Three members and a spec of two: one member goes, and its pod with it. *)
Lemma resize_exact_witness :
  let E := scripted None EmptyString in
  let s := cluster_of 2 ["c-1"; "c-2"; "c-3"] in
  let out := @resize E s in
  (∃ r, out.1 = Val r)
  ∧ Size (members (this out.2)) = 2
  ∧ length (deleted (calls out.2)) = 1%nat.
Proof.
  intros E s out.
  assert (Hkey : keyed_by_name (members (this s))).
  { apply map_Forall_to_list. vm_compute. repeat constructor. }
  assert (Hdash : dashed (members (this s))).
  { apply map_Forall_to_list. vm_compute. repeat constructor. }
  assert (Hmax : MaxMemberID (members (this s)) < MaxInt) by (vm_compute; reflexivity).
  assert (Hsize : 0 ≤ api.Size (Spec (this s))) by (vm_compute; discriminate).
  destruct (@resize_exact E s Hkey Hdash Hmax Hsize) as (_ & _ & Hdown & Hret).
  fold out in Hdown, Hret.
  split; [|split].
  - apply Hret; [|vm_compute; discriminate].
    intros h hosts Hne. destruct hosts; [congruence|reflexivity].
  - destruct Hdown as (m & hosts & _ & _ & _ & _ & Hsz & _); [vm_compute; reflexivity|].
    rewrite Hsz. vm_compute. reflexivity.
  - vm_compute. reflexivity.
Defined.

Lemma updateMembers_outcomes_witness :
  let names := ["c-1"; "c-2"; "c-3"] in
  let E := scripted None (payload_of names) in
  let s := cluster_of 3 ["c-1"] in
  let out := @updateMembers E (set_of ["c-1"]) s in
  out.1 = Val None ∧ members (this out.2) = set_of names.
Proof.
  intros names E s out.
  assert (Hh : ∃ hosts, ClientHostList listed (set_of ["c-1"]) = Val hosts).
  { eexists. vm_compute. reflexivity. }
  destruct Hh as [hosts Hh].
  destruct (@updateMembers_outcomes E (set_of ["c-1"]) s hosts Hh)
    as (live & asked & _ & Hget & Hlive).
  vm_compute in Hh. injection Hh as <-.
  vm_compute in Hget. injection Hget as <- <-.
  destruct Hlive as [_ [Hok _]].
  destruct Hok as (rebuilt & Hr & Hrun & _).
  { vm_compute. repeat constructor. }
  fold out in Hrun. rewrite Hrun. split; [reflexivity|].
  cbn [snd this members with_members]. vm_compute in Hr. injection Hr as <-.
  vm_compute. reflexivity.
Defined.

(** A cluster of four with a spec of three, an unknown pod that cannot be
    deleted, and an ensemble that can be connected to. *)
Lemma reconcile_returns_sound_witness :
  let E := scripted (Some "pods c-9 is forbidden") EmptyString in
  let s := cluster_of 3 ["c-1"; "c-2"; "c-3"; "c-4"] in
  let ok := @connects E ∧ 2 ≤ Size (members (this s)) in
  ok
  ∧ ends_sound ok (@reconcile E [pod_at "3.5.3" "c-1"; pod_at "3.5.3" "c-9"]) s
  ∧ ends_sound ok (@reconcileMembers E (set_of ["c-1"; "c-2"])) s
  ∧ ends_sound ok (@resize E) s.
Proof.
  intros E s ok. split.
  - split; [|vm_compute; discriminate].
    intros h hosts Hne. destruct hosts; [congruence|reflexivity].
  - apply (@reconcile_returns_sound E).
    + vm_compute. discriminate.
    + split; apply map_Forall_to_list; vm_compute; repeat constructor.
Defined.

(** ** Pods, labels and the pod policy *)

(** X22.  the pod [NewZookeeperPod] builds for a member.  For a member whose
    name has no dash the address cannot be formed and the builder panics.
    For every other member the pod has the name of the member, records the
    version of the spec, so that neither [pickOneOldMember] nor
    [needUpgrade] takes a pod just built for one to upgrade, and starts the
    server with the ID of the member and with the existing configuration
    followed by one line for the member itself. *)
Theorem NewZookeeperPod_spec
    (m : Member) (existingCluster : list string) (clusterName state : string)
    (cs : api.ClusterSpec) :
  (occurs "-" (Name m) = false →
     NewZookeeperPod m existingCluster clusterName state cs
     = Panic (PanicMemberName (Name m)))
  ∧ (occurs "-" (Name m) = true →
     ∃ pod joining,
       NewZookeeperPod m existingCluster clusterName state cs = Val pod
       ∧ pod_Name pod = Name m
       ∧ GetZookeeperVersion pod = api.Version cs
       ∧ pickOneOldMember [pod] (api.Version cs) = None
       ∧ needUpgrade [pod] cs = false
       ∧ ContainerEnv pod
         = [("ZOO_MY_ID", Itoa (ID m));
            ("ZOO_SERVERS", Join (existingCluster ++ [joining]) " ");
            ("ZOO_MAX_CLIENT_CNXNS", "0")]
       ∧ (server_line "participant" m = Val joining
          ∨ server_line "observer" m = Val joining)).
Proof.
  split.
  - intros Hd. unfold NewZookeeperPod, server_line.
    destruct (Addr_cases m) as [[Hd' _]|[_ ->]]; [congruence|].
    by destruct (_ || _).
  - intros Hd. unfold NewZookeeperPod, server_line.
    destruct (Addr_plain m Hd) as (a & -> & _).
    assert (Hv : ∀ pod, GetZookeeperVersion (SetZookeeperVersion pod (api.Version cs))
                        = api.Version cs).
    { intros pod. unfold GetZookeeperVersion, SetZookeeperVersion. cbn [Annotations].
      by rewrite lookup_insert_eq. }
    destruct (_ || _); cbn [mbind result_bind];
      (eexists _, _; split; [reflexivity|]; split; [reflexivity|]; split; [apply Hv|];
       split; [cbn [pickOneOldMember]; by rewrite Hv, bool_decide_eq_true_2|];
       split; [unfold needUpgrade; cbn [pickOneOldMember];
               rewrite Hv, (bool_decide_eq_true_2 (api.Version cs = api.Version cs)) by done;
               by rewrite andb_false_r|];
       split; [reflexivity|]); [by left|by right].
Qed.

Lemma merge_fold_union (l : list (string * string)) (l1 : gmap string string) :
  foldl (fun l1 kv => if decide (is_Some (l1 !! kv.1)) then l1 else <[kv.1 := kv.2]> l1)
    l1 l
  = l1 ∪ list_to_map l.
Proof.
  revert l1. induction l as [|[k v] l IH]; intros l1; simpl.
  - by rewrite (right_id_L ∅ (∪)).
  - rewrite IH. case_decide as Hk.
    + apply map_eq. intros j. rewrite !lookup_union.
      destruct (decide (j = k)) as [->|Hne].
      * destruct Hk as [x Hx]. rewrite Hx. by destruct (list_to_map l !! k), (<[k:=v]> _ !! k).
      * by rewrite lookup_insert_ne.
    + apply eq_None_not_Some in Hk.
      by rewrite <-insert_union_l, insert_union_r.
Qed.

Lemma write_fold_union (l : list (string * string)) (a : gmap string string) :
  NoDup l.*1 →
  foldl (fun a kv => <[kv.1 := kv.2]> a) a l = list_to_map l ∪ a.
Proof.
  revert a. induction l as [|[k v] l IH]; intros a Hnd; simpl.
  - by rewrite (left_id_L ∅ (∪)).
  - apply NoDup_cons in Hnd as [Hk Hnd]. rewrite IH by done.
    rewrite <-insert_union_l. apply not_elem_of_list_to_map_1 in Hk.
    by rewrite insert_union_r.
Qed.

Lemma order_to_map (o : order) (l : gmap string string) :
  fair_order o l → NoDup (o l).*1 ∧ list_to_map (o l) = l.
Proof.
  unfold fair_order. intros Hf.
  assert (Hnd : NoDup (o l).*1) by (rewrite Hf; apply NoDup_fst_map_to_list).
  split; [done|].
  rewrite (list_to_map_proper _ _ Hnd Hf). apply list_to_map_to_list.
Qed.

Lemma mergeLabels_union o l1 l2 : fair_order o l2 → mergeLabels o l1 l2 = l1 ∪ l2.
Proof.
  intros [_ Hm]%order_to_map. unfold mergeLabels. by rewrite merge_fold_union, Hm.
Qed.

(** X23.  [mergeLabels] adds to [l1] the labels of [l2] whose keys [l1] does
    not have, in whatever order the map is ranged over: a label already in
    [l1] keeps its value, and the labels a cluster is selected by stay on
    the pod that [NewZookeeperPod] labels, whatever the pod policy asks for. *)
Theorem mergeLabels_keeps_left (o : order) (l1 l2 : gmap string string)
    (m : Member) (clusterName : string) :
  fair_order o l2 →
  mergeLabels o l1 l2 = l1 ∪ l2
  ∧ (∀ k v, l1 !! k = Some v → mergeLabels o l1 l2 !! k = Some v)
  ∧ (∀ k, l1 !! k = None → mergeLabels o l1 l2 !! k = l2 !! k)
  ∧ dom (mergeLabels o l1 l2) = dom l1 ∪ dom l2
  ∧ LabelsForCluster clusterName
    ⊆ mergeLabels o (NewZookeeperPod_labels m clusterName) l2
  ∧ mergeLabels o (NewZookeeperPod_labels m clusterName) l2 !! "zookeeper_node"
    = Some (Name m).
Proof.
  intros Hf. rewrite !mergeLabels_union by done. split_and!.
  - done.
  - intros k v Hk. by apply lookup_union_Some_l.
  - intros k Hk. by rewrite lookup_union_r.
  - by rewrite dom_union_L.
  - etransitivity; [|apply map_union_subseteq_l].
    apply map_subseteq_spec. intros k v. unfold LabelsForCluster, NewZookeeperPod_labels.
    intros [[<- <-]|[? [[<- <-]|[? Hk]]%lookup_insert_Some]]%lookup_insert_Some.
    + by rewrite lookup_insert_ne, lookup_insert_ne, lookup_insert_eq.
    + by rewrite lookup_insert_eq.
    + by rewrite lookup_empty in Hk.
  - apply lookup_union_Some_l. unfold NewZookeeperPod_labels.
    by rewrite lookup_insert_ne, lookup_insert_eq.
Qed.

Lemma mergeLabels_keeps_left_witness :
  let l2 : gmap string string := {["app" := "other"; "tier" := "data"]} in
  let merged :=
    mergeLabels map_to_list (NewZookeeperPod_labels (mkMember "c-1" "default") "c") l2 in
  merged !! "app" = Some "zookeeper" ∧ merged !! "tier" = Some "data".
Proof.
  intros l2 merged.
  destruct (mergeLabels_keeps_left map_to_list
              (NewZookeeperPod_labels (mkMember "c-1" "default") "c") l2
              (mkMember "c-1" "default") "c" (Permutation_refl _))
    as (_ & Hl & Hr & _).
  split.
  - apply Hl. vm_compute. reflexivity.
  - unfold merged. rewrite Hr; vm_compute; reflexivity.
Defined.

Lemma Validate_keys_None keys :
  Validate_keys keys = None ↔ Forall (fun k => reserved_label k = false) keys.
Proof.
  induction keys as [|k keys IH]; simpl; [by split; [constructor|]|].
  destruct (reserved_label k) eqn:Hk.
  - split; [done|]. intros [? _]%Forall_cons. congruence.
  - rewrite IH. split; [by constructor|]. by intros [_ ?]%Forall_cons.
Qed.

Lemma reserved_labels_of_pod m clusterName k :
  is_Some (NewZookeeperPod_labels m clusterName !! k) → reserved_label k = true.
Proof.
  unfold NewZookeeperPod_labels. intros [v Hv].
  apply lookup_insert_Some in Hv as [[<- _]|[_ Hv]]; [done|].
  apply lookup_insert_Some in Hv as [[<- _]|[_ Hv]]; [done|].
  apply lookup_insert_Some in Hv as [[<- _]|[_ Hv]]; [done|].
  by rewrite lookup_empty in Hv.
Qed.

(** X24.  [Validate] accepts a spec without a pod policy, and a pod policy
    exactly when none of its label keys is ["app"] or begins with
    ["zookeeper_"], in whatever order the keys are ranged over.  The labels
    of an accepted policy never meet the labels [NewZookeeperPod] sets, so
    [mergeLabels] puts every one of them on the pod. *)
Theorem Validate_reserved_labels (o : order) (policy : PodPolicy)
    (m : Member) (clusterName : string) :
  fair_order o (policy_Labels policy) →
  Validate o None = None
  ∧ (Validate o (Some policy) = None
     ↔ ∀ k, k ∈ dom (policy_Labels policy) →
            k ≠ "app" ∧ String.prefix "zookeeper_" k = false)
  ∧ (Validate o (Some policy) ≠ None →
     Validate o (Some policy)
     = Some (ErrorString "spec: pod labels contains reserved label"))
  ∧ (Validate o (Some policy) = None →
     policy_Labels policy
     ⊆ mergeLabels o (NewZookeeperPod_labels m clusterName) (policy_Labels policy)).
Proof.
  intros Hf. pose proof Hf as Hf0. unfold fair_order in Hf0.
  assert (Hkeys : ∀ k, k ∈ (o (policy_Labels policy)).*1 ↔ k ∈ dom (policy_Labels policy)).
  { intros k. rewrite Hf0, elem_of_dom, list_elem_of_fmap. split.
    - intros ([k' v] & -> & Hin%elem_of_map_to_list). eauto.
    - intros [v Hv]. exists (k, v). split; [done|]. by apply elem_of_map_to_list. }
  assert (Hiff : Validate o (Some policy) = None
     ↔ ∀ k, k ∈ dom (policy_Labels policy) →
            k ≠ "app" ∧ String.prefix "zookeeper_" k = false).
  { unfold Validate. rewrite Validate_keys_None, Forall_forall. split.
    - intros Hall k Hk%Hkeys. specialize (Hall k Hk). unfold reserved_label in Hall.
      apply orb_false_iff in Hall as [Ha%bool_decide_eq_false Hp]. done.
    - intros Hall k Hk%Hkeys. destruct (Hall k Hk) as [Ha Hp].
      unfold reserved_label. by rewrite Hp, bool_decide_eq_false_2. }
  split; [done|]. split; [done|]. split.
  - unfold Validate. generalize ((o (policy_Labels policy)).*1).
    induction l as [|k l IH]; simpl; [done|]. by destruct (reserved_label k).
  - intros Hok. rewrite mergeLabels_union by done.
    apply map_union_subseteq_r. apply map_disjoint_spec. intros k v1 v2 H1 H2.
    assert (Hr : reserved_label k = true) by (eapply reserved_labels_of_pod; eauto).
    destruct (proj1 Hiff Hok k) as [Ha Hp]; [by apply elem_of_dom; eauto|].
    unfold reserved_label in Hr. rewrite Hp, bool_decide_eq_false_2 in Hr by done. done.
Qed.

Lemma Validate_reserved_labels_witness :
  let policy := mkPodPolicy {["tier" := "data"]} ∅ [] in
  Validate map_to_list (Some policy) = None
  ∧ Validate map_to_list (Some (mkPodPolicy {["zookeeper_node" := "x"]} ∅ []))
    = Some (ErrorString "spec: pod labels contains reserved label").
Proof.
  intros policy.
  destruct (Validate_reserved_labels map_to_list policy (mkMember "c-1" "default") "c"
              (Permutation_refl _)) as (_ & Hiff & _).
  split.
  - apply Hiff. intros k Hk. apply elem_of_dom in Hk as [v Hv].
    unfold policy in Hv. cbn [policy_Labels] in Hv.
    apply lookup_singleton_Some in Hv as [<- _]. split; [discriminate|reflexivity].
  - vm_compute. reflexivity.
Defined.

(** ** The version annotation and the pod policy *)

Lemma applyPodPolicy_Annotations o pod policy :
  fair_order o (policy_Annotations policy) →
  Annotations (applyPodPolicy o pod (Some policy))
  = policy_Annotations policy ∪ Annotations pod.
Proof.
  intros [Hnd Hm]%order_to_map. unfold applyPodPolicy. cbn [Annotations].
  by rewrite write_fold_union, Hm.
Qed.

(** X25.  the version a pod records.  [SetZookeeperVersion] writes the
    annotation [GetZookeeperVersion] reads, the last write wins and nothing
    else of the pod changes; a pod without the annotation records the empty
    version.  The annotations of the pod policy are written after the
    version: a policy that sets [zookeeper.version] itself replaces the
    version of the spec on every pod, and [pickOneOldMember] then takes
    each such pod for an old member; any other policy leaves the version
    of the spec in place. *)
Theorem version_annotation
    (o : order) (pod : Pod) (v v' : string) (policy : PodPolicy) :
  fair_order o (policy_Annotations policy) →
  GetZookeeperVersion (SetZookeeperVersion pod v) = v
  ∧ SetZookeeperVersion (SetZookeeperVersion pod v') v = SetZookeeperVersion pod v
  ∧ pod_Name (SetZookeeperVersion pod v) = pod_Name pod
  ∧ ContainerEnv (SetZookeeperVersion pod v) = ContainerEnv pod
  ∧ GetZookeeperVersion (mkPod (pod_Name pod) (pod_Namespace pod) ∅ (ContainerEnv pod))
    = EmptyString
  ∧ applyPodPolicy o (SetZookeeperVersion pod v) None = SetZookeeperVersion pod v
  ∧ GetZookeeperVersion (applyPodPolicy o (SetZookeeperVersion pod v) (Some policy))
    = default v (policy_Annotations policy !! zookeeperVersionAnnotationKey)
  ∧ (policy_Annotations policy !! zookeeperVersionAnnotationKey = Some v' → v' ≠ v →
     pickOneOldMember [applyPodPolicy o (SetZookeeperVersion pod v) (Some policy)] v
     = Some (mkMember (pod_Name pod) (pod_Namespace pod))).
Proof.
  intros Hf.
  assert (Hget : GetZookeeperVersion (applyPodPolicy o (SetZookeeperVersion pod v) (Some policy))
    = default v (policy_Annotations policy !! zookeeperVersionAnnotationKey)).
  { unfold GetZookeeperVersion. rewrite applyPodPolicy_Annotations by done.
    rewrite lookup_union. unfold SetZookeeperVersion. cbn [Annotations].
    rewrite lookup_insert_eq. by destruct (policy_Annotations policy !! _). }
  unfold GetZookeeperVersion, SetZookeeperVersion in *. cbn [Annotations] in *. split_and!.
  - by rewrite lookup_insert_eq.
  - cbn. by rewrite insert_insert_eq.
  - done.
  - done.
  - by rewrite lookup_empty.
  - done.
  - exact Hget.
  - intros Hp Hne. cbn [pickOneOldMember]. unfold GetZookeeperVersion.
    rewrite Hget, Hp. cbn [default]. rewrite bool_decide_eq_false_2 by done. done.
Qed.

Lemma version_annotation_witness :
  let pod := pod_at "3.4.0" "c-1" in
  let policy := mkPodPolicy ∅ {["zookeeper.version" := "pinned"]} [] in
  GetZookeeperVersion (applyPodPolicy map_to_list (SetZookeeperVersion pod "3.5.3") (Some policy))
  = "pinned"
  ∧ pickOneOldMember
      [applyPodPolicy map_to_list (SetZookeeperVersion pod "3.5.3") (Some policy)] "3.5.3"
    = Some (mkMember "c-1" "default").
Proof.
  intros pod policy.
  destruct (version_annotation map_to_list pod "3.5.3" "pinned" policy
              (Permutation_refl _)) as (_ & _ & _ & _ & _ & _ & Hget & Hold).
  split.
  - rewrite Hget. vm_compute. reflexivity.
  - apply Hold; [vm_compute; reflexivity|discriminate].
Defined.

(** ** Names of pods *)





(** ** Defaults of the spec *)

Lemma TrimLeft_head s c :
  TrimLeft s c = EmptyString ∨ ∃ a rest, TrimLeft s c = String a rest ∧ Ascii.eqb a c = false.
Proof.
  induction s as [|a s IH]; simpl; [by left|].
  destruct (Ascii.eqb a c) eqn:Ha; [done|]. right. eauto.
Qed.

Lemma TrimLeft_id s c :
  (∀ a rest, s = String a rest → Ascii.eqb a c = false) → TrimLeft s c = s.
Proof.
  destruct s as [|a rest]; [done|]. intros Hs. simpl. by rewrite (Hs a rest).
Qed.

Lemma TrimLeft_idem s c : TrimLeft (TrimLeft s c) c = TrimLeft s c.
Proof.
  destruct (TrimLeft_head s c) as [->|(a & rest & -> & Ha)]; [done|].
  simpl. by rewrite Ha.
Qed.

Lemma TrimLeft_empty_iff s c :
  TrimLeft s c = EmptyString ↔ ∀ a, occurs a s = true → a = c.
Proof.
  induction s as [|x s IH]; cbn [TrimLeft occurs]; [done|].
  destruct (Ascii.eqb_spec x c) as [->|Hx].
  - rewrite IH. split.
    + intros Hall a. destruct (Ascii.eqb_spec c a) as [->|_]; [done|apply Hall].
    + intros Hall a Ha. apply Hall. by destruct (Ascii.eqb c a).
  - split; [done|]. intros Hall. destruct Hx. apply Hall.
    by rewrite Ascii.eqb_refl.
Qed.

(** X27.  [SetDefaults] fills an empty repository and an empty version with
    the defaults, keeps a repository that is given, and strips every leading
    [v] of the version, so that [ImageName], which puts the [v] back, names
    the same image for the versions ["3.5.3"] and ["v3.5.3"].  The size and
    the pause flag are kept.  The version is stripped after the default is
    filled in: the version ends up empty exactly when it was given and made
    of nothing but [v], and only a second call replaces it by the default;
    on every other spec a second call changes nothing. *)
Theorem SetDefaults_spec (c : api.ClusterSpec) (repo version : string) :
  let d := SetDefaults c in
  api.Size d = api.Size c ∧ api.Paused d = api.Paused c
  ∧ api.Repository d ≠ EmptyString
  ∧ (api.Repository c = EmptyString → api.Repository d = defaultRepository)
  ∧ (api.Repository c ≠ EmptyString → api.Repository d = api.Repository c)
  ∧ (api.Version c = EmptyString → api.Version d = DefaultZookeeperVersion)
  ∧ (api.Version c ≠ EmptyString → api.Version d = TrimLeft (api.Version c) "v")
  ∧ (∀ rest, api.Version d ≠ String "v" rest)
  ∧ (api.Version d = EmptyString ↔
       api.Version c ≠ EmptyString
       ∧ ∀ a, occurs a (api.Version c) = true → a = "v"%char)
  ∧ (api.Version d ≠ EmptyString → SetDefaults d = d)
  ∧ (api.Version d = EmptyString →
       api.Version c ≠ EmptyString
       ∧ api.Version (SetDefaults d) = DefaultZookeeperVersion)
  ∧ (∀ a rest, version = String a rest → a ≠ "v"%char →
       let at_ v := SetDefaults (api.mkClusterSpec (api.Size c) repo v (api.Paused c)) in
       api.Version (at_ ("v" +:+ version)) = version
       ∧ api.Version (at_ version) = version
       ∧ ImageName repo (api.Version (at_ version)) = repo +:+ ":" +:+ "v" +:+ version).
Proof.
  intros d. unfold d, SetDefaults. cbn [api.Size api.Paused api.Repository api.Version].
  assert (Hlen : ∀ s, (Z.of_nat (String.length s) =? 0) = true ↔ s = EmptyString).
  { intros s. rewrite Z.eqb_eq. destruct s; simpl; [done|]. split; [lia|done]. }
  set (r0 := if Z.of_nat (String.length (api.Repository c)) =? 0
             then defaultRepository else api.Repository c).
  set (v0 := if Z.of_nat (String.length (api.Version c)) =? 0
             then DefaultZookeeperVersion else api.Version c).
  assert (Hr0 : r0 ≠ EmptyString).
  { unfold r0. destruct (Z.of_nat (String.length (api.Repository c)) =? 0) eqn:Hr;
      [by unfold defaultRepository|].
    intros He. apply Hlen in He. congruence. }
  assert (Hv0 : v0 ≠ EmptyString).
  { unfold v0. destruct (Z.of_nat (String.length (api.Version c)) =? 0) eqn:Hr;
      [by unfold DefaultZookeeperVersion|].
    intros He. apply Hlen in He. congruence. }
  assert (Hr1 : (Z.of_nat (String.length r0) =? 0) = false).
  { destruct (Z.of_nat (String.length r0) =? 0) eqn:Hr; [|done]. by apply Hlen in Hr. }
  assert (Hgiven : api.Version c ≠ EmptyString → v0 = api.Version c).
  { intros Hne. unfold v0.
    destruct (Z.of_nat (String.length (api.Version c)) =? 0) eqn:Hr; [|done].
    by apply Hlen in Hr. }
  split; [done|]. split; [done|]. split; [done|]. split.
  { intros He. unfold r0. by rewrite He. }
  split.
  { intros Hne. unfold r0.
    destruct (Z.of_nat (String.length (api.Repository c)) =? 0) eqn:Hr; [|done].
    by apply Hlen in Hr. }
  split.
  { intros He. unfold v0. by rewrite He. }
  split.
  { intros Hne. by rewrite Hgiven. }
  split.
  { intros rest Heq. destruct (TrimLeft_head v0 "v") as [He|(a & r & He & Ha)];
      rewrite He in Heq; [done|]. injection Heq as -> _. done. }
  split.
  { split.
    - intros He.
      assert (Hc : api.Version c ≠ EmptyString).
      { intros Hc. unfold v0 in He. rewrite Hc in He. done. }
      split; [done|]. rewrite Hgiven in He by done. by apply TrimLeft_empty_iff.
    - intros [Hc Hall]. rewrite Hgiven by done. by apply TrimLeft_empty_iff. }
  split.
  { intros Hne. rewrite Hr1. f_equal.
    destruct (Z.of_nat (String.length (TrimLeft v0 "v")) =? 0) eqn:Hr;
      [by apply Hlen in Hr|]. apply TrimLeft_idem. }
  split.
  { intros He. split.
    - intros Hc. unfold v0 in Hv0. rewrite Hc in Hv0. simpl in Hv0.
      unfold v0 in He. rewrite Hc in He. done.
    - by rewrite He. }
  intros a rest -> Ha.
  assert (Hah : Ascii.eqb a "v" = false) by (by apply Ascii.eqb_neq).
  unfold ImageName. simpl. rewrite Hah. by split_and!.
Qed.

(** ** Readiness of a pod *)

(** X28.  [IsPodReady] looks at the first condition of type [Ready] only: the
    pod is ready exactly when that condition exists and has the status
    [True].  Conditions of other types before it are skipped, conditions
    after it are not looked at, and a status without a [Ready] condition is
    not ready. *)
Theorem IsPodReady_first_Ready (conditions : list PodCondition) :
  (IsPodReady conditions = true ↔
     ∃ before c after,
       conditions = before ++ c :: after
       ∧ Forall (fun b => condition_Type b ≠ "Ready") before
       ∧ condition_Type c = "Ready" ∧ condition_Status c = "True")
  ∧ (Forall (fun b => condition_Type b ≠ "Ready") conditions →
       IsPodReady conditions = false ∧ getPodReadyCondition conditions = None)
  ∧ (∀ before c after,
       Forall (fun b => condition_Type b ≠ "Ready") before →
       condition_Type c = "Ready" →
       getPodReadyCondition (before ++ c :: after) = Some c
       ∧ IsPodReady (before ++ c :: after) = bool_decide (condition_Status c = "True")).
Proof.
  assert (Hskip : ∀ before rest,
            Forall (fun b => condition_Type b ≠ "Ready") before →
            getPodReadyCondition (before ++ rest) = getPodReadyCondition rest).
  { intros before rest Hb. induction Hb as [|b before Hb _ IH]; [done|].
    simpl. by rewrite bool_decide_eq_false_2. }
  assert (Hfirst : ∀ before c after,
       Forall (fun b => condition_Type b ≠ "Ready") before →
       condition_Type c = "Ready" →
       getPodReadyCondition (before ++ c :: after) = Some c
       ∧ IsPodReady (before ++ c :: after) = bool_decide (condition_Status c = "True")).
  { intros before c after Hb Hc. unfold IsPodReady. rewrite Hskip by done.
    simpl. by rewrite bool_decide_eq_true_2. }
  assert (Hfound : ∀ c, getPodReadyCondition conditions = Some c →
            ∃ before after, conditions = before ++ c :: after
              ∧ Forall (fun b => condition_Type b ≠ "Ready") before
              ∧ condition_Type c = "Ready").
  { intros c. induction conditions as [|x l IH]; [done|]. simpl.
    case_bool_decide as Hx.
    - intros [= ->]. exists [], l. by split_and!.
    - intros (before & after & -> & Hb & Hc)%IH.
      exists (x :: before), after. split_and!; [done|by constructor|done]. }
  split_and!.
  - split.
    + unfold IsPodReady. destruct (getPodReadyCondition conditions) as [c|] eqn:Hc; [|done].
      intros Hs%bool_decide_eq_true.
      destruct (Hfound c eq_refl) as (before & after & ? & ? & ?).
      by exists before, c, after.
    + intros (before & c & after & -> & Hb & Hc & Hs).
      destruct (Hfirst before c after Hb Hc) as [_ ->]. by apply bool_decide_eq_true.
  - intros Hall.
    assert (Hn : getPodReadyCondition conditions = None).
    { rewrite <-(app_nil_r conditions). by rewrite Hskip. }
    unfold IsPodReady. by rewrite Hn.
  - exact Hfirst.
Qed.
